(** * OT Stem Capture: a shallow embedding of the core handlers

    The development follows the Python sources
    - [src/core/midi_handler.py]  (MIDI recorder and playback scheduler),
    - [src/core/audio_handler.py] (audio capture buffer),
    - [src/core/session.py]       (capture session orchestration),
    - [src/widgets/level_meter.py] (the level clamp of the meters).

    Conventions.
    - Python [float] seconds are modelled by exact rationals [Q]; the audio
      level, which needs [sqrt] and [log10], is modelled over the reals [R].
      Where a property depends on rounding, the arithmetic is given again
      on binary64 numbers ([SessionTiming]).
    - Python [int] values (status bytes, channels, offsets) are [Z]; the
      bit operations are [Z.land] and [Z.lor].
    - [print] calls are logging only and are not modelled.
    - An [IndexError] is modelled by [None]. *)

From Stdlib Require Import ZArith QArith Qminmax Qabs List Bool Reals Psatz.
From Stdlib Require PrimFloat.
From stdpp Require Import gmap sorting.
Import ListNotations.

Local Open Scope Z_scope.

(** ** Comparisons on rational seconds *)

(** [a > b] *)
Definition Qgtb (a b : Q) : bool := negb (Qle_bool a b).
(** [a >= b] *)
Definition Qgeb (a b : Q) : bool := Qle_bool b a.

(** * [src/core/midi_handler.py] *)

Module MidiHandler.

(** ** MIDI events (class [MIDIEvent]) *)

Record MIDIEvent := mkEvent {
  timestamp : Q;        (* seconds from session start *)
  channel : Z;          (* stored channel field *)
  message : list Z      (* raw MIDI bytes *)
}.

(** [message[i]]; [None] stands for the [IndexError]. *)
Definition byte_at (m : list Z) (i : nat) : option Z := nth_error m i.

(** ** The recorder state of [MIDIHandler] *)

Record Recorder := mkRecorder {
  events : list MIDIEvent;
  recording : bool;
  start_time : Q;
  ot_start_offset : Q;
  ot_stop_time : Q
}.

(** [MIDIHandler.__init__], recorder fields. *)
Definition recorder_init : Recorder :=
  {| events := []; recording := false; start_time := 0%Q;
     ot_start_offset := 0%Q; ot_stop_time := 0%Q |}.

(** [start_recording]; [now] is the reading of [time.time()]. *)
Definition start_recording (now : Q) (h : Recorder) : Recorder :=
  {| events := []; recording := true; start_time := now;
     ot_start_offset := 0%Q; ot_stop_time := 0%Q |}.

(** [stop_recording] *)
Definition stop_recording (h : Recorder) : Recorder :=
  {| events := events h; recording := false; start_time := start_time h;
     ot_start_offset := ot_start_offset h; ot_stop_time := ot_stop_time h |}.

(** The channel stored with a message of status byte [status]. *)
Definition stored_channel (status : Z) : Z :=
  let channel := if status <? 0xF0 then Z.land status 0x0F else 0 in
  if Z.land status 0xF0 =? 0xC0 then Z.land status 0x0F + 1 else channel.

(** The start and stop bookkeeping of [_midi_callback] (the
    [if]/[elif]/[elif] chain on the status byte). *)
Definition track_transport (status : Z) (ts : Q) (h : Recorder) : Q * Q :=
  if status =? 0xFA then
    (if Qeq_bool (ot_start_offset h) 0 then ts else ot_start_offset h,
     ot_stop_time h)
  else if status =? 0xFC then
    (ot_start_offset h,
     if Qgtb (ot_start_offset h) 0 && Qeq_bool (ot_stop_time h) 0
     then ts else ot_stop_time h)
  else if Z.land status 0xF0 =? 0x90 then
    (if Qeq_bool (ot_start_offset h) 0 then ts else ot_start_offset h,
     ot_stop_time h)
  else (ot_start_offset h, ot_stop_time h).

(** [_midi_callback]: [msg] is the incoming message and [now] the reading
    of [time.time()] when it arrives. *)
Definition midi_callback (msg : list Z) (now : Q) (h : Recorder)
  : option Recorder :=
  if negb (recording h) then Some h
  else
    let ts := (now - start_time h)%Q in
    match byte_at msg 0 with
    | None => None
    | Some status =>
        let '(start, stop) := track_transport status ts h in
        Some {| events := events h ++
                  [ {| timestamp := ts; channel := stored_channel status;
                       message := msg |} ];
                recording := recording h;
                start_time := start_time h;
                ot_start_offset := start;
                ot_stop_time := stop |}
    end.

(** The callback run over a stream of arrivals, in arrival order. *)
Fixpoint record_stream (stream : list (list Z * Q)) (h : Recorder)
  : option Recorder :=
  match stream with
  | [] => Some h
  | (msg, now) :: rest =>
      match midi_callback msg now h with
      | None => None
      | Some h' => record_stream rest h'
      end
  end.

(** [get_track_activity] *)
Definition activity_init : gmap Z bool :=
  list_to_map (map (fun i => (i, false)) [1; 2; 3; 4; 5; 6; 7; 8]).

Definition mark_activity (activity : gmap Z bool) (event : MIDIEvent)
  : gmap Z bool :=
  if channel event <? 8 then <[channel event + 1 := true]> activity
  else activity.

Definition get_track_activity (evs : list MIDIEvent) : gmap Z bool :=
  fold_left mark_activity evs activity_init.

(** [_should_filter_event] *)
Definition should_filter_event (event : MIDIEvent) (solo_track : Z) : bool :=
  let message := message event in
  if (length message <? 3)%nat then false
  else
    match byte_at message 0, byte_at message 1 with
    | Some status, Some cc_num =>
        if negb (Z.land status 0xF0 =? 0xB0) then false
        else
          let channel := Z.land status 0x0F + 1 in
          if cc_num =? 49 then
            if negb (channel =? solo_track) then true else false
          else false
    | _, _ => false
    end.

(** [_calculate_pc_lead_times].  The returned dict is kept as an
    association list in insertion order (Python dicts keep it). *)

(** The first loop: index and timestamp of every program change. *)
Fixpoint pc_events_from (i : nat) (evs : list MIDIEvent) : list (nat * Q) :=
  match evs with
  | [] => []
  | event :: rest =>
      match byte_at (message event) 0 with
      | Some status =>
          if Z.land status 0xF0 =? 0xC0
          then (i, timestamp event) :: pc_events_from (S i) rest
          else pc_events_from (S i) rest
      | None => pc_events_from (S i) rest
      end
  end.

(** The second loop, with the running [prev_time]. *)
Fixpoint adjust_pcs (lead_fraction prev_time : Q) (pcs : list (nat * Q))
  : list (nat * Q) :=
  match pcs with
  | [] => []
  | (event_idx, pc_time) :: rest =>
      let pattern_duration := (pc_time - prev_time)%Q in
      let lead_time := (pattern_duration * lead_fraction)%Q in
      let adjusted_time := Qmax (prev_time + 0.1) (pc_time - lead_time) in
      (event_idx, adjusted_time) :: adjust_pcs lead_fraction pc_time rest
  end.

Definition calculate_pc_lead_times (evs : list MIDIEvent) (lead_fraction : Q)
  : list (nat * Q) :=
  adjust_pcs lead_fraction 0 (pc_events_from 0 evs).

(** ** The playback scheduler *)

(** What the playback thread does to the outside world. *)
Inductive Action :=
| Send (msg : list Z)       (* [midi_out.send_message(msg)] *)
| Sleep (seconds : Q)       (* [time.sleep(seconds)] *)
| Ready                     (* [on_ready()] *)
| Complete.                 (* [on_complete()] *)

(** What the outside world answers: the successive readings of
    [time.time()] and of [_stop_playback.is_set()], in the order the
    thread asks for them. *)
Record Env := mkEnv {
  clock : nat -> Q;
  stop_is_set : nat -> bool
}.

Record World := mkWorld {
  clock_reads : nat;
  flag_reads : nat;
  playing : bool;
  trace : list Action
}.

Definition world_init : World :=
  {| clock_reads := 0; flag_reads := 0; playing := true; trace := [] |}.

(** A run either finishes, dies on an exception, or is cut off when the
    loop budget is used up; the world reached is kept in each case. *)
Inductive Outcome (A : Type) :=
| Done (a : A) (w : World)
| Raised (w : World)
| Unfinished (w : World).
Arguments Done {A} a w.
Arguments Raised {A} w.
Arguments Unfinished {A} w.

Definition final_world {A} (o : Outcome A) : World :=
  match o with Done _ w => w | Raised w => w | Unfinished w => w end.

Definition M (A : Type) : Type := Env -> World -> Outcome A.

Definition ret {A} (a : A) : M A := fun _ w => Done a w.

Definition bind {A B} (c : M A) (k : A -> M B) : M B :=
  fun env w =>
    match c env w with
    | Done a w' => k a env w'
    | Raised w' => Raised w'
    | Unfinished w' => Unfinished w'
    end.

Declare Scope pb_scope.
Delimit Scope pb_scope with pb.
Notation "x <- c ;; k" := (bind c (fun x => k))
  (at level 100, c at next level, k at level 200, right associativity)
  : pb_scope.
Notation "c ;;; k" := (bind c (fun _ => k))
  (at level 100, k at level 200, right associativity) : pb_scope.

(** The world after some more actions. *)
Definition extend (w : World) (out : list Action) : World :=
  {| clock_reads := clock_reads w;
     flag_reads := flag_reads w;
     playing := playing w;
     trace := trace w ++ out |}.

Definition emit (a : Action) : M unit := fun _ w => Done tt (extend w [a]).

Definition send_message (msg : list Z) : M unit := emit (Send msg).
Definition sleep (seconds : Q) : M unit := emit (Sleep seconds).

(** The world after one more reading of the clock, of the flag. *)
Definition clock_read (w : World) : World :=
  {| clock_reads := S (clock_reads w);
     flag_reads := flag_reads w;
     playing := playing w;
     trace := trace w |}.

Definition flag_read (w : World) : World :=
  {| clock_reads := clock_reads w;
     flag_reads := S (flag_reads w);
     playing := playing w;
     trace := trace w |}.

(** [time.time()] *)
Definition time_now : M Q :=
  fun env w => Done (clock env (clock_reads w)) (clock_read w).

(** [self._stop_playback.is_set()] *)
Definition is_set : M bool :=
  fun env w => Done (stop_is_set env (flag_reads w)) (flag_read w).

(** [self.playing = b] *)
Definition set_playing (b : bool) : M unit :=
  fun _ w => Done tt {| clock_reads := clock_reads w;
                        flag_reads := flag_reads w;
                        playing := b;
                        trace := trace w |}.

Definition raise {A} : M A := fun _ w => Raised w.
Definition out_of_budget {A} : M A := fun _ w => Unfinished w.

Local Open Scope pb_scope.

Fixpoint for_each {A} (l : list A) (body : A -> M unit) : M unit :=
  match l with
  | [] => ret tt
  | x :: rest => body x ;;; for_each rest body
  end.

(** [range(1, 9)] *)
Definition tracks_1_to_8 : list Z := [1; 2; 3; 4; 5; 6; 7; 8].

Definition OT_LATENCY_COMPENSATION : Q := 0.2.

(** [_send_ot_stop] *)
Definition send_ot_stop (auto_ch : Z) : M unit :=
  send_message [Z.lor 0x90 auto_ch; 33; 100] ;;;
  sleep 0.01 ;;;
  send_message [Z.lor 0x80 auto_ch; 33; 0].

(** [_send_ot_start] *)
Definition send_ot_start (auto_ch : Z) : M unit :=
  send_message [Z.lor 0x90 auto_ch; 34; 100] ;;;
  sleep 0.01 ;;;
  send_message [Z.lor 0x80 auto_ch; 34; 0].

(** [_mute_all_tracks] *)
Definition mute_all_tracks : M unit :=
  for_each tracks_1_to_8 (fun track =>
    let track_channel := track - 1 in
    send_message [Z.lor 0xB0 track_channel; 49; 127] ;;;
    sleep 0.02).

(** [_unmute_all_tracks] *)
Definition unmute_all_tracks : M unit :=
  for_each tracks_1_to_8 (fun track =>
    let track_channel := track - 1 in
    send_message [Z.lor 0xB0 track_channel; 49; 0] ;;;
    sleep 0.02).

(** [_send_isolation_mutes] *)
Definition send_isolation_mutes (solo_track : Z) : M unit :=
  for_each tracks_1_to_8 (fun track =>
    let value := if track =? solo_track then 0 else 127 in
    let track_channel := track - 1 in
    send_message [Z.lor 0xB0 track_channel; 49; value] ;;;
    sleep 0.02).

(** The arguments of [start_playback] / [_playback_loop].  A callback is
    represented by whether one was passed; calling it is an [Action]. *)
Record PlaybackArgs := mkArgs {
  isolated_track : option Z;
  on_complete : bool;
  duration : Q;
  tail_time : Q;
  on_ready : bool;
  start_pattern : option Z;
  prog_change_channel : Z;
  pre_roll : Q;
  stereo_duration : Q
}.

(** [sorted(..., key=adj_time)]: a stable insertion sort. *)
Fixpoint insert_by_time (x : Q * nat) (l : list (Q * nat)) : list (Q * nat) :=
  match l with
  | [] => [x]
  | y :: rest =>
      if Qgtb (fst y) (fst x) then x :: y :: rest
      else y :: insert_by_time x rest
  end.

Definition sort_by_time (l : list (Q * nat)) : list (Q * nat) :=
  fold_left (fun acc x => insert_by_time x acc) l [].

(** [early_pc_events], without the unused third component. *)
Definition early_pc_events_of (evs : list MIDIEvent) : list (Q * nat) :=
  sort_by_time
    (map (fun '(evt_idx, adj_time) => (adj_time, evt_idx))
         (calculate_pc_lead_times evs 0.2)).

(** The [for] loop sending the program changes whose adjusted time has
    come (lines 324-331). *)
Fixpoint send_early_pcs (evs : list MIDIEvent) (current_time : Q)
    (early : list (Q * nat)) (early_pc_sent : gset nat) : M (gset nat) :=
  match early with
  | [] => ret early_pc_sent
  | (adj_time, evt_idx) :: rest =>
      if negb (bool_decide (evt_idx ∈ early_pc_sent))
         && Qgeb current_time adj_time
      then
        match nth_error evs evt_idx with
        | None => raise
        | Some event =>
            match byte_at (message event) 0, byte_at (message event) 1 with
            | Some _, Some _ =>
                send_message (message event) ;;;
                send_early_pcs evs current_time rest
                               ({[evt_idx]} ∪ early_pc_sent)
            | _, _ => raise
            end
        end
      else send_early_pcs evs current_time rest early_pc_sent
  end.

(** [isolated_track is not None and self._should_filter_event(...)] *)
Definition filtered (isolated : option Z) (event : MIDIEvent) : bool :=
  match isolated with
  | Some solo_track => should_filter_event event solo_track
  | None => false
  end.

(** The inner [while event_index < len(self.events)] loop (lines
    334-352); [rest] is [self.events[event_index:]]. *)
Fixpoint dispatch_due (isolated : option Z) (early_pc_sent : gset nat)
    (current_time : Q) (rest : list MIDIEvent) (event_index : nat) : M nat :=
  match rest with
  | [] => ret event_index
  | event :: rest' =>
      if bool_decide (event_index ∈ early_pc_sent) then
        dispatch_due isolated early_pc_sent current_time rest' (S event_index)
      else if Qgeb current_time (timestamp event) then
        if filtered isolated event then
          dispatch_due isolated early_pc_sent current_time rest'
                       (S event_index)
        else
          send_message (message event) ;;;
          dispatch_due isolated early_pc_sent current_time rest'
                       (S event_index)
      else ret event_index
  end.

(** The outer [while True] loop (lines 313-355); [budget] bounds the
    number of iterations. *)
Fixpoint replay_loop (budget : nat) (evs : list MIDIEvent)
    (isolated : option Z) (loop_start playback_duration : Q)
    (early : list (Q * nat)) (event_index : nat) (early_pc_sent : gset nat)
  : M unit :=
  match budget with
  | O => out_of_budget
  | S budget' =>
      stopped <- is_set ;;
      if stopped then ret tt
      else
        now <- time_now ;;
        let current_time := (now - loop_start)%Q in
        if Qgeb current_time playback_duration then ret tt
        else
          sent' <- send_early_pcs evs current_time early early_pc_sent ;;
          index' <- dispatch_due isolated sent' current_time
                                 (skipn event_index evs) event_index ;;
          sleep 0.001 ;;;
          replay_loop budget' evs isolated loop_start playback_duration
                      early index' sent'
  end.

(** [content_duration] and [playback_duration] (lines 302-305) *)
Definition content_duration (evs : list MIDIEvent) (a : PlaybackArgs) : Q :=
  if Qgtb (duration a) 0 then duration a
  else match last evs with
       | Some event => (timestamp event + 0.5)%Q
       | None => 0%Q
       end.

Definition playback_duration (evs : list MIDIEvent) (a : PlaybackArgs) : Q :=
  (pre_roll a + content_duration evs a)%Q.

(** Lines 217-310: everything before the loop.  Returns
    [audio_start_time] and [start_time]. *)
Definition before_loop (a : PlaybackArgs) : M (option Q * Q) :=
  let auto_ch := prog_change_channel a - 1 in
  match isolated_track a with
  | Some solo =>
      send_ot_stop auto_ch ;;;
      sleep 0.1 ;;;
      send_ot_stop auto_ch ;;;
      sleep 0.02 ;;;
      send_ot_stop auto_ch ;;;
      sleep 0.5 ;;;
      mute_all_tracks ;;;
      sleep 0.3 ;;;
      send_isolation_mutes solo ;;;
      sleep 0.3
  | None => ret tt
  end ;;;
  match start_pattern a with
  | Some pattern =>
      let ch := prog_change_channel a - 1 in
      let bank_msb := 0 in
      let prog_num := pattern - 1 in
      send_message [Z.lor 0xB0 ch; 0; bank_msb] ;;;
      sleep 0.02 ;;;
      send_message [Z.lor 0xC0 ch; prog_num] ;;;
      sleep 0.3
  | None => ret tt
  end ;;;
  audio_start_time <-
    (if on_ready a then
       emit Ready ;;;
       t <- time_now ;;
       sleep 0.05 ;;;
       ret (Some t)
     else ret None) ;;
  let effective_pre_roll := Qmax 0 (pre_roll a - OT_LATENCY_COMPENSATION) in
  (if Qgtb effective_pre_roll 0 then sleep effective_pre_roll else ret tt) ;;;
  send_ot_start auto_ch ;;;
  t <- time_now ;;
  let start_time := (t - pre_roll a)%Q in
  ret (audio_start_time, start_time).

(** Python truth value of [audio_start_time]. *)
Definition truthy (t : option Q) : bool :=
  match t with
  | Some x => negb (Qeq_bool x 0)
  | None => false
  end.

(** Lines 357-391: everything after the loop. *)
Definition after_loop (a : PlaybackArgs) (audio_start_time : option Q)
  : M unit :=
  let auto_ch := prog_change_channel a - 1 in
  send_ot_stop auto_ch ;;;
  (if Qgtb (tail_time a) 0 then
     stopped <- is_set ;;
     if negb stopped then sleep (tail_time a) else ret tt
   else ret tt) ;;;
  (if Qgtb (stereo_duration a) 0 && truthy audio_start_time then
     stopped <- is_set ;;
     if negb stopped then
       now <- time_now ;;
       let elapsed := (now - default 0 audio_start_time)%Q in
       let remaining := (stereo_duration a - elapsed)%Q in
       if Qgtb remaining 0 then sleep remaining else ret tt
     else ret tt
   else ret tt) ;;;
  set_playing false ;;;
  (if on_complete a then
     stopped <- is_set ;;
     if negb stopped then emit Complete else ret tt
   else ret tt) ;;;
  match isolated_track a with
  | Some _ =>
      send_ot_stop auto_ch ;;;
      sleep 0.02 ;;;
      send_ot_stop auto_ch ;;;
      sleep 0.3 ;;;
      unmute_all_tracks
  | None => ret tt
  end.

(** Lines 217-355: the thread up to the exit of the [while] loop. *)
Definition until_loop_exit (budget : nat) (evs : list MIDIEvent)
    (a : PlaybackArgs) : M (option Q) :=
  setup <- before_loop a ;;
  let '(audio_start_time, start_time) := setup in
  replay_loop budget evs (isolated_track a) start_time
              (playback_duration evs a) (early_pc_events_of evs) 0 ∅ ;;;
  ret audio_start_time.

(** [_playback_loop] *)
Definition playback_loop (budget : nat) (evs : list MIDIEvent)
    (a : PlaybackArgs) : M unit :=
  audio_start_time <- until_loop_exit budget evs a ;;
  after_loop a audio_start_time.

(** ** The handler object, as seen by the thread that owns it *)

Record MIDIHandler := mkHandler {
  midi_out : option nat;                   (* the open output port, if any *)
  recorder : Recorder;
  is_playing : bool;                       (* [self.playing] *)
  playback_thread : option PlaybackArgs;   (* the thread started last *)
  stop_requested : bool                    (* [self._stop_playback] *)
}.

(** [start_playback]: the new handler state and what the calling thread
    does itself.  A started thread runs [playback_loop] on the recorded
    events with the given arguments. *)
Definition start_playback (a : PlaybackArgs) (h : MIDIHandler)
  : MIDIHandler * list Action :=
  match midi_out h with
  | None => (h, if on_complete a then [Complete] else [])
  | Some _ =>
      ({| midi_out := midi_out h;
          recorder := recorder h;
          is_playing := true;
          playback_thread := Some a;
          stop_requested := false |}, [])
  end.

(** [stop_playback] (the [join] only waits). *)
Definition stop_playback (h : MIDIHandler) : MIDIHandler * list Action :=
  ({| midi_out := midi_out h;
      recorder := recorder h;
      is_playing := false;
      playback_thread := playback_thread h;
      stop_requested := true |},
   match midi_out h with
   | Some _ => [Send [0xFC]]
   | None => []
   end).

(** [get_duration] *)
Definition get_duration (h : MIDIHandler) : Q :=
  match last (events (recorder h)) with
  | Some event => timestamp event
  | None => 0%Q
  end.

End MidiHandler.

(** * [src/core/audio_handler.py] *)

Module AudioHandler.

(** ** Two-dimensional sample arrays (frames by channels) *)

Section NDArray.
Context {A : Type} (zero : A).

(** [ncols] is [shape[1]]; it is part of the array because an array
    without frames still has a channel count. *)
Record ndarray := mkArray {
  rows : list (list A);
  ncols : nat
}.

(** [shape[0]] *)
Definition nframes (a : ndarray) : nat := length (rows a).

Definition well_shaped (a : ndarray) : Prop :=
  Forall (fun r => length r = ncols a) (rows a).

(** numpy's index normalisation on an axis of size [n]: negative
    indices count from the end, anything else out of range is an
    [IndexError]. *)
Definition normalize_index (n : nat) (i : Z) : option nat :=
  if (0 <=? i) && (i <? Z.of_nat n) then Some (Z.to_nat i)
  else if (- Z.of_nat n <=? i) && (i <? 0) then Some (Z.to_nat (i + Z.of_nat n))
  else None.

(** [audio[:, ch]] *)
Definition column (a : ndarray) (ch : Z) : option (list A) :=
  match normalize_index (ncols a) ch with
  | Some j => Some (map (fun r => nth j r zero) (rows a))
  | None => None
  end.

(** [np.column_stack([c1, c2])] for two columns of equal length *)
Definition column_stack (c1 c2 : list A) : ndarray :=
  {| rows := zip_with (fun x y => [x; y]) c1 c2; ncols := 2 |}.

(** [audio[:, [ch1, ch2]]] *)
Definition take_columns (a : ndarray) (ch1 ch2 : Z) : option ndarray :=
  match column a ch1, column a ch2 with
  | Some c1, Some c2 => Some (column_stack c1 c2)
  | _, _ => None
  end.

(** [np.zeros((n, 2))] *)
Definition zeros (n : nat) : ndarray :=
  {| rows := replicate n [zero; zero]; ncols := 2 |}.

(** [_extract_stereo] *)
Definition extract_stereo (audio : ndarray) (offset : Z) : option ndarray :=
  let ch1 := offset in
  let ch2 := offset + 1 in
  if ch2 <? Z.of_nat (ncols audio) then take_columns audio ch1 ch2
  else if ch1 <? Z.of_nat (ncols audio) then
    match column audio ch1 with
    | Some c => Some (column_stack c c)
    | None => None
    end
  else Some (zeros (nframes audio)).

(** [np.concatenate(blocks, axis=0)]; [None] is the [ValueError] for
    an empty list or for blocks of different widths. *)
Definition concatenate (blocks : list ndarray) : option ndarray :=
  match blocks with
  | [] => None
  | b :: rest =>
      if forallb (fun b' => Nat.eqb (ncols b') (ncols b)) rest
      then Some {| rows := concat (map rows blocks); ncols := ncols b |}
      else None
  end.
End NDArray.

Arguments ndarray A : clear implicits.

(** ** Level computation, over the reals *)

Definition mean_square (data : list R) : R :=
  (fold_right Rplus 0 (map (fun x => x * x) data) / INR (length data))%R.

(** [np.sqrt(np.mean(data**2))] *)
Definition rms (data : list R) : R := sqrt (mean_square data).

Definition log10 (x : R) : R := (ln x / ln 10)%R.

(** The level of a block whose RMS is [r]. *)
Definition db_of_rms (r : R) : R := (20 * log10 (Rmax r (/ 10 ^ 10)))%R.

(** [_calc_db] *)
Definition calc_db (data : list R) : R := db_of_rms (rms data).

(** ** The handler *)

Record t := mk {
  recording : bool;
  audio_data : list (ndarray Q);
  sample_rate : Z;                 (* [self._sample_rate] *)
  main_offset : Z;
  cue_offset : option Z;
  device_max_channels : Z;
  recording_channels : Z
}.

(** [set_channel_config] *)
Definition set_channel_config (main_offset : Z) (cue_offset : option Z)
    (h : t) : t :=
  let max_needed :=
    match cue_offset with
    | Some cue => Z.max (main_offset + 2) (cue + 2)
    | None => main_offset + 2
    end in
  {| recording := recording h;
     audio_data := audio_data h;
     sample_rate := sample_rate h;
     main_offset := main_offset;
     cue_offset := cue_offset;
     device_max_channels := device_max_channels h;
     recording_channels := Z.min max_needed (device_max_channels h) |}.

(** [channels] *)
Definition channels (h : t) : Z :=
  match cue_offset h with Some _ => 4 | None => 2 end.

(** [clear] *)
Definition clear (h : t) : t :=
  {| recording := recording h; audio_data := [];
     sample_rate := sample_rate h; main_offset := main_offset h;
     cue_offset := cue_offset h;
     device_max_channels := device_max_channels h;
     recording_channels := recording_channels h |}.

(** [start_recording]; [stream_opens] tells whether the input stream
    could be opened and started. *)
Definition start_recording (stream_opens : bool) (h : t) : bool * t :=
  (stream_opens,
   {| recording := if stream_opens then true else recording h;
      audio_data := [];
      sample_rate := sample_rate h; main_offset := main_offset h;
      cue_offset := cue_offset h;
      device_max_channels := device_max_channels h;
      recording_channels := recording_channels h |}).

(** [stop_recording] *)
Definition stop_recording (h : t) : t :=
  {| recording := false; audio_data := audio_data h;
     sample_rate := sample_rate h; main_offset := main_offset h;
     cue_offset := cue_offset h;
     device_max_channels := device_max_channels h;
     recording_channels := recording_channels h |}.

(** [_audio_callback], the part that stores the block *)
Definition audio_callback (indata : ndarray Q) (h : t) : t :=
  {| recording := recording h; audio_data := audio_data h ++ [indata];
     sample_rate := sample_rate h; main_offset := main_offset h;
     cue_offset := cue_offset h;
     device_max_channels := device_max_channels h;
     recording_channels := recording_channels h |}.

(** [get_duration]; [None] is the [ZeroDivisionError]. *)
Definition get_duration (h : t) : option Q :=
  match audio_data h with
  | [] => Some 0%Q
  | _ =>
      let total_samples :=
        fold_right Nat.add 0%nat (map nframes (audio_data h)) in
      if sample_rate h =? 0 then None
      else Some (inject_Z (Z.of_nat total_samples) / inject_Z (sample_rate h))%Q
  end.

(** [np.max(np.abs(sub_chunk))]; [None] is the [ValueError] on an array
    without elements. *)
Definition max_abs (sub_chunk : list (list Q)) : option Q :=
  match map Qabs (concat sub_chunk) with
  | [] => None
  | x :: xs => Some (fold_left Qmax xs x)
  end.

(** The result of scanning one block. *)
Inductive Scan :=
| Onset (sample : nat)
| Silent
| ScanError.

(** [for i in range(0, len(chunk), chunk_size)] over the rows from [i]
    on; [budget] bounds the number of sub-chunks. *)
Fixpoint scan_chunk (budget : nat) (threshold_linear : Q)
    (rest : list (list Q)) (i : nat) : Scan :=
  match budget with
  | O => Silent
  | S budget' =>
      match rest with
      | [] => Silent
      | _ =>
          match max_abs (firstn 1024 rest) with
          | None => ScanError
          | Some max_amp =>
              if Qgtb max_amp threshold_linear then Onset i
              else scan_chunk budget' threshold_linear
                              (skipn 1024 rest) (i + 1024)
          end
      end
  end.

Fixpoint scan_blocks (threshold_linear : Q) (rate : Z)
    (blocks : list (ndarray Q)) (samples_checked : nat) : option Q :=
  match blocks with
  | [] => Some 0%Q
  | chunk :: rest =>
      match scan_chunk (nframes chunk) threshold_linear (rows chunk) 0 with
      | Onset i =>
          let onset_sample := (samples_checked + i)%nat in
          if rate =? 0 then None
          else Some (inject_Z (Z.of_nat onset_sample) / inject_Z rate)%Q
      | Silent =>
          scan_blocks threshold_linear rate rest
                      (samples_checked + nframes chunk)
      | ScanError => None
      end
  end.

(** [10 ** (threshold_db / 20)] at the only threshold used, -40 dB. *)
Definition threshold_linear_40 : Q := 0.01.

(** [detect_audio_onset], given the linear threshold. *)
Definition detect_audio_onset (threshold_linear : Q) (h : t) : option Q :=
  match audio_data h with
  | [] => Some 0%Q
  | _ => scan_blocks threshold_linear (sample_rate h) (audio_data h) 0
  end.

(** The files written so far, oldest first. *)
Inductive FileName := StereoMix | CueMix | Stem (track_num : Z).
Definition Files := list (FileName * ndarray Q * Z).

(** [save_main_mix]; [write_ok] tells whether [sf.write] succeeds.  The
    [try] body also evaluates [np.max(np.abs(stereo))] for its log line. *)
Definition save_main_mix (name : FileName) (write_ok : bool) (h : t)
    (files : Files) : bool * Files :=
  match audio_data h with
  | [] => (false, files)
  | _ =>
      match
        audio ← concatenate (audio_data h);
        stereo ← extract_stereo 0%Q audio (main_offset h);
        _ ← max_abs (rows stereo);
        Some stereo
      with
      | Some stereo =>
          if write_ok then (true, files ++ [(name, stereo, sample_rate h)])
          else (false, files)
      | None => (false, files)
      end
  end.

(** [save_cue_mix] *)
Definition save_cue_mix (name : FileName) (write_ok : bool) (h : t)
    (files : Files) : bool * Files :=
  match audio_data h, cue_offset h with
  | _ :: _, Some cue =>
      match
        audio ← concatenate (audio_data h);
        extract_stereo 0%Q audio cue
      with
      | Some stereo =>
          if write_ok then (true, files ++ [(name, stereo, sample_rate h)])
          else (false, files)
      | None => (false, files)
      end
  | _, _ => (false, files)
  end.

(** [_update_levels], on a block of real samples: the four levels it
    stores and hands to the level callback.  [None] is the [IndexError]
    of a column index that is out of range on the negative side. *)
Definition level_of (indata : ndarray R) (ch : Z) : option R :=
  if ch <? Z.of_nat (ncols indata) then
    match column 0%R indata ch with
    | Some data => Some (calc_db data)
    | None => None
    end
  else Some (-60)%R.

Definition update_levels (h : t) (indata : ndarray R) : option (list R) :=
  let main_l := main_offset h in
  let main_r := main_offset h + 1 in
  l1 ← level_of indata main_l;
  l2 ← level_of indata main_r;
  match cue_offset h with
  | Some cue =>
      let cue_l := cue in
      let cue_r := cue + 1 in
      l3 ← level_of indata cue_l;
      l4 ← level_of indata cue_r;
      Some [l1; l2; l3; l4]
  | None => Some [l1; l2; (-60)%R; (-60)%R]
  end.

End AudioHandler.

(** * [src/widgets/level_meter.py] *)

Module LevelMeter.

(** The level kept by [ChannelMeter.set_level], [StereoMeter.set_levels]
    and [MeterWithDB.set_level]: [max(-60.0, min(0.0, db))]. *)
Definition set_level (db : R) : R := Rmax (-60) (Rmin 0 db).

(** The state of [ChannelMeter] and [MeterWithDB]. *)
Record Meter := mkMeter {
  level : R;
  peak : R
}.

(** [__init__] *)
Definition meter_init : Meter := {| level := -60; peak := -60 |}.

(** [set_level], with the peak it keeps *)
Definition meter_set_level (db : R) (m : Meter) : Meter :=
  let level := set_level db in
  {| level := level;
     peak := if Rlt_dec (peak m) level then level else peak m |}.

(** [decay_peak] *)
Definition decay_peak (amount : R) (m : Meter) : Meter :=
  {| level := level m; peak := Rmax (level m) (peak m - amount) |}.

(** [_db_to_x] *)
Definition db_to_x (db width : R) : R :=
  let normalized := ((db + 60) / 60)%R in
  (normalized * width)%R.

End LevelMeter.

(** * [src/core/session.py] *)

Module SessionMetadata.

Record t := mk {
  duration_seconds : Q;
  ot_start_offset : Q;
  ot_content_duration : Q;
  sample_rate : Z;
  dual_stereo : bool;
  skipped_tracks : list Z;
  captured_stems : list Z
}.

(** The dataclass defaults. *)
Definition default : t :=
  {| duration_seconds := 0; ot_start_offset := 0; ot_content_duration := 0;
     sample_rate := 48000; dual_stereo := false;
     skipped_tracks := []; captured_stems := [] |}.

End SessionMetadata.

Module Session.

Import AudioHandler(ndarray, Files, StereoMix, CueMix, Stem).

Record t := mk {
  midi_handler : MidiHandler.MIDIHandler;
  audio_handler : AudioHandler.t;
  metadata : SessionMetadata.t;
  skipped_tracks : gset Z;
  tracks_with_activity : gset Z;
  files : Files
}.

(** [{t for t, active in activity.items() if active}] *)
Definition active_tracks (activity : gmap Z bool) : gset Z :=
  dom (filter (fun kv => kv.2 = true) activity).

(** [stop_jam_recording]; the two booleans tell whether the two file
    writes succeed, [None] is an exception escaping the method. *)
Definition stop_jam_recording (main_write_ok cue_write_ok : bool) (s : t)
  : option (Q * t) :=
  let midi := midi_handler s in
  let rec := MidiHandler.stop_recording (MidiHandler.recorder midi) in
  let audio := AudioHandler.stop_recording (audio_handler s) in
  duration ← AudioHandler.get_duration audio;
  let midi_start := MidiHandler.ot_start_offset rec in
  let midi_stop := MidiHandler.ot_stop_time rec in
  start_offset ←
    (if Qgtb midi_start 0 then Some midi_start
     else AudioHandler.detect_audio_onset
            AudioHandler.threshold_linear_40 audio);
  let content_duration :=
    if Qgtb midi_stop midi_start then (midi_stop - midi_start)%Q
    else (duration - start_offset)%Q in
  let is_dual := 4 <=? AudioHandler.channels audio in
  let '(_, files1) :=
    AudioHandler.save_main_mix StereoMix main_write_ok audio (files s) in
  let files2 :=
    if is_dual
    then snd (AudioHandler.save_cue_mix CueMix cue_write_ok audio files1)
    else files1 in
  let activity := MidiHandler.get_track_activity (MidiHandler.events rec) in
  Some (duration,
        {| midi_handler :=
             {| MidiHandler.midi_out := MidiHandler.midi_out midi;
                MidiHandler.recorder := rec;
                MidiHandler.is_playing := MidiHandler.is_playing midi;
                MidiHandler.playback_thread :=
                  MidiHandler.playback_thread midi;
                MidiHandler.stop_requested :=
                  MidiHandler.stop_requested midi |};
           audio_handler := audio;
           metadata :=
             {| SessionMetadata.duration_seconds := duration;
                SessionMetadata.ot_start_offset := start_offset;
                SessionMetadata.ot_content_duration := content_duration;
                SessionMetadata.sample_rate := AudioHandler.sample_rate audio;
                SessionMetadata.dual_stereo := is_dual;
                SessionMetadata.skipped_tracks :=
                  SessionMetadata.skipped_tracks (metadata s);
                SessionMetadata.captured_stems :=
                  SessionMetadata.captured_stems (metadata s) |};
           skipped_tracks := skipped_tracks s;
           tracks_with_activity := active_tracks activity;
           files := files2 |}).

(** The arguments [capture_stem] passes to [start_playback]; the others
    keep their defaults. *)
Definition capture_args (track_num : Z) : MidiHandler.PlaybackArgs :=
  {| MidiHandler.isolated_track := Some track_num;
     MidiHandler.on_complete := true;
     MidiHandler.duration := 0;
     MidiHandler.tail_time := 0;
     MidiHandler.on_ready := false;
     MidiHandler.start_pattern := None;
     MidiHandler.prog_change_channel := 16;
     MidiHandler.pre_roll := 0;
     MidiHandler.stereo_duration := 0 |}.

(** What the surroundings contribute to one [capture_stem] call. *)
Record CaptureEnv := mkCaptureEnv {
  stream_opens : bool;                (* the audio stream starts *)
  captured : list (ndarray Q);        (* blocks delivered during the wait *)
  write_ok : bool                     (* the stem file can be written *)
}.

(** [capture_stem] *)
Definition capture_stem (track_num : Z) (env : CaptureEnv) (s : t)
  : bool * t :=
  match MidiHandler.midi_out (midi_handler s) with
  | None => (false, s)
  | Some _ =>
      let audio := AudioHandler.clear (audio_handler s) in
      let '(started, audio) :=
        AudioHandler.start_recording (stream_opens env) audio in
      if negb started then
        (false,
         {| midi_handler := midi_handler s; audio_handler := audio;
            metadata := metadata s; skipped_tracks := skipped_tracks s;
            tracks_with_activity := tracks_with_activity s;
            files := files s |})
      else
        let '(midi, _) :=
          MidiHandler.start_playback (capture_args track_num)
                                     (midi_handler s) in
        let audio :=
          fold_left (fun h block => AudioHandler.audio_callback block h)
                    (captured env) audio in
        let audio := AudioHandler.stop_recording audio in
        let '(success, files') :=
          AudioHandler.save_main_mix (Stem track_num) (write_ok env) audio
                                     (files s) in
        let meta := metadata s in
        (success,
         {| midi_handler := midi; audio_handler := audio;
            metadata :=
              {| SessionMetadata.duration_seconds :=
                   SessionMetadata.duration_seconds meta;
                 SessionMetadata.ot_start_offset :=
                   SessionMetadata.ot_start_offset meta;
                 SessionMetadata.ot_content_duration :=
                   SessionMetadata.ot_content_duration meta;
                 SessionMetadata.sample_rate :=
                   SessionMetadata.sample_rate meta;
                 SessionMetadata.dual_stereo :=
                   SessionMetadata.dual_stereo meta;
                 SessionMetadata.skipped_tracks :=
                   SessionMetadata.skipped_tracks meta;
                 SessionMetadata.captured_stems :=
                   if success
                   then SessionMetadata.captured_stems meta ++ [track_num]
                   else SessionMetadata.captured_stems meta |};
            skipped_tracks := skipped_tracks s;
            tracks_with_activity := tracks_with_activity s;
            files := files' |})
  end.

(** [start_jam_recording]; [now] is the clock reading the MIDI recorder
    takes and [stream_opens] tells whether the audio stream starts.  The
    creation of the session folder is not modelled. *)
Definition start_jam_recording (now : Q) (stream_opens : bool) (s : t)
  : bool * t :=
  let midi := midi_handler s in
  let rec := MidiHandler.start_recording now (MidiHandler.recorder midi) in
  let '(started, audio) :=
    AudioHandler.start_recording stream_opens (audio_handler s) in
  let rec := if negb started then MidiHandler.stop_recording rec else rec in
  (started,
   {| midi_handler :=
        {| MidiHandler.midi_out := MidiHandler.midi_out midi;
           MidiHandler.recorder := rec;
           MidiHandler.is_playing := MidiHandler.is_playing midi;
           MidiHandler.playback_thread := MidiHandler.playback_thread midi;
           MidiHandler.stop_requested := MidiHandler.stop_requested midi |};
      audio_handler := audio;
      metadata := metadata s;
      skipped_tracks := skipped_tracks s;
      tracks_with_activity := tracks_with_activity s;
      files := files s |}).

(** [set_skipped_tracks]; [list(tracks)] lists the set in some order. *)
Definition set_skipped_tracks (tracks : gset Z) (s : t) : t :=
  let meta := metadata s in
  {| midi_handler := midi_handler s;
     audio_handler := audio_handler s;
     metadata :=
       {| SessionMetadata.duration_seconds :=
            SessionMetadata.duration_seconds meta;
          SessionMetadata.ot_start_offset :=
            SessionMetadata.ot_start_offset meta;
          SessionMetadata.ot_content_duration :=
            SessionMetadata.ot_content_duration meta;
          SessionMetadata.sample_rate := SessionMetadata.sample_rate meta;
          SessionMetadata.dual_stereo := SessionMetadata.dual_stereo meta;
          SessionMetadata.skipped_tracks := elements tracks;
          SessionMetadata.captured_stems :=
            SessionMetadata.captured_stems meta |};
     skipped_tracks := tracks;
     tracks_with_activity := tracks_with_activity s;
     files := files s |}.

(** [get_stems_to_capture]:
    [sorted(self.tracks_with_activity - self.skipped_tracks)] *)
Definition get_stems_to_capture (s : t) : list Z :=
  merge_sort Z.le (elements (tracks_with_activity s ∖ skipped_tracks s)).

End Session.

(** * The timing arithmetic of [stop_jam_recording] in binary64

    [Session.stop_jam_recording] computes with exact rationals.  These
    are its lines 91-112 on the numbers the program has, binary64
    floats: the start offset and the content duration, from the total
    duration, the start and stop the recorder captured, and the audio
    onset. *)

Module SessionTiming.

Import PrimFloat.
Local Open Scope float_scope.

Definition timing_parameters
    (duration midi_start midi_stop audio_onset : float) : float * float :=
  let start_offset := if 0 <? midi_start then midi_start else audio_onset in
  let content_duration :=
    if midi_start <? midi_stop then midi_stop - midi_start
    else duration - start_offset in
  (start_offset, content_duration).

End SessionTiming.

(** * Vocabulary of the properties *)

Import MidiHandler.

(** ** Isolation filter *)

(** A mute control change: at least three bytes, a control-change status
    byte (high nibble 0xB0) and controller number 49. *)
Definition is_mute_cc (e : MIDIEvent) : Prop :=
  (3 <= length (message e))%nat /\
  exists status, byte_at (message e) 0 = Some status /\
                 Z.land status 0xF0 = 0xB0 /\
                 byte_at (message e) 1 = Some 49.

(** The track a channel message addresses: its 0-indexed channel plus 1. *)
Definition addresses_track (e : MIDIEvent) (track : Z) : Prop :=
  exists status, byte_at (message e) 0 = Some status /\
                 track = Z.land status 0x0F + 1.

Definition mute_cc_for_other_track (e : MIDIEvent) (s : Z) : Prop :=
  is_mute_cc e /\ exists track, addresses_track e track /\ track <> s.

(** The events, with their indices, that one run of the dispatcher
    passes over at [current_time]: all events from [event_index] on up to
    the first one that is neither sent already nor due. *)
Fixpoint passed_over (early_pc_sent : gset nat) (current_time : Q)
    (rest : list MIDIEvent) (event_index : nat) : list (nat * MIDIEvent) :=
  match rest with
  | [] => []
  | e :: rest' =>
      if bool_decide (event_index ∈ early_pc_sent)
         || Qgeb current_time (timestamp e)
      then (event_index, e)
             :: passed_over early_pc_sent current_time rest' (S event_index)
      else []
  end.

(** ** Start and stop detection *)

Definition status_is (p : Z -> bool) (msg : list Z) : bool :=
  match byte_at msg 0 with
  | Some status => p status
  | None => false
  end.

(** Transport start (0xFA), or a note-on on any channel. *)
Definition is_start_signal : list Z -> bool :=
  status_is (fun status => (status =? 0xFA) || (Z.land status 0xF0 =? 0x90)).

(** The start signal as the specification words it: transport start, or
    a note-on on channel 1 only (status 0x90). *)
Definition is_start_signal_channel_1 : list Z -> bool :=
  status_is (fun status => (status =? 0xFA) || (status =? 0x90)).

(** Transport stop (0xFC). *)
Definition is_stop_signal : list Z -> bool :=
  status_is (fun status => status =? 0xFC).

(** The arrivals after the first one satisfying [p]. *)
Fixpoint after_first (p : list Z -> bool) (stream : list (list Z * Q))
  : list (list Z * Q) :=
  match stream with
  | [] => []
  | (msg, now) :: rest => if p msg then rest else after_first p rest
  end.

(** The timestamp of the first arrival satisfying [p], 0 if there is
    none; [t0] is the time at which recording started. *)
Definition first_timestamp (p : list Z -> bool) (t0 : Q)
    (stream : list (list Z * Q)) : Q :=
  match List.find (fun arrival => p (fst arrival)) stream with
  | Some (_, now) => (now - t0)%Q
  | None => 0%Q
  end.

Definition detected_start (t0 : Q) (stream : list (list Z * Q)) : Q :=
  first_timestamp is_start_signal t0 stream.

Definition detected_stop (t0 : Q) (stream : list (list Z * Q)) : Q :=
  first_timestamp is_stop_signal t0 (after_first is_start_signal stream).

Definition claimed_start (t0 : Q) (stream : list (list Z * Q)) : Q :=
  first_timestamp is_start_signal_channel_1 t0 stream.

(** A well-formed stream: no empty message, every arrival strictly after
    the start of the recording. *)
Definition stream_ok (t0 : Q) (stream : list (list Z * Q)) : Prop :=
  Forall (fun arrival => fst arrival <> [] /\ (t0 < snd arrival)%Q) stream.

(** A recorder that is recording since [t0]. *)
Definition live (t0 : Q) (h : Recorder) : Prop :=
  recording h = true /\ start_time h = t0.

(** ** Track activity *)

(** Track [N] as the specification words it: some channel message
    (status below 0xF0) arrived on 0-indexed channel [N - 1]. *)
Definition claimed_active (N : Z) (stream : list (list Z * Q)) : Prop :=
  exists msg now status,
    In (msg, now) stream /\ byte_at msg 0 = Some status /\
    status < 0xF0 /\ Z.land status 0x0F = N - 1.

(** The event the callback stores for an arrival. *)
Definition stored_event (t0 : Q) (arrival : list Z * Q) : option MIDIEvent :=
  match byte_at (fst arrival) 0 with
  | Some status =>
      Some {| timestamp := (snd arrival - t0)%Q;
              channel := stored_channel status;
              message := fst arrival |}
  | None => None
  end.

(** ** Program-change lead times *)

(** The time of the entry before position [k] of a list of indexed times,
    [start] before the first one. *)
Definition previous_time (start : Q) (l : list (nat * Q)) (k : nat) : Q :=
  match k with
  | O => start
  | S k' => match l !! k' with
            | Some (_, t) => t
            | None => start
            end
  end.

(** Every program change comes at least 0.1 s after the one before it,
    the first at least 0.1 s after time 0. *)
Definition spaced (pcs : list (nat * Q)) : Prop :=
  forall k i t, pcs !! k = Some (i, t) ->
                (previous_time 0 pcs k + 0.1 <= t)%Q.

(** ** A small session, used to exercise the session properties *)

Definition example_audio : AudioHandler.t :=
  {| AudioHandler.recording := true;
     AudioHandler.audio_data :=
       [ {| AudioHandler.rows := [[0%Q; 0%Q]; [0%Q; 0%Q]];
            AudioHandler.ncols := 2 |};
         {| AudioHandler.rows := [[0.5%Q; 0%Q]; [0%Q; 0%Q]];
            AudioHandler.ncols := 2 |} ];
     AudioHandler.sample_rate := 4;
     AudioHandler.main_offset := 0;
     AudioHandler.cue_offset := None;
     AudioHandler.device_max_channels := 2;
     AudioHandler.recording_channels := 2 |}.

Definition example_session (port : option nat) : Session.t :=
  {| Session.midi_handler :=
       {| midi_out := port;
          recorder :=
            {| events := [ {| timestamp := 0.25; channel := 2;
                              message := [0xB2; 49; 127] |} ];
               recording := true; start_time := 100;
               ot_start_offset := 0; ot_stop_time := 0 |};
          is_playing := false;
          playback_thread := None;
          stop_requested := false |};
     Session.audio_handler := example_audio;
     Session.metadata := SessionMetadata.default;
     Session.skipped_tracks := ∅;
     Session.tracks_with_activity := ∅;
     Session.files := [] |}.

(** ** Playback passes *)

Definition is_complete (act : Action) : bool :=
  match act with
  | Complete => true
  | _ => false
  end.

(** How often the completion callback is invoked in a trace. *)
Definition completions (tr : list Action) : nat :=
  length (List.filter is_complete tr).

(** Every recorded program change has its program byte. *)
Definition pcs_well_formed (evs : list MIDIEvent) : Prop :=
  Forall (fun e => forall status,
              byte_at (message e) 0 = Some status ->
              Z.land status 0xF0 = 0xC0 ->
              (2 <= length (message e))%nat) evs.

(** The thread reads the clock once for [audio_start_time] when a ready
    callback was passed, and once for [start_time]. *)
Definition clock_reads_before_loop (a : PlaybackArgs) : nat :=
  if on_ready a then 2%nat else 1%nat.

(** [start_time] of a pass started in [world_init]. *)
Definition loop_start (env : Env) (a : PlaybackArgs) : Q :=
  (clock env (if on_ready a then 1%nat else 0%nat) - pre_roll a)%Q.

(** [current_time] in iteration [i] of the loop (from 0). *)
Definition current_time_at (env : Env) (a : PlaybackArgs) (i : nat) : Q :=
  (clock env (clock_reads_before_loop a + i) - loop_start env a)%Q.

(** Iteration [i] passes both exit checks. *)
Definition running_at (env : Env) (evs : list MIDIEvent) (a : PlaybackArgs)
    (i : nat) : Prop :=
  stop_is_set env i = false /\
  (current_time_at env a i < playback_duration evs a)%Q.

(** The loop is left in iteration [n]: by the flag, or by the time. *)
Definition exits_at (env : Env) (evs : list MIDIEvent) (a : PlaybackArgs)
    (n : nat) : Prop :=
  (forall i, (i < n)%nat -> running_at env evs a i) /\
  (stop_is_set env n = true \/
   (playback_duration evs a <= current_time_at env a n)%Q).

(** The flag is not cleared during the pass. *)
Definition flag_stays_set (env : Env) : Prop :=
  forall i j, (i <= j)%nat -> stop_is_set env i = true ->
              stop_is_set env j = true.

(** Some poll of the flag during the run that ended in [w] found it set. *)
Definition cancelled (env : Env) (w : World) : Prop :=
  exists k, (k < flag_reads w)%nat /\ stop_is_set env k = true.

(** The device-stop trigger: note A1 on and off on the auto channel. *)
Definition stop_trigger (auto_ch : Z) : list Action :=
  [Send [Z.lor 0x90 auto_ch; 33; 100]; Sleep 0.01;
   Send [Z.lor 0x80 auto_ch; 33; 0]].

Definition unmute_all : list Action :=
  flat_map (fun track => [Send [Z.lor 0xB0 (track - 1); 49; 0]; Sleep 0.02])
           tracks_1_to_8.

(** What follows the completion step in an isolation pass. *)
Definition isolation_cleanup (a : PlaybackArgs) : list Action :=
  match isolated_track a with
  | Some _ =>
      stop_trigger (prog_change_channel a - 1) ++ [Sleep 0.02] ++
      stop_trigger (prog_change_channel a - 1) ++ [Sleep 0.3] ++
      unmute_all
  | None => []
  end.

(** A computation that always finishes, reads neither clock nor flag,
    and does not invoke the completion callback. *)
Definition quiet {A} (p : M A) : Prop :=
  forall env w, exists x out,
    p env w = Done x (extend w out) /\ completions out = 0%nat.

(** The entries of the early list point at program changes that have
    their program byte. *)
Definition early_ok (evs : list MIDIEvent) (early : list (Q * nat)) : Prop :=
  Forall (fun entry => exists e, nth_error evs (snd entry) = Some e /\
                                 (2 <= length (message e))%nat) early.

(** A waiting step after the loop: it always finishes, does not invoke
    the completion callback, and does nothing at all when the flag is
    set from its first poll on. *)
Definition waits (p : M unit) : Prop :=
  forall env w, exists w' out,
    p env w = Done tt w' /\
    trace w' = trace w ++ out /\
    completions out = 0%nat /\
    (flag_reads w <= flag_reads w')%nat /\
    ((forall j, (flag_reads w <= j)%nat -> stop_is_set env j = true) ->
     out = []).

(** [audio_start_time] of a pass started in [world_init]. *)
Definition audio_start (env : Env) (a : PlaybackArgs) : option Q :=
  if on_ready a then Some (clock env 0%nat) else None.

(** ** A small pass, used to exercise the playback properties *)

(** The clock advances by one millisecond per reading; the flag is set
    from its [k]-th poll on, never when [k] is [None]. *)
Definition example_env (k : option nat) : Env :=
  {| clock := fun i => (inject_Z (Z.of_nat i) * 0.001)%Q;
     stop_is_set := fun i => match k with
                             | Some k => (k <=? i)%nat
                             | None => false
                             end |}.

Definition example_events : list MIDIEvent :=
  [ {| timestamp := 0.001; channel := 0; message := [0xB0; 49; 127] |};
    {| timestamp := 0.002; channel := 3; message := [0xC2; 5] |};
    {| timestamp := 0.002; channel := 2; message := [0xB2; 49; 0] |} ].

Definition example_args : PlaybackArgs :=
  {| isolated_track := Some 3;
     on_complete := true;
     duration := 0.003;
     tail_time := 2;
     on_ready := true;
     start_pattern := Some 1;
     prog_change_channel := 11;
     pre_roll := 0;
     stereo_duration := 12 |}.

(** ** Vocabulary of the further properties *)

(** The entry of the early list for a lead-time entry. *)
Definition early_entry (p : nat * Q) : Q * nat := (snd p, fst p).

(** Event [i] of a timeline is a program change. *)
Definition is_program_change (evs : list MIDIEvent) (i : nat) : Prop :=
  exists e status, nth_error evs i = Some e /\
                   byte_at (message e) 0 = Some status /\
                   Z.land status 0xF0 = 0xC0.

(** What [_send_isolation_mutes] sends. *)
Definition isolation_mutes (solo_track : Z) : list Action :=
  flat_map (fun track =>
              [Send [Z.lor 0xB0 (track - 1); 49;
                     if track =? solo_track then 0 else 127];
               Sleep 0.02])
           tracks_1_to_8.


(** Whatever the outcome of [p], all it adds to the trace satisfies [ok]. *)
Definition only_does {A} (ok : Action -> Prop) (p : M A) : Prop :=
  forall env w, exists out,
    trace (final_world (p env w)) = trace w ++ out /\ Forall ok out.

(** A sleep, if it is one, is for a positive time. *)
Definition sleeps_positive (act : Action) : Prop :=
  match act with
  | Sleep seconds => (0 < seconds)%Q
  | _ => True
  end.

(** What the replay loop may do in a pass isolating [isolated]: send the
    message of a recorded event that the filter lets through, or sleep
    for its 1 ms tick. *)
Definition replays (evs : list MIDIEvent) (isolated : option Z)
    (act : Action) : Prop :=
  match act with
  | Send msg => exists e, In e evs /\ message e = msg /\
                          filtered isolated e = false
  | Sleep seconds => seconds = 0.001%Q
  | _ => False
  end.

(** Order of the early list: by adjusted time, and by event index among
    entries of equal time. *)
Definition by_time_then_index (x y : Q * nat) : Prop :=
  (fst x < fst y)%Q \/ ((fst x == fst y)%Q /\ (snd x <= snd y)%nat).

(** The number of frames held in a list of blocks. *)
Definition total_frames {A} (blocks : list (AudioHandler.ndarray A)) : nat :=
  fold_right Nat.add 0%nat (map AudioHandler.nframes blocks).

(** Every sample of the rows is at most [t] in absolute value. *)
Definition rows_quiet (t : Q) (rows : list (list Q)) : Prop :=
  Forall (fun r => r <> [] /\ Forall (fun x => (Qabs x <= t)%Q) r) rows.

(** ** Level meters *)

(** What happens to a meter: a level arrives, or the decay timer fires. *)
Inductive MeterOp :=
| SetLevel (db : R)
| DecayPeak (amount : R).

Definition meter_step (m : LevelMeter.Meter) (op : MeterOp)
  : LevelMeter.Meter :=
  match op with
  | SetLevel db => LevelMeter.meter_set_level db m
  | DecayPeak amount => LevelMeter.decay_peak amount m
  end.

Definition meter_run (ops : list MeterOp) : LevelMeter.Meter :=
  fold_left meter_step ops LevelMeter.meter_init.

Definition decays_down (op : MeterOp) : Prop :=
  match op with
  | SetLevel _ => True
  | DecayPeak amount => (0 <= amount)%R
  end.

(** ** The set-up of a pass *)







(** A computation that does exactly [out] and finishes, reading neither
    the clock nor the flag. *)
Definition emits (p : M unit) (out : list Action) : Prop :=
  forall env w, p env w = Done tt (extend w out).

(** * Properties *)

(** ** Rational comparisons *)

Lemma Qgtb_true (a b : Q) : Qgtb a b = true <-> (b < a)%Q.
Proof.
  unfold Qgtb. rewrite negb_true_iff.
  split; intros H.
  - apply Qnot_le_lt. intros Hle. apply Qle_bool_iff in Hle. congruence.
  - destruct (Qle_bool a b) eqn:E; [|reflexivity].
    apply Qle_bool_iff in E. exfalso. apply (Qlt_not_le _ _ H E).
Qed.

Lemma Qgtb_false (a b : Q) : Qgtb a b = false <-> (a <= b)%Q.
Proof.
  unfold Qgtb. rewrite negb_false_iff. apply Qle_bool_iff.
Qed.

Lemma Qgeb_true (a b : Q) : Qgeb a b = true <-> (b <= a)%Q.
Proof. unfold Qgeb. apply Qle_bool_iff. Qed.

Lemma Qgeb_false (a b : Q) : Qgeb a b = false <-> (a < b)%Q.
Proof.
  unfold Qgeb. split; intros H.
  - apply Qnot_le_lt. intros Hle. apply Qle_bool_iff in Hle. congruence.
  - destruct (Qle_bool b a) eqn:E; [|reflexivity].
    apply Qle_bool_iff in E. exfalso. apply (Qlt_not_le _ _ H E).
Qed.

(** ** The isolation filter *)

Lemma should_filter_event_spec (e : MIDIEvent) (s : Z) :
  should_filter_event e s = true <-> mute_cc_for_other_track e s.
Proof.
  unfold should_filter_event, mute_cc_for_other_track, is_mute_cc,
    addresses_track, byte_at.
  destruct e as [ts ch msg]; simpl.
  destruct msg as [|status [|cc [|d rest]]]; simpl.
  1-3: split; [discriminate | intros [[Hlen _] _]; simpl in Hlen; lia].
  destruct (Z.land status 240 =? 176) eqn:Hcc; simpl.
  - apply Z.eqb_eq in Hcc.
    destruct (cc =? 49) eqn:H49.
    + apply Z.eqb_eq in H49. subst cc.
      destruct (Z.land status 15 + 1 =? s) eqn:Hs; simpl.
      * apply Z.eqb_eq in Hs. split; [discriminate|].
        intros [_ (track & (st & Hst & Htr) & Hne)].
        injection Hst as <-. congruence.
      * apply Z.eqb_neq in Hs. split; [intros _|reflexivity].
        split.
        -- split; [lia|]. exists status. auto.
        -- exists (Z.land status 15 + 1). split; [|exact Hs].
           exists status. auto.
    + apply Z.eqb_neq in H49. split; [discriminate|].
      intros [[_ (st & _ & _ & Hc)] _]. congruence.
  - apply Z.eqb_neq in Hcc. split; [discriminate|].
    intros [[_ (st & Hst & Hl & _)] _]. congruence.
Qed.

Lemma extend_extend (w : World) (o1 o2 : list Action) :
  extend (extend w o1) o2 = extend w (o1 ++ o2).
Proof. unfold extend; simpl. by rewrite <- app_assoc. Qed.

Lemma extend_nil (w : World) : extend w [] = w.
Proof. destruct w; unfold extend; simpl. by rewrite app_nil_r. Qed.

Lemma dispatch_due_spec (isolated : option Z) (sent : gset nat) (now : Q)
    (rest : list MIDIEvent) (idx : nat) (env : Env) (w : World) :
  let seen := passed_over sent now rest idx in
  dispatch_due isolated sent now rest idx env w =
    Done (idx + length seen)%nat
         (extend w
            (map (fun ie => Send (message (snd ie)))
                 (List.filter
                    (fun ie => negb (bool_decide (fst ie ∈ sent))
                               && negb (filtered isolated (snd ie)))
                    seen))).
Proof.
  revert idx w. induction rest as [|e rest IH]; intros idx w; simpl.
  - unfold ret. by rewrite Nat.add_0_r, extend_nil.
  - destruct (bool_decide (idx ∈ sent)) eqn:Hsent; simpl.
    + rewrite Hsent; simpl. rewrite IH. f_equal. lia.
    + destruct (Qgeb now (timestamp e)) eqn:Hdue; simpl.
      * rewrite Hsent; simpl.
        destruct (filtered isolated e) eqn:Hf; simpl.
        -- rewrite IH. f_equal. lia.
        -- unfold bind, send_message, emit. rewrite IH.
           rewrite extend_extend. f_equal. lia.
      * unfold ret. by rewrite Nat.add_0_r, extend_nil.
Qed.


(** ** Start and stop detection *)

Lemma Qeq_bool_pos (x : Q) : (0 < x)%Q -> Qeq_bool x 0 = false.
Proof.
  intros H. destruct (Qeq_bool x 0) eqn:E; [|reflexivity].
  apply Qeq_bool_iff in E. lra.
Qed.

Lemma Qeq_bool_zero (x : Q) : (x == 0)%Q -> Qeq_bool x 0 = true.
Proof. intros H. by apply Qeq_bool_iff. Qed.

Lemma Qgtb_pos (x : Q) : (0 < x)%Q -> Qgtb x 0 = true.
Proof. intros H. by apply Qgtb_true. Qed.

Lemma Qgtb_zero (x : Q) : (x == 0)%Q -> Qgtb x 0 = false.
Proof. intros H. apply Qgtb_false. lra. Qed.

(** The bookkeeping of the callback, state by state. *)

Lemma transport_both_captured (status : Z) (ts : Q) (h : Recorder) :
  (0 < ot_start_offset h)%Q -> (0 < ot_stop_time h)%Q ->
  track_transport status ts h = (ot_start_offset h, ot_stop_time h).
Proof.
  intros Hs Hp. unfold track_transport.
  rewrite (Qeq_bool_pos _ Hs), (Qeq_bool_pos _ Hp), andb_false_r.
  by repeat case_match.
Qed.

Lemma transport_stop_taken (status : Z) (ts : Q) (h : Recorder) :
  (0 < ot_start_offset h)%Q -> (ot_stop_time h == 0)%Q ->
  (status =? 0xFC) = true ->
  track_transport status ts h = (ot_start_offset h, ts).
Proof.
  intros Hs Hp Hst. unfold track_transport.
  rewrite (Qgtb_pos _ Hs), (Qeq_bool_zero _ Hp), Hst.
  apply Z.eqb_eq in Hst. by subst status.
Qed.

Lemma transport_started_other (status : Z) (ts : Q) (h : Recorder) :
  (0 < ot_start_offset h)%Q ->
  (status =? 0xFC) = false ->
  track_transport status ts h = (ot_start_offset h, ot_stop_time h).
Proof.
  intros Hs Hst. unfold track_transport.
  rewrite (Qeq_bool_pos _ Hs), Hst. by repeat case_match.
Qed.

Lemma transport_start_taken (status : Z) (ts : Q) (h : Recorder) :
  (ot_start_offset h == 0)%Q ->
  (status =? 0xFA) || (Z.land status 0xF0 =? 0x90) = true ->
  track_transport status ts h = (ts, ot_stop_time h).
Proof.
  intros Hs Hst. unfold track_transport.
  rewrite (Qeq_bool_zero _ Hs).
  destruct (status =? 250) eqn:H250; [done|]. simpl in Hst.
  destruct (status =? 252) eqn:H252.
  - apply Z.eqb_eq in H252. by subst status.
  - by rewrite Hst.
Qed.

Lemma transport_idle_other (status : Z) (ts : Q) (h : Recorder) :
  (ot_start_offset h == 0)%Q ->
  (status =? 0xFA) || (Z.land status 0xF0 =? 0x90) = false ->
  track_transport status ts h = (ot_start_offset h, ot_stop_time h).
Proof.
  intros Hs Hst. unfold track_transport.
  apply orb_false_iff in Hst as [-> ->].
  rewrite (Qgtb_zero _ Hs). simpl. by case_match.
Qed.

Section Detection.
Variable t0 : Q.

Lemma callback_live (h : Recorder) (status : Z) (data : list Z) (now : Q) :
  live t0 h ->
  midi_callback (status :: data) now h =
    Some {| events := events h ++
              [ {| timestamp := (now - t0)%Q;
                   channel := stored_channel status;
                   message := status :: data |} ];
            recording := true;
            start_time := t0;
            ot_start_offset :=
              fst (track_transport status (now - t0)%Q h);
            ot_stop_time :=
              snd (track_transport status (now - t0)%Q h) |}.
Proof.
  intros [Hrec Hst]. unfold midi_callback. rewrite Hrec, Hst; simpl.
  by destruct (track_transport status (now - t0)%Q h).
Qed.

Lemma later_is_positive (now : Q) : (t0 < now)%Q -> (0 < now - t0)%Q.
Proof. intros H. lra. Qed.

(** One arrival: the stream is taken apart and the callback is run. *)
Ltac arrive h Hok Hl :=
  let Hne := fresh "Hne" in
  inversion Hok as [|? ? [Hne ?] ?]; subst; simpl in Hne;
  match goal with
  | |- context [record_stream ((?msg, ?now) :: _) h] =>
      destruct msg as [|status data]; [done|];
      simpl record_stream;
      rewrite (callback_live h status data now Hl)
  end.

(** Once both are captured nothing changes any more. *)
Lemma record_stream_both_captured (stream : list (list Z * Q)) :
  forall h,
    live t0 h -> stream_ok t0 stream ->
    (0 < ot_start_offset h)%Q -> (0 < ot_stop_time h)%Q ->
    exists h', record_stream stream h = Some h' /\
               ot_start_offset h' = ot_start_offset h /\
               ot_stop_time h' = ot_stop_time h.
Proof.
  induction stream as [|[msg now] rest IH]; intros h Hl Hok Hs Hp.
  - exists h. auto.
  - arrive h Hok Hl.
    rewrite (transport_both_captured _ _ _ Hs Hp). simpl.
    match goal with |- context [record_stream rest ?h1] =>
      destruct (IH h1) as (h' & Hrun & Hs' & Hp') end; simpl; auto.
    { by split. }
    exists h'. auto.
Qed.

(** With the start captured, the first stop that arrives is taken. *)
Lemma record_stream_start_captured (stream : list (list Z * Q)) :
  forall h,
    live t0 h -> stream_ok t0 stream ->
    (0 < ot_start_offset h)%Q -> (ot_stop_time h == 0)%Q ->
    exists h', record_stream stream h = Some h' /\
               ot_start_offset h' = ot_start_offset h /\
               ot_stop_time h' =
                 match List.find (fun arrival => is_stop_signal (fst arrival))
                                 stream with
                 | Some (_, now) => (now - t0)%Q
                 | None => ot_stop_time h
                 end.
Proof.
  induction stream as [|[msg now] rest IH]; intros h Hl Hok Hs Hp.
  - exists h. auto.
  - arrive h Hok Hl.
    simpl List.find. unfold is_stop_signal at 1, status_is, byte_at.
    simpl nth_error. cbv beta iota.
    destruct (status =? 252) eqn:Hstop.
    + rewrite (transport_stop_taken _ _ _ Hs Hp Hstop). simpl.
      match goal with |- context [record_stream rest ?h1] =>
        destruct (record_stream_both_captured rest h1)
          as (h' & Hrun & Hs' & Hp') end; simpl; auto.
      { by split. }
      { by apply later_is_positive. }
      exists h'. auto.
    + rewrite (transport_started_other _ _ _ Hs Hstop). simpl.
      match goal with |- context [record_stream rest ?h1] =>
        destruct (IH h1) as (h' & Hrun & Hs' & Hp') end; simpl; auto.
      { by split. }
      exists h'. auto.
Qed.

(** With nothing captured, the first start signal is taken and stops
    before it are ignored. *)
Lemma record_stream_nothing_captured (stream : list (list Z * Q)) :
  forall h,
    live t0 h -> stream_ok t0 stream ->
    (ot_start_offset h == 0)%Q -> (ot_stop_time h == 0)%Q ->
    exists h', record_stream stream h = Some h' /\
               ot_start_offset h' =
                 match List.find (fun arrival => is_start_signal (fst arrival))
                                 stream with
                 | Some (_, now) => (now - t0)%Q
                 | None => ot_start_offset h
                 end /\
               ot_stop_time h' =
                 match List.find (fun arrival => is_stop_signal (fst arrival))
                                 (after_first is_start_signal stream) with
                 | Some (_, now) => (now - t0)%Q
                 | None => ot_stop_time h
                 end.
Proof.
  induction stream as [|[msg now] rest IH]; intros h Hl Hok Hs Hp.
  - exists h. auto.
  - arrive h Hok Hl.
    simpl List.find. simpl after_first.
    unfold is_start_signal at 1 3, status_is, byte_at.
    simpl nth_error. cbv beta iota.
    destruct ((status =? 250) || (Z.land status 240 =? 144)) eqn:Hstart.
    + rewrite (transport_start_taken _ _ _ Hs Hstart). simpl.
      match goal with |- context [record_stream rest ?h1] =>
        destruct (record_stream_start_captured rest h1)
          as (h' & Hrun & Hs' & Hp') end; simpl; auto.
      { by split. }
      { by apply later_is_positive. }
      exists h'. auto.
    + rewrite (transport_idle_other _ _ _ Hs Hstart). simpl.
      match goal with |- context [record_stream rest ?h1] =>
        destruct (IH h1) as (h' & Hrun & Hs' & Hp') end; simpl; auto.
      { by split. }
      exists h'. auto.
Qed.
End Detection.

(** C3 (as amended).  Over a stream of arrivals after the start of the
    recording, the recorder ends with the timestamp of the first start
    signal as device start, where a start signal is a transport start
    (0xFA) or a note-on on any channel, and with the timestamp of the
    first transport stop (0xFC) after that signal as device stop; each is
    0 when there is no such arrival. *)
Theorem start_stop_detection (t0 : Q) (h0 : Recorder)
    (stream : list (list Z * Q)) :
  stream_ok t0 stream ->
  exists h, record_stream stream (start_recording t0 h0) = Some h /\
            ot_start_offset h = detected_start t0 stream /\
            ot_stop_time h = detected_stop t0 stream.
Proof.
  intros Hok.
  destruct (record_stream_nothing_captured t0 stream (start_recording t0 h0))
    as (h & Hrun & Hs & Hp); simpl; try done.
  exists h. split; [exact Hrun|]. split.
  - rewrite Hs. unfold detected_start, first_timestamp. by case_match.
  - rewrite Hp. unfold detected_stop, first_timestamp. by case_match.
Qed.

Lemma start_stop_detection_witness :
  let stream := [([0xFC], 1%Q); ([0x93; 60; 100], 2%Q); ([0xFA], 3%Q);
                 ([0xFC], 4%Q); ([0xFC], 5%Q)] in
  stream_ok 0 stream /\
  exists h, record_stream stream (start_recording 0 recorder_init) = Some h /\
            ot_start_offset h = detected_start 0 stream /\
            ot_stop_time h = detected_stop 0 stream.
Proof.
  intros stream. split.
  - repeat constructor; simpl; discriminate.
  - apply (start_stop_detection 0 recorder_init stream).
    repeat constructor; simpl; discriminate.
Defined.

(** C3, counterexample.  A note-on on channel 2 that arrives before the
    transport start is taken as the device start, although it is not on
    channel 1. *)
Lemma note_on_channel_2_taken_as_start :
  let stream := [([0x91; 60; 100], 1%Q); ([0xFA], 2%Q)] in
  exists h, record_stream stream (start_recording 0 recorder_init) = Some h /\
            (ot_start_offset h == 1)%Q /\
            (claimed_start 0 stream == 2)%Q /\
            ~ (ot_start_offset h == claimed_start 0 stream)%Q.
Proof.
  intros stream. eexists. split; [reflexivity|].
  repeat split; try reflexivity. intros H. discriminate H.
Qed.

(** ** Track activity *)

Lemma stored_channel_nonneg (status : Z) : 0 <= stored_channel status.
Proof.
  unfold stored_channel.
  assert (0 <= Z.land status 15) by (apply Z.land_nonneg; lia).
  repeat case_match; lia.
Qed.

Lemma stored_channel_plain (status : Z) :
  Z.land status 0xF0 <> 0xC0 ->
  stored_channel status = if status <? 0xF0 then Z.land status 0x0F else 0.
Proof.
  intros H. unfold stored_channel.
  apply Z.eqb_neq in H. by rewrite H.
Qed.

Lemma record_stream_events (t0 : Q) (stream : list (list Z * Q)) :
  forall h,
    live t0 h ->
    Forall (fun arrival => fst arrival <> []) stream ->
    exists h' evs,
      record_stream stream h = Some h' /\
      events h' = events h ++ evs /\
      Forall2 (fun arrival e => stored_event t0 arrival = Some e) stream evs.
Proof.
  induction stream as [|[msg now] rest IH]; intros h Hl Hok.
  - exists h, []. rewrite app_nil_r. by repeat split.
  - inversion Hok as [|? ? Hne Hrest]; subst. simpl in Hne.
    destruct msg as [|status data]; [done|].
    simpl. rewrite (callback_live t0 h status data now Hl).
    match goal with |- context [record_stream rest ?h1] =>
      destruct (IH h1) as (h' & evs & Hrun & Hev & Hall) end; auto.
    { by split. }
    eexists h', (_ :: evs). split; [exact Hrun|]. split.
    + rewrite Hev. simpl. rewrite <- app_assoc. reflexivity.
    + constructor; [reflexivity | exact Hall].
Qed.

Lemma activity_init_lookup (N : Z) :
  activity_init !! N = if decide (1 <= N <= 8) then Some false else None.
Proof.
  unfold activity_init. simpl.
  repeat (rewrite lookup_insert; case_decide;
           [subst; case_decide; [done | lia]|]).
  rewrite lookup_empty. case_decide; [lia | done].
Qed.

Lemma mark_activity_keeps_true (evs : list MIDIEvent) :
  forall (m : gmap Z bool) N,
    m !! N = Some true -> fold_left mark_activity evs m !! N = Some true.
Proof.
  induction evs as [|e evs IH]; intros m N Hm; simpl; [done|].
  apply IH. unfold mark_activity. case_match; [|done].
  rewrite lookup_insert. by case_decide.
Qed.

Lemma mark_activity_hit (evs : list MIDIEvent) :
  forall (m : gmap Z bool) N,
    (exists e, In e evs /\ channel e < 8 /\ channel e + 1 = N) ->
    fold_left mark_activity evs m !! N = Some true.
Proof.
  induction evs as [|e evs IH]; intros m N (e' & Hin & Hlt & HN); simpl.
  - destruct Hin.
  - destruct Hin as [<-|Hin].
    + apply mark_activity_keeps_true. unfold mark_activity.
      apply Z.ltb_lt in Hlt. rewrite Hlt. subst N. apply lookup_insert_eq.
    + apply IH. eauto.
Qed.

Lemma mark_activity_miss (evs : list MIDIEvent) :
  forall (m : gmap Z bool) N,
    (forall e, In e evs -> channel e < 8 -> channel e + 1 <> N) ->
    fold_left mark_activity evs m !! N = m !! N.
Proof.
  induction evs as [|e evs IH]; intros m N Hno; simpl; [done|].
  rewrite IH by (intros e' Hin; apply Hno; by right).
  unfold mark_activity. destruct (channel e <? 8) eqn:Hlt; [|done].
  apply lookup_insert_ne. apply Hno; [by left | by apply Z.ltb_lt].
Qed.

Lemma mark_activity_keeps_key (evs : list MIDIEvent) :
  forall (m : gmap Z bool) N,
    is_Some (m !! N) -> is_Some (fold_left mark_activity evs m !! N).
Proof.
  induction evs as [|e evs IH]; intros m N Hm; simpl; [done|].
  apply IH. unfold mark_activity. case_match; [|done].
  rewrite lookup_insert. by case_decide.
Qed.

Lemma mark_activity_inv (evs : list MIDIEvent) :
  forall (m : gmap Z bool) N v,
    fold_left mark_activity evs m !! N = Some v ->
    m !! N = Some v \/
    (v = true /\ exists e, In e evs /\ channel e < 8 /\ channel e + 1 = N).
Proof.
  induction evs as [|e evs IH]; intros m N v Hf; simpl in Hf; [by left|].
  apply IH in Hf as [Hm | (-> & e' & Hin & Hlt & HN)].
  - unfold mark_activity in Hm.
    destruct (channel e <? 8) eqn:Hlt; [|by left].
    rewrite lookup_insert in Hm. case_decide as Heq; [|by left].
    right. injection Hm as <-. split; [done|].
    exists e. split; [by left|]. split; [by apply Z.ltb_lt | done].
  - right. split; [done|]. exists e'. split; [by right | done].
Qed.

Lemma stored_events_in (t0 : Q) (stream : list (list Z * Q))
    (evs : list MIDIEvent) :
  Forall2 (fun arrival e => stored_event t0 arrival = Some e) stream evs ->
  (forall e, In e evs ->
     exists arrival, In arrival stream /\ stored_event t0 arrival = Some e) /\
  (forall arrival, In arrival stream ->
     exists e, In e evs /\ stored_event t0 arrival = Some e).
Proof.
  induction 1 as [|a e stream evs Hae Hall [IH1 IH2]].
  { split; intros ? []. }
  split.
  - intros e' [<-|Hin].
    + exists a. split; [by left | done].
    + destruct (IH1 e' Hin) as (a' & Ha' & He'). exists a'. auto with datatypes.
  - intros a' [<-|Hin].
    + exists e. split; [by left | done].
    + destruct (IH2 a' Hin) as (e' & He' & Ha'). exists e'. auto with datatypes.
Qed.

Lemma stored_event_channel (t0 : Q) (msg : list Z) (now : Q) (e : MIDIEvent) :
  stored_event t0 (msg, now) = Some e ->
  exists status, byte_at msg 0 = Some status /\
                 channel e = stored_channel status.
Proof.
  unfold stored_event, byte_at; simpl.
  destruct msg as [|status data]; [discriminate|]. simpl.
  intros [= <-]. by exists status.
Qed.

(** C7 (as amended).  [get_track_activity] returns a map over exactly
    the tracks 1-8 in which track [N] is active exactly when some
    recorded event has stored channel [N - 1]; the stored channel of a
    message other than a program change is the low nibble of the status
    byte for a channel message and 0 for a system message, so that system
    messages count for track 1 and stored channels from 8 on count for no
    track. *)
Theorem track_activity_by_stored_channel (t0 : Q) (h0 : Recorder)
    (stream : list (list Z * Q)) :
  Forall (fun arrival => fst arrival <> []) stream ->
  exists h,
    record_stream stream (start_recording t0 h0) = Some h /\
    dom (get_track_activity (events h)) = list_to_set tracks_1_to_8 /\
    (forall N,
        get_track_activity (events h) !! N = Some true <->
        1 <= N <= 8 /\
        exists msg now status,
          In (msg, now) stream /\ byte_at msg 0 = Some status /\
          stored_channel status = N - 1) /\
    (forall status,
        Z.land status 0xF0 <> 0xC0 ->
        stored_channel status =
          if status <? 0xF0 then Z.land status 0x0F else 0).
Proof.
  intros Hok.
  destruct (record_stream_events t0 stream (start_recording t0 h0))
    as (h & evs & Hrun & Hev & Hall); [by split | exact Hok |].
  simpl in Hev.
  destruct (stored_events_in t0 stream evs Hall) as [Hback Hforth].
  exists h. split; [exact Hrun|]. rewrite Hev. unfold get_track_activity.
  assert (Hrange : forall e, In e evs -> 0 <= channel e).
  { intros e Hin. destruct (Hback e Hin) as ([msg now] & _ & Hst).
    apply stored_event_channel in Hst as (status & _ & ->).
    apply stored_channel_nonneg. }
  split; [|split].
  - apply set_eq. intros N. rewrite elem_of_dom.
    unfold tracks_1_to_8. rewrite elem_of_list_to_set, !elem_of_cons, elem_of_nil.
    split.
    + intros [v Hv]. apply mark_activity_inv in Hv as [Hv | (_ & e & Hin & Hlt & HN)].
      * rewrite activity_init_lookup in Hv. case_decide; [lia | done].
      * specialize (Hrange e Hin). lia.
    + intros HN. apply mark_activity_keeps_key.
      rewrite activity_init_lookup. case_decide; [by eexists | lia].
  - intros N. split.
    + intros Hv. apply mark_activity_inv in Hv as [Hv | (_ & e & Hin & Hlt & HN)].
      * rewrite activity_init_lookup in Hv. by case_decide.
      * pose proof (Hrange e Hin). split; [lia|].
        destruct (Hback e Hin) as ([msg now] & Hin' & Hst).
        apply stored_event_channel in Hst as (status & Hb & Hc).
        exists msg, now, status. split; [done|]. split; [done|]. lia.
    + intros [HN (msg & now & status & Hin & Hb & Hc)].
      destruct (Hforth _ Hin) as (e & He & Hst).
      apply stored_event_channel in Hst as (status' & Hb' & Hc').
      apply mark_activity_hit. exists e. split; [done|].
      assert (status' = status) as -> by congruence. lia.
  - apply stored_channel_plain.
Qed.

Lemma track_activity_by_stored_channel_witness :
  let stream := [([0x92; 60; 100], 1%Q); ([0xB4; 49; 127], 2%Q);
                 ([0xFA], 3%Q); ([0x9A; 60; 100], 4%Q)] in
  Forall (fun arrival => fst arrival <> []) stream /\
  exists h,
    record_stream stream (start_recording 0 recorder_init) = Some h /\
    dom (get_track_activity (events h)) = list_to_set tracks_1_to_8 /\
    (forall N,
        get_track_activity (events h) !! N = Some true <->
        1 <= N <= 8 /\
        exists msg now status,
          In (msg, now) stream /\ byte_at msg 0 = Some status /\
          stored_channel status = N - 1) /\
    (forall status,
        Z.land status 0xF0 <> 0xC0 ->
        stored_channel status =
          if status <? 0xF0 then Z.land status 0x0F else 0).
Proof.
  intros stream. split.
  - repeat constructor; simpl; discriminate.
  - apply (track_activity_by_stored_channel 0 recorder_init stream).
    repeat constructor; simpl; discriminate.
Defined.

(** C7, counterexample.  A timeline holding only a transport start, a
    system message, marks track 1 active although no channel message was
    recorded on channel 0. *)
Lemma transport_start_marks_track_1 :
  let stream := [([0xFA], 1%Q)] in
  exists h, record_stream stream (start_recording 0 recorder_init) = Some h /\
            get_track_activity (events h) !! 1 = Some true /\
            ~ claimed_active 1 stream.
Proof.
  intros stream. eexists. split; [reflexivity|]. split.
  - vm_compute. reflexivity.
  - intros (msg & now & status & Hin & Hb & Hlt & _).
    destruct Hin as [Heq|[]]. injection Heq as <- <-.
    injection Hb as <-. lia.
Qed.

(** ** Program-change lead times *)

Lemma adjust_pcs_lookup (f : Q) (pcs : list (nat * Q)) :
  forall (prev : Q) (k i : nat) (t : Q),
    pcs !! k = Some (i, t) ->
    adjust_pcs f prev pcs !! k =
      Some (i, Qmax (previous_time prev pcs k + 0.1)
                    (t - (t - previous_time prev pcs k) * f)).
Proof.
  induction pcs as [|[j u] pcs IH]; intros prev k i t Hk; [done|].
  destruct k as [|k]; simpl in *.
  - by injection Hk as -> ->.
  - rewrite (IH u k i t Hk). destruct k as [|k]; simpl; [done|].
    destruct (pcs !! k) as [[? ?]|] eqn:Hprev; [done|].
    apply lookup_ge_None in Hprev. apply lookup_lt_Some in Hk. lia.
Qed.

Lemma lead_not_after_original (p t : Q) :
  (p + 0.1 <= t)%Q -> (Qmax (p + 0.1) (t - (t - p) * 0.2) <= t)%Q.
Proof.
  intros H. apply Q.max_lub; [exact H|].
  assert (0 <= (t - p) * 0.2)%Q by (apply Qmult_le_0_compat; lra).
  lra.
Qed.

(** C2 (as amended).  The adjusted send time of every program change is
    the larger of (original time of the previous program change + 0.1 s)
    and (original time - 0.2 x gap since the previous program change),
    with time 0 before the first one.  In a timeline whose program
    changes are at least 0.1 s apart, it is at most the original time and
    at least 0.1 s after the previous program change's adjusted time. *)
Theorem pc_lead_time_bounds (evs : list MIDIEvent) (k i : nat) (t : Q) :
  pc_events_from 0 evs !! k = Some (i, t) ->
  let p := previous_time 0 (pc_events_from 0 evs) k in
  exists a,
    calculate_pc_lead_times evs 0.2 !! k = Some (i, a) /\
    a = Qmax (p + 0.1) (t - (t - p) * 0.2) /\
    (p + 0.1 <= a)%Q /\
    (spaced (pc_events_from 0 evs) ->
     (a <= t)%Q /\
     (previous_time 0 (calculate_pc_lead_times evs 0.2) k + 0.1 <= a)%Q).
Proof.
  intros Hk p. unfold calculate_pc_lead_times.
  eexists. split; [by apply adjust_pcs_lookup|]. split; [reflexivity|].
  fold p. split; [apply Q.le_max_l|].
  intros Hsp. split.
  - apply lead_not_after_original. exact (Hsp k i t Hk).
  - apply (Qle_trans _ (p + 0.1)%Q); [|apply Q.le_max_l].
    apply Qplus_le_l. subst p.
    destruct k as [|k]; simpl; [lra|].
    destruct (pc_events_from 0 evs !! k) as [[j u]|] eqn:Hprev.
    + rewrite (adjust_pcs_lookup 0.2 _ 0 k j u Hprev).
      apply lead_not_after_original. exact (Hsp k j u Hprev).
    + apply lookup_ge_None in Hprev. apply lookup_lt_Some in Hk. lia.
Qed.

Lemma pc_lead_time_bounds_witness :
  let evs := [ {| timestamp := 1; channel := 0; message := [0x90; 60; 100] |};
               {| timestamp := 4; channel := 11; message := [0xCA; 1] |};
               {| timestamp := 8; channel := 11; message := [0xCA; 2] |} ] in
  pc_events_from 0 evs !! 1%nat = Some (2%nat, 8%Q) /\
  spaced (pc_events_from 0 evs) /\
  exists a,
    calculate_pc_lead_times evs 0.2 !! 1%nat = Some (2%nat, a) /\
    (a <= 8)%Q /\
    (previous_time 0 (calculate_pc_lead_times evs 0.2) 1 + 0.1 <= a)%Q.
Proof.
  intros evs.
  assert (Hsp : spaced (pc_events_from 0 evs)).
  { intros [|[|k]] i t; simpl; intros [= <- <-]; vm_compute; discriminate. }
  split; [reflexivity|]. split; [exact Hsp|].
  destruct (pc_lead_time_bounds evs 1 2 8 eq_refl) as (a & Ha & _ & _ & Hb).
  exists a. split; [exact Ha|]. exact (Hb Hsp).
Defined.

(** C2, counterexample.  A program change recorded 0.05 s after the
    start is sent at 0.1 s, after its original time; the next one, at
    0.2 s, is sent at 0.17 s, less than 0.1 s after that. *)
Lemma early_program_change_sent_late :
  let evs := [ {| timestamp := 0.05; channel := 1; message := [0xC0; 1] |};
               {| timestamp := 0.2; channel := 1; message := [0xC0; 2] |} ] in
  exists a0 a1,
    calculate_pc_lead_times evs 0.2 = [(0%nat, a0); (1%nat, a1)] /\
    (a0 == 0.1)%Q /\ (a1 == 0.17)%Q /\
    ~ (a0 <= 0.05)%Q /\ ~ (a0 + 0.1 <= a1)%Q.
Proof.
  intros evs. eexists _, _. split; [reflexivity|].
  repeat split; try reflexivity; vm_compute; intros H; apply H; reflexivity.
Qed.

(** ** Stereo pair extraction *)

Section Extract.
Context {A : Type} (zero : A).
Import AudioHandler.

Lemma zip_with_map_same {B C D} (f : B -> C -> D) (g h : list A -> _)
    (l : list (list A)) :
  zip_with f (map g l) (map h l) = map (fun r => f (g r) (h r)) l.
Proof. induction l as [|r l IH]; simpl; [done | by rewrite IH]. Qed.

Lemma normalize_index_in_range (n : nat) (i : Z) :
  0 <= i < Z.of_nat n -> normalize_index n i = Some (Z.to_nat i).
Proof.
  intros [H0 Hn]. unfold normalize_index.
  apply Z.leb_le in H0. apply Z.ltb_lt in Hn. by rewrite H0, Hn.
Qed.

Lemma column_in_range (audio : ndarray A) (ch : Z) :
  0 <= ch < Z.of_nat (ncols audio) ->
  column zero audio ch =
    Some (map (fun r => nth (Z.to_nat ch) r zero) (rows audio)).
Proof.
  intros H. unfold column. by rewrite normalize_index_in_range.
Qed.

Lemma pairs_well_shaped {B} (f g : B -> A) (l : list B) :
  Forall (fun r : list A => length r = 2%nat) (map (fun x => [f x; g x]) l).
Proof. induction l; simpl; by constructor. Qed.

(** C5.  For a channel offset [o] (0-indexed, so not negative) and an
    input with [c] channels and [f] frames, [_extract_stereo] raises no
    error and returns 2 channels and [f] frames: channels [o] and
    [o + 1] when [o + 1 < c], channel [o] twice when [o < c <= o + 1],
    and zeros when [c <= o]. *)
Theorem extract_stereo_shape (audio : ndarray A) (o : Z) :
  0 <= o ->
  exists out,
    extract_stereo zero audio o = Some out /\
    ncols out = 2%nat /\
    nframes out = nframes audio /\
    well_shaped out /\
    (o + 1 < Z.of_nat (ncols audio) ->
     rows out = map (fun r => [nth (Z.to_nat o) r zero;
                               nth (S (Z.to_nat o)) r zero]) (rows audio)) /\
    (o < Z.of_nat (ncols audio) <= o + 1 ->
     rows out = map (fun r => [nth (Z.to_nat o) r zero;
                               nth (Z.to_nat o) r zero]) (rows audio)) /\
    (Z.of_nat (ncols audio) <= o ->
     rows out = replicate (nframes audio) [zero; zero]).
Proof.
  intros Ho. unfold extract_stereo.
  destruct (o + 1 <? Z.of_nat (ncols audio)) eqn:H2.
  - apply Z.ltb_lt in H2. unfold take_columns.
    rewrite !column_in_range by lia.
    eexists. split; [reflexivity|]. unfold column_stack, nframes; simpl.
    rewrite zip_with_map_same.
    replace (Z.to_nat (o + 1)) with (S (Z.to_nat o)) by lia.
    split; [done|]. split; [by rewrite length_map|].
    split; [apply pairs_well_shaped|].
    split; [done|]. split; intros; lia.
  - apply Z.ltb_ge in H2.
    destruct (o <? Z.of_nat (ncols audio)) eqn:H1.
    + apply Z.ltb_lt in H1. rewrite column_in_range by lia.
      eexists. split; [reflexivity|]. unfold column_stack, nframes; simpl.
      rewrite zip_with_map_same.
      split; [done|]. split; [by rewrite length_map|].
      split; [apply pairs_well_shaped|].
      split; [intros; lia|]. split; [done | intros; lia].
    + apply Z.ltb_ge in H1.
      eexists. split; [reflexivity|]. unfold zeros, nframes; simpl.
      split; [done|]. split; [by rewrite length_replicate|].
      split.
      { unfold well_shaped; simpl. apply Forall_forall.
        intros r Hr%elem_of_replicate. by destruct Hr as [-> _]. }
      split; [intros; lia|]. split; [intros; lia | done].
Qed.
End Extract.

Lemma extract_stereo_shape_witness :
  let audio := {| AudioHandler.rows := [[1%Q; 2%Q; 3%Q]; [4%Q; 5%Q; 6%Q]];
                  AudioHandler.ncols := 3 |} in
  0 <= 2 /\
  exists out,
    AudioHandler.extract_stereo 0%Q audio 2 = Some out /\
    AudioHandler.ncols out = 2%nat /\
    AudioHandler.nframes out = 2%nat /\
    AudioHandler.rows out = [[3%Q; 3%Q]; [6%Q; 6%Q]].
Proof.
  intros audio. split; [lia|].
  destruct (extract_stereo_shape 0%Q audio 2 ltac:(lia))
    as (out & Hout & Hc & Hf & _ & _ & Hdup & _).
  exists out. split; [exact Hout|]. split; [exact Hc|]. split; [exact Hf|].
  apply Hdup. simpl. lia.
Defined.

(** ** The capture session *)

(** C6 (as amended).  After the jam pass is stopped, [start_offset] is
    the start the MIDI recorder captured when there is one (value > 0)
    and the audio onset otherwise; [content_duration] is stop - start
    when a stop after the start was captured, and the one subtraction
    total duration - [start_offset] otherwise. *)
Theorem jam_timing_parameters (main_write_ok cue_write_ok : bool)
    (s : Session.t) (total onset : Q) :
  let rec := recorder (Session.midi_handler s) in
  let audio := AudioHandler.stop_recording (Session.audio_handler s) in
  AudioHandler.get_duration audio = Some total ->
  ((ot_start_offset rec <= 0)%Q ->
   AudioHandler.detect_audio_onset AudioHandler.threshold_linear_40 audio
     = Some onset) ->
  exists s',
    Session.stop_jam_recording main_write_ok cue_write_ok s
      = Some (total, s') /\
    let m := Session.metadata s' in
    SessionMetadata.duration_seconds m = total /\
    ((0 < ot_start_offset rec)%Q ->
     SessionMetadata.ot_start_offset m = ot_start_offset rec) /\
    ((ot_start_offset rec <= 0)%Q ->
     SessionMetadata.ot_start_offset m = onset) /\
    ((ot_start_offset rec < ot_stop_time rec)%Q ->
     SessionMetadata.ot_content_duration m
       = (ot_stop_time rec - ot_start_offset rec)%Q) /\
    ((ot_stop_time rec <= ot_start_offset rec)%Q ->
     SessionMetadata.ot_content_duration m
       = (total - SessionMetadata.ot_start_offset m)%Q).
Proof.
  intros rec audio Hdur Honset. unfold Session.stop_jam_recording.
  fold audio. rewrite Hdur. simpl. fold rec.
  destruct (Qgtb (ot_start_offset rec) 0) eqn:Hstart.
  - apply Qgtb_true in Hstart. simpl.
    destruct (AudioHandler.save_main_mix _ _ _ _) as [ok files1].
    eexists. split; [reflexivity|]. simpl.
    split; [done|]. split; [done|]. split; [intros; lra|].
    destruct (Qgtb (ot_stop_time rec) (ot_start_offset rec)) eqn:Hstop.
    + apply Qgtb_true in Hstop. split; [done | intros; lra].
    + apply Qgtb_false in Hstop. split; [intros; lra | done].
  - apply Qgtb_false in Hstart. rewrite (Honset Hstart). simpl.
    destruct (AudioHandler.save_main_mix _ _ _ _) as [ok files1].
    eexists. split; [reflexivity|]. simpl.
    split; [done|]. split; [intros; lra|]. split; [done|].
    destruct (Qgtb (ot_stop_time rec) (ot_start_offset rec)) eqn:Hstop.
    + apply Qgtb_true in Hstop. split; [done | intros; lra].
    + apply Qgtb_false in Hstop. split; [intros; lra | done].
Qed.

Lemma jam_timing_parameters_witness :
  let s := example_session (Some 0%nat) in
  let audio := AudioHandler.stop_recording (Session.audio_handler s) in
  AudioHandler.get_duration audio = Some (4 # 4)%Q /\
  AudioHandler.detect_audio_onset AudioHandler.threshold_linear_40 audio
    = Some (2 # 4)%Q /\
  exists s',
    Session.stop_jam_recording true true s = Some ((4 # 4)%Q, s') /\
    SessionMetadata.ot_start_offset (Session.metadata s') = (2 # 4)%Q /\
    SessionMetadata.ot_content_duration (Session.metadata s')
      = ((4 # 4) - SessionMetadata.ot_start_offset (Session.metadata s'))%Q.
Proof.
  intros s audio. split; [reflexivity|]. split; [reflexivity|].
  destruct (jam_timing_parameters true true s (4 # 4) (2 # 4) eq_refl
              (fun _ => eq_refl))
    as (s' & Hrun & _ & _ & Honset & _ & Hfallback).
  exists s'. split; [exact Hrun|]. split.
  - apply Honset. discriminate.
  - apply Hfallback. discriminate.
Defined.

Section Rounding.
Import PrimFloat.
Local Open Scope float_scope.

(** C6, counterexample.  With a captured start of 0.06 s, no captured
    stop and a total duration of 0.6 s, the fallback gives the start
    offset 0.06 and the content duration 0.6 - 0.06, and their sum is
    not the total duration: it is the next number above it. *)
#[warnings="-inexact-float"] Lemma fallback_sum_misses_total :
  let total := 0.6 in
  let timing := SessionTiming.timing_parameters total 0.06 0 0 in
  timing = (0.06, total - 0.06) /\
  (fst timing + snd timing =? total) = false /\
  fst timing + snd timing = next_up total.
Proof. split; [reflexivity|]. split; reflexivity. Qed.

End Rounding.

(** C8.  Without an open MIDI output port, [start_playback] calls the
    completion callback (when one was passed) and returns: the handler is
    left as it was, so no thread is started, and nothing is sent; and
    [capture_stem] returns False, leaving the session as it was. *)
Theorem no_output_port (a : PlaybackArgs) (h : MIDIHandler)
    (track_num : Z) (env : Session.CaptureEnv) (s : Session.t) :
  (midi_out h = None ->
   start_playback a h = (h, if on_complete a then [Complete] else []) /\
   playback_thread (fst (start_playback a h)) = playback_thread h /\
   Forall (fun act => forall msg, act <> Send msg)
          (snd (start_playback a h))) /\
  (midi_out (Session.midi_handler s) = None ->
   Session.capture_stem track_num env s = (false, s)).
Proof.
  split.
  - intros Hport. unfold start_playback. rewrite Hport. simpl.
    split; [done|]. split; [done|].
    destruct (on_complete a); repeat constructor; discriminate.
  - intros Hport. unfold Session.capture_stem. by rewrite Hport.
Qed.

Lemma no_output_port_witness :
  let a := Session.capture_args 3 in
  let s := example_session None in
  let env := {| Session.stream_opens := true; Session.captured := [];
                Session.write_ok := true |} in
  midi_out (Session.midi_handler s) = None /\
  start_playback a (Session.midi_handler s)
    = (Session.midi_handler s, [Complete]) /\
  Session.capture_stem 3 env s = (false, s).
Proof.
  intros a s env.
  destruct (no_output_port a (Session.midi_handler s) 3 env s) as [Hplay Hcap].
  split; [reflexivity|]. split.
  - exact (proj1 (Hplay eq_refl)).
  - exact (Hcap eq_refl).
Defined.

(** ** The audio level *)

Section Level.
Import AudioHandler.
Local Open Scope R_scope.

Lemma ln_monotone (x y : R) : 0 < x -> x <= y -> ln x <= ln y.
Proof.
  intros Hx [Hlt | ->]; [|lra].
  left. by apply ln_increasing.
Qed.

Lemma ln_10_pos : 0 < ln 10.
Proof. rewrite <- ln_1. apply ln_increasing; lra. Qed.

Lemma floor_pos : 0 < / 10 ^ 10.
Proof. apply Rinv_0_lt_compat. apply pow_lt. lra. Qed.

Lemma log10_floor : log10 (/ 10 ^ 10) = -10.
Proof.
  unfold log10. rewrite ln_Rinv by (apply pow_lt; lra).
  rewrite ln_pow by lra. simpl INR.
  pose proof ln_10_pos. field. lra.
Qed.

Lemma log10_monotone (x y : R) : 0 < x -> x <= y -> log10 x <= log10 y.
Proof.
  intros Hx Hxy. unfold log10.
  apply Rmult_le_compat_r.
  - left. apply Rinv_0_lt_compat, ln_10_pos.
  - by apply ln_monotone.
Qed.

Lemma log10_1 : log10 1 = 0.
Proof. unfold log10. rewrite ln_1. lra. Qed.

Lemma db_of_rms_monotone (r1 r2 : R) :
  r1 <= r2 -> db_of_rms r1 <= db_of_rms r2.
Proof.
  intros H. unfold db_of_rms.
  apply Rmult_le_compat_l; [lra|].
  apply log10_monotone.
  - eapply Rlt_le_trans; [apply floor_pos | apply Rmax_r].
  - apply Rle_max_compat_r. exact H.
Qed.

Lemma db_of_rms_silence : db_of_rms 0 = -200.
Proof.
  unfold db_of_rms. rewrite Rmax_right by (left; apply floor_pos).
  rewrite log10_floor. lra.
Qed.

Lemma db_of_rms_full : db_of_rms 1 = 0.
Proof.
  unfold db_of_rms. rewrite Rmax_left.
  - rewrite log10_1. lra.
  - apply Rle_trans with (/ 1); [|rewrite Rinv_1; lra].
    apply Rinv_le_contravar; [lra|]. apply pow_R1_Rle. lra.
Qed.

Lemma sum_squares_bounds (data : list R) :
  Forall (fun x => -1 <= x <= 1) data ->
  0 <= fold_right Rplus 0 (map (fun x => x * x) data) <= INR (length data).
Proof.
  induction 1 as [|x data Hx _ IH].
  - simpl. lra.
  - cbn [map fold_right length]. rewrite S_INR.
    assert (0 <= x * x <= 1) by nra. lra.
Qed.

Lemma rms_bounds (data : list R) :
  data <> [] -> Forall (fun x => -1 <= x <= 1) data -> 0 <= rms data <= 1.
Proof.
  intros Hne Hall. unfold rms. split; [apply sqrt_pos|].
  rewrite <- sqrt_1. apply sqrt_le_1_alt.
  unfold mean_square.
  assert (0 < INR (length data)).
  { destruct data; [done|]. apply lt_0_INR. simpl. lia. }
  apply sum_squares_bounds in Hall.
  apply Rmult_le_reg_r with (INR (length data)); [done|].
  unfold Rdiv. rewrite Rmult_assoc, Rinv_l by lra. lra.
Qed.

Lemma rms_zeros (n : nat) : rms (replicate n 0) = 0.
Proof.
  unfold rms, mean_square.
  assert (fold_right Rplus 0 (map (fun x => x * x) (replicate n 0)) = 0)
    as ->.
  { induction n as [|n IH]; simpl; [done|]. rewrite IH. lra. }
  unfold Rdiv. rewrite Rmult_0_l. apply sqrt_0.
Qed.

Lemma set_level_bounds (db : R) : -60 <= LevelMeter.set_level db <= 0.
Proof.
  unfold LevelMeter.set_level. split; [apply Rmax_l|].
  apply Rmax_lub; [lra | apply Rmin_l].
Qed.

(** C4 (as amended).  The level [20 * log10 (max rms 1e-10)] is
    non-decreasing in the RMS; for a block of samples in [-1, 1] it
    lies in [-200, 0] dB, and an all-zero block yields exactly -200 dB.
    The bound [-60, 0] holds for the level after the meter's clamp,
    which shows exactly -60 dB for an all-zero block. *)
Theorem level_bounds :
  (forall r1 r2, r1 <= r2 -> db_of_rms r1 <= db_of_rms r2) /\
  (forall data,
      data <> [] -> Forall (fun x => -1 <= x <= 1) data ->
      -200 <= calc_db data <= 0 /\
      -60 <= LevelMeter.set_level (calc_db data) <= 0) /\
  (forall n,
      (0 < n)%nat ->
      calc_db (replicate n 0) = -200 /\
      LevelMeter.set_level (calc_db (replicate n 0)) = -60).
Proof.
  split; [exact db_of_rms_monotone|]. split.
  - intros data Hne Hall. split; [|apply set_level_bounds].
    destruct (rms_bounds data Hne Hall) as [H0 H1]. unfold calc_db.
    split.
    + rewrite <- db_of_rms_silence. by apply db_of_rms_monotone.
    + rewrite <- db_of_rms_full. by apply db_of_rms_monotone.
  - intros n _. unfold calc_db. rewrite rms_zeros, db_of_rms_silence.
    split; [done|]. unfold LevelMeter.set_level.
    rewrite Rmin_right by lra. apply Rmax_left. lra.
Qed.

Lemma level_bounds_witness :
  1 / 4 <= 1 / 2 /\
  [1 / 2; -1] <> [] /\
  Forall (fun x => -1 <= x <= 1) [1 / 2; -1] /\
  (0 < 3)%nat /\
  db_of_rms (1 / 4) <= db_of_rms (1 / 2) /\
  -200 <= calc_db [1 / 2; -1] <= 0 /\
  calc_db (replicate 3 0) = -200.
Proof.
  destruct level_bounds as (Hmono & Hbounds & Hzero).
  assert (Hle : 1 / 4 <= 1 / 2) by lra.
  assert (Hne : [1 / 2; -1] <> []) by discriminate.
  assert (Hall : Forall (fun x => -1 <= x <= 1) [1 / 2; -1])
    by (repeat constructor; lra).
  assert (Hpos : (0 < 3)%nat) by lia.
  split; [exact Hle|]. split; [exact Hne|]. split; [exact Hall|].
  split; [exact Hpos|]. split; [exact (Hmono _ _ Hle)|]. split.
  - exact (proj1 (Hbounds _ Hne Hall)).
  - exact (proj1 (Hzero 3%nat Hpos)).
Defined.

(** C4, counterexample.  The level of an all-zero block is -200 dB; it
    is below -60 dB. *)
Lemma silent_block_below_minus_60 :
  calc_db [0; 0; 0; 0] = -200 /\ ~ (-60 <= calc_db [0; 0; 0; 0] <= 0).
Proof.
  assert (H : calc_db [0; 0; 0; 0] = -200).
  { change [0; 0; 0; 0] with (replicate 4 0).
    unfold calc_db. by rewrite rms_zeros, db_of_rms_silence. }
  split; [exact H|]. rewrite H. lra.
Qed.
End Level.

(** ** The playback thread *)

Lemma completions_app (t1 t2 : list Action) :
  completions (t1 ++ t2) = (completions t1 + completions t2)%nat.
Proof. unfold completions. by rewrite List.filter_app, length_app. Qed.

Lemma completions_cons (act : Action) (tr : list Action) :
  completions (act :: tr) =
    ((if is_complete act then 1 else 0) + completions tr)%nat.
Proof. unfold completions. simpl. by destruct (is_complete act). Qed.

Lemma completions_nil : completions [] = 0%nat.
Proof. reflexivity. Qed.

Ltac count_completions :=
  repeat first [ rewrite completions_app | rewrite completions_cons
               | rewrite completions_nil ];
  cbn [is_complete]; lia.

Lemma completions_sends {B} (f : B -> list Z) (l : list B) :
  completions (map (fun x => Send (f x)) l) = 0%nat.
Proof. induction l; simpl; [done|]. exact IHl. Qed.

Lemma quiet_ret {B} (x : B) : quiet (ret x).
Proof. intros env w. exists x, []. by rewrite extend_nil. Qed.

Lemma quiet_send (msg : list Z) : quiet (send_message msg).
Proof. intros env w. by exists tt, [Send msg]. Qed.

Lemma quiet_sleep (d : Q) : quiet (sleep d).
Proof. intros env w. by exists tt, [Sleep d]. Qed.

Lemma quiet_ready : quiet (emit Ready).
Proof. intros env w. by exists tt, [Ready]. Qed.

Lemma quiet_bind {B C} (p : M B) (k : B -> M C) :
  quiet p -> (forall x, quiet (k x)) -> quiet (bind p k).
Proof.
  intros Hp Hk env w. unfold bind.
  destruct (Hp env w) as (x & o1 & -> & H1).
  destruct (Hk x env (extend w o1)) as (y & o2 & -> & H2).
  exists y, (o1 ++ o2). rewrite extend_extend. split; [done|].
  rewrite completions_app. lia.
Qed.

Lemma quiet_for_each {B} (l : list B) (body : B -> M unit) :
  (forall x, quiet (body x)) -> quiet (for_each l body).
Proof.
  intros Hb. induction l as [|x l IH]; simpl.
  - apply quiet_ret.
  - apply quiet_bind; [apply Hb | intros _; exact IH].
Qed.

Create HintDb quiet.
#[local] Hint Resolve quiet_ret quiet_send quiet_sleep quiet_ready : quiet.

Ltac quiet_steps :=
  repeat first
    [ apply quiet_bind; [|intros ?]
    | apply quiet_for_each; intros ?
    | solve [auto with quiet] ].

Lemma quiet_send_ot_stop (auto_ch : Z) : quiet (send_ot_stop auto_ch).
Proof. unfold send_ot_stop. quiet_steps. Qed.

Lemma quiet_send_ot_start (auto_ch : Z) : quiet (send_ot_start auto_ch).
Proof. unfold send_ot_start. quiet_steps. Qed.

Lemma quiet_mute_all_tracks : quiet mute_all_tracks.
Proof. unfold mute_all_tracks. quiet_steps. Qed.

Lemma quiet_unmute_all_tracks : quiet unmute_all_tracks.
Proof. unfold unmute_all_tracks. quiet_steps. Qed.

Lemma quiet_send_isolation_mutes (solo : Z) :
  quiet (send_isolation_mutes solo).
Proof. unfold send_isolation_mutes. quiet_steps. Qed.

#[local] Hint Resolve quiet_send_ot_stop quiet_send_ot_start
  quiet_mute_all_tracks quiet_unmute_all_tracks
  quiet_send_isolation_mutes : quiet.

(** A quiet step in front of a computation. *)
Lemma bind_quiet {B C} (p : M B) (k : B -> M C) (env : Env) (w : World) :
  quiet p ->
  exists x out, bind p k env w = k x env (extend w out) /\
                completions out = 0%nat.
Proof.
  intros Hp. destruct (Hp env w) as (x & out & Hrun & Hc).
  exists x, out. unfold bind. by rewrite Hrun.
Qed.

(** Takes the quiet step at the head of the running computation. *)
Ltac take_quiet_step :=
  match goal with
  | |- context [bind ?p ?k ?env ?w] =>
      let H := fresh "Hq" in
      let o := fresh "o" in
      let Hc := fresh "Hc" in
      assert (H : quiet p) by (repeat case_match; quiet_steps);
      destruct (bind_quiet p k env w H) as (? & o & -> & Hc);
      clear H
  end.

(** The part before the loop always finishes; it reads the clock once
    or twice and never the flag. *)
Lemma before_loop_done (a : PlaybackArgs) (env : Env) (w : World) :
  exists w' out,
    before_loop a env w =
      Done (if on_ready a then Some (clock env (clock_reads w)) else None,
            (clock env (clock_reads w + (if on_ready a then 1 else 0))
               - pre_roll a)%Q) w' /\
    clock_reads w' = (clock_reads w + clock_reads_before_loop a)%nat /\
    flag_reads w' = flag_reads w /\
    trace w' = trace w ++ out /\
    completions out = 0%nat.
Proof.
  unfold before_loop, clock_reads_before_loop.
  do 2 take_quiet_step.
  destruct (on_ready a).
  - unfold bind at 1 2 3. cbn [emit time_now sleep ret extend clock_read clock_reads
      flag_reads playing trace].
    unfold bind at 1. cbn [emit time_now sleep ret extend clock_read clock_reads
      flag_reads playing trace].
    do 2 take_quiet_step.
    unfold bind, time_now, ret; cbn.
    replace (clock_reads w + 1)%nat with (S (clock_reads w)) by lia.
    eexists _, (o ++ o0 ++ [Ready; Sleep 0.05] ++ o1 ++ o2).
    split; [reflexivity|]. cbn.
    split; [lia|]. split; [done|]. split.
    + by rewrite <- !app_assoc.
    + count_completions.
  - unfold bind at 1. unfold ret at 1.
    do 2 take_quiet_step.
    unfold bind, time_now, ret; cbn.
    replace (clock_reads w + 0)%nat with (clock_reads w) by lia.
    eexists _, (o ++ o0 ++ o1 ++ o2).
    split; [reflexivity|]. cbn.
    split; [lia|]. split; [done|]. split.
    + by rewrite <- !app_assoc.
    + count_completions.
Qed.

(** *** The early program changes *)

Lemma pc_events_from_ok (evs : list MIDIEvent) :
  forall i,
    pcs_well_formed evs ->
    Forall (fun p => (i <= fst p)%nat /\
                     exists e, nth_error evs (fst p - i) = Some e /\
                               (2 <= length (message e))%nat)
           (pc_events_from i evs).
Proof.
  induction evs as [|e evs IH]; intros i Hwf; cbn [pc_events_from];
    [constructor|].
  inversion Hwf as [|? ? He Hrest]; subst.
  assert (Htail : Forall (fun p => (i <= fst p)%nat /\
                     exists e', nth_error (e :: evs) (fst p - i) = Some e' /\
                                (2 <= length (message e'))%nat)
                         (pc_events_from (S i) evs)).
  { eapply Forall_impl; [apply (IH (S i) Hrest)|].
    intros [j t] [Hle (e' & Hnth & Hlen)]; simpl in *.
    split; [lia|]. exists e'. split; [|done].
    replace (j - i)%nat with (S (j - S i)) by lia. exact Hnth. }
  destruct (byte_at (message e) 0) as [status|] eqn:Hb; [|exact Htail].
  destruct (Z.land status 240 =? 192) eqn:Hpc; [|exact Htail].
  constructor; [|exact Htail]. simpl. split; [lia|].
  exists e. rewrite Nat.sub_diag. split; [done|].
  apply (He status eq_refl). by apply Z.eqb_eq.
Qed.

Lemma adjust_pcs_indices (f : Q) (pcs : list (nat * Q)) :
  forall prev, map fst (adjust_pcs f prev pcs) = map fst pcs.
Proof.
  induction pcs as [|[i t] pcs IH]; intros prev; simpl; [done|].
  by rewrite IH.
Qed.

Lemma insert_by_time_Forall (P : Q * nat -> Prop) (x : Q * nat)
    (l : list (Q * nat)) :
  P x -> Forall P l -> Forall P (insert_by_time x l).
Proof.
  intros Hx. induction 1 as [|y l Hy Hl IH]; simpl.
  - by repeat constructor.
  - case_match; by repeat constructor.
Qed.

Lemma sort_by_time_Forall (P : Q * nat -> Prop) (l : list (Q * nat)) :
  Forall P l -> Forall P (sort_by_time l).
Proof.
  unfold sort_by_time.
  assert (H : forall acc, Forall P acc -> Forall P l ->
                          Forall P (fold_left
                                      (fun acc x => insert_by_time x acc)
                                      l acc)).
  { induction l as [|x l IH]; intros acc Hacc Hl; simpl; [done|].
    inversion Hl; subst. apply IH; [|done].
    by apply insert_by_time_Forall. }
  intros Hl. apply H; [constructor | done].
Qed.

Lemma early_pc_events_ok (evs : list MIDIEvent) :
  pcs_well_formed evs -> early_ok evs (early_pc_events_of evs).
Proof.
  intros Hwf. unfold early_ok, early_pc_events_of, calculate_pc_lead_times.
  apply sort_by_time_Forall.
  pose proof (pc_events_from_ok evs 0 Hwf) as Hpcs.
  apply List.Forall_forall. intros [adj idx] Hin.
  apply in_map_iff in Hin as ([j a] & [= <- <-] & Hin).
  assert (Hj : In j (map fst (pc_events_from 0 evs))).
  { rewrite <- (adjust_pcs_indices 0.2 _ 0).
    apply in_map_iff. by exists (j, a). }
  apply in_map_iff in Hj as ([j' t] & Heq & Hj). simpl in Heq. subst j'.
  rewrite List.Forall_forall in Hpcs.
  destruct (Hpcs _ Hj) as [_ (e & Hnth & Hlen)]. simpl in *.
  rewrite Nat.sub_0_r in Hnth. eauto.
Qed.

Lemma send_early_pcs_done (evs : list MIDIEvent) (now : Q)
    (early : list (Q * nat)) :
  early_ok evs early ->
  forall sent env w,
    exists sent' out,
      send_early_pcs evs now early sent env w = Done sent' (extend w out) /\
      completions out = 0%nat.
Proof.
  induction 1 as [|[adj idx] early (e & Hnth & Hlen) _ IH];
    intros sent env w; simpl.
  - exists sent, []. by rewrite extend_nil.
  - simpl in Hnth. case_match.
    + rewrite Hnth. unfold byte_at.
      destruct (message e) as [|b0 [|b1 rest]] eqn:Hmsg;
        simpl in Hlen; try lia.
      simpl. unfold bind, send_message, emit.
      destruct (IH ({[idx]} ∪ sent) env (extend w [Send (b0 :: b1 :: rest)]))
        as (sent' & out & -> & Hc).
      exists sent', (Send (b0 :: b1 :: rest) :: out).
      rewrite extend_extend. split; [done|]. count_completions.
    + apply IH.
Qed.

(** *** The replay loop *)

Lemma bind_is_set {B} (k : bool -> M B) (env : Env) (w : World) :
  bind is_set k env w = k (stop_is_set env (flag_reads w)) env (flag_read w).
Proof. reflexivity. Qed.

Lemma bind_time_now {B} (k : Q -> M B) (env : Env) (w : World) :
  bind time_now k env w = k (clock env (clock_reads w)) env (clock_read w).
Proof. reflexivity. Qed.

Lemma bind_done {B C} (p : M B) (k : B -> M C) (env : Env) (w w' : World)
    (x : B) :
  p env w = Done x w' -> bind p k env w = k x env w'.
Proof. intros H. unfold bind. by rewrite H. Qed.

Lemma bind_emit {B} (act : Action) (k : unit -> M B) (env : Env) (w : World) :
  bind (emit act) k env w = k tt env (extend w [act]).
Proof. reflexivity. Qed.

Lemma bind_set_playing {B} (b : bool) (k : unit -> M B) (env : Env)
    (w : World) :
  bind (set_playing b) k env w =
    k tt env {| clock_reads := clock_reads w; flag_reads := flag_reads w;
                playing := b; trace := trace w |}.
Proof. reflexivity. Qed.

Lemma replay_loop_exits (evs : list MIDIEvent) (isolated : option Z)
    (start dur : Q) (early : list (Q * nat)) (env : Env) :
  early_ok evs early ->
  forall n budget idx sent w,
    (n < budget)%nat ->
    (forall i, (i < n)%nat ->
       stop_is_set env (flag_reads w + i) = false /\
       Qgeb (clock env (clock_reads w + i) - start) dur = false) ->
    (stop_is_set env (flag_reads w + n) = true \/
     Qgeb (clock env (clock_reads w + n) - start) dur = true) ->
    exists w' out,
      replay_loop budget evs isolated start dur early idx sent env w
        = Done tt w' /\
      flag_reads w' = (flag_reads w + n + 1)%nat /\
      clock_reads w' =
        (clock_reads w + n
           + (if stop_is_set env (flag_reads w + n) then 0 else 1))%nat /\
      trace w' = trace w ++ out /\
      completions out = 0%nat.
Proof.
  intros Hearly. induction n as [|n IH]; intros budget idx sent w Hb Hrun Hexit;
    (destruct budget as [|budget]; [lia|]); cbn [replay_loop];
    rewrite bind_is_set.
  - rewrite !Nat.add_0_r in *.
    destruct (stop_is_set env (flag_reads w)) eqn:Hstop.
    + exists (flag_read w), []. unfold ret. cbn.
      rewrite app_nil_r. repeat split; lia.
    + destruct Hexit as [?|Htime]; [done|].
      rewrite bind_time_now. cbn [flag_read clock_reads]. rewrite Htime.
      exists (clock_read (flag_read w)), []. unfold ret. cbn.
      rewrite app_nil_r. repeat split; lia.
  - destruct (Hrun 0%nat ltac:(lia)) as [Hstop Htime].
    rewrite !Nat.add_0_r in Hstop, Htime. rewrite Hstop.
    rewrite bind_time_now. cbn [flag_read clock_reads]. rewrite Htime.
    match goal with |- context [send_early_pcs ?e ?t ?l ?s] =>
      destruct (send_early_pcs_done e t l Hearly s env
                                    (clock_read (flag_read w)))
        as (sent' & o1 & Hsend & Hc1) end.
    rewrite (bind_done _ _ _ _ _ _ Hsend).
    erewrite bind_done by apply dispatch_due_spec.
    unfold sleep. rewrite bind_emit, !extend_extend.
    match goal with |- context [replay_loop budget _ _ _ _ _ ?i ?s env ?w1] =>
      destruct (IH budget i s w1) as (w' & o2 & Hloop & Hf & Hcl & Htr & Hc2)
    end.
    { lia. }
    { intros i Hi. cbn. rewrite <- !Nat.add_succ_r. apply Hrun. lia. }
    { cbn. rewrite <- !Nat.add_succ_r. exact Hexit. }
    eexists w', _. split; [exact Hloop|]. cbn in Hf, Hcl, Htr.
    rewrite <- !Nat.add_succ_r in Hcl.
    split; [lia|]. split; [lia|]. split.
    + rewrite Htr, <- app_assoc. reflexivity.
    + rewrite !completions_app, Hc1, Hc2, completions_sends.
      count_completions.
Qed.

(** *** From the start of the thread to the exit of the loop *)

Lemma until_loop_exit_done (env : Env) (evs : list MIDIEvent)
    (a : PlaybackArgs) (n budget : nat) :
  pcs_well_formed evs -> exits_at env evs a n -> (n < budget)%nat ->
  exists w,
    until_loop_exit budget evs a env world_init
      = Done (audio_start env a) w /\
    flag_reads w = S n /\
    completions (trace w) = 0%nat.
Proof.
  intros Hwf [Hrun Hexit] Hb. unfold until_loop_exit.
  destruct (before_loop_done a env world_init)
    as (w0 & o0 & Hbefore & Hcl0 & Hf0 & Htr0 & Hc0).
  rewrite (bind_done _ _ _ _ _ _ Hbefore). cbn [world_init clock_reads
    flag_reads trace] in *. cbn [Nat.add app] in *.
  destruct (replay_loop_exits evs (isolated_track a)
              (clock env (if on_ready a then 1 else 0)%nat - pre_roll a)%Q
              (playback_duration evs a) (early_pc_events_of evs) env
              (early_pc_events_ok evs Hwf) n budget 0%nat ∅ w0 Hb)
    as (w & o & Hloop & Hf & _ & Htr & Hc).
  - intros i Hi. rewrite Hf0, Hcl0. destruct (Hrun i Hi) as [Hstop Htime].
    split; [exact Hstop|]. apply Qgeb_false. exact Htime.
  - rewrite Hf0, Hcl0. destruct Hexit as [Hstop|Htime]; [by left|].
    right. apply Qgeb_true. exact Htime.
  - rewrite (bind_done _ _ _ _ _ _ Hloop). unfold ret, audio_start.
    exists w. split; [done|]. split; [lia|].
    rewrite Htr, Htr0. count_completions.
Qed.

(** *** After the loop *)

Lemma send_ot_stop_run (auto_ch : Z) (env : Env) (w : World) :
  send_ot_stop auto_ch env w = Done tt (extend w (stop_trigger auto_ch)).
Proof.
  unfold send_ot_stop, stop_trigger, bind, send_message, sleep, emit.
  by rewrite !extend_extend.
Qed.

Lemma tail_wait_waits (a : PlaybackArgs) :
  waits (if Qgtb (tail_time a) 0
         then bind is_set (fun stopped =>
                if negb stopped then sleep (tail_time a) else ret tt)
         else ret tt).
Proof.
  intros env w. destruct (Qgtb (tail_time a) 0).
  - rewrite bind_is_set. destruct (stop_is_set env (flag_reads w)) eqn:Hstop.
    + exists (flag_read w), []. cbn. rewrite app_nil_r.
      repeat split; auto.
    + exists (extend (flag_read w) [Sleep (tail_time a)]), [Sleep (tail_time a)].
      cbn. repeat split; auto.
      intros Hset. rewrite Hset in Hstop by lia. discriminate.
  - exists w, []. unfold ret. rewrite app_nil_r. repeat split; auto.
Qed.

Lemma stereo_wait_waits (a : PlaybackArgs) (ast : option Q) :
  waits (if Qgtb (stereo_duration a) 0 && truthy ast
         then bind is_set (fun stopped =>
                if negb stopped then
                  bind time_now (fun now =>
                    let elapsed := (now - default 0 ast)%Q in
                    let remaining := (stereo_duration a - elapsed)%Q in
                    if Qgtb remaining 0 then sleep remaining else ret tt)
                else ret tt)
         else ret tt).
Proof.
  intros env w. destruct (Qgtb (stereo_duration a) 0 && truthy ast).
  - rewrite bind_is_set. destruct (stop_is_set env (flag_reads w)) eqn:Hstop.
    + exists (flag_read w), []. cbn. rewrite app_nil_r.
      repeat split; auto.
    + cbn [negb]. rewrite bind_time_now. cbv zeta.
      match goal with |- context [Qgtb ?r 0] => destruct (Qgtb r 0) end.
      * eexists _, [Sleep _]. split; [reflexivity|]. cbn.
        repeat split; auto.
        intros Hset. rewrite Hset in Hstop by lia. discriminate.
      * eexists _, []. split; [reflexivity|]. cbn. rewrite app_nil_r.
        repeat split; auto.
  - exists w, []. unfold ret. rewrite app_nil_r. repeat split; auto.
Qed.

Lemma isolation_cleanup_run (a : PlaybackArgs) (env : Env) (w : World) :
  match isolated_track a with
  | Some _ =>
      bind (send_ot_stop (prog_change_channel a - 1)) (fun _ =>
      bind (sleep 0.02) (fun _ =>
      bind (send_ot_stop (prog_change_channel a - 1)) (fun _ =>
      bind (sleep 0.3) (fun _ => unmute_all_tracks))))
  | None => ret tt
  end env w = Done tt (extend w (isolation_cleanup a)).
Proof.
  unfold isolation_cleanup. destruct (isolated_track a).
  - rewrite (bind_done _ _ _ _ _ _ (send_ot_stop_run _ _ _)).
    unfold sleep. rewrite bind_emit.
    rewrite (bind_done _ _ _ _ _ _ (send_ot_stop_run _ _ _)).
    rewrite bind_emit. rewrite !extend_extend.
    unfold unmute_all_tracks, unmute_all, tracks_1_to_8.
    cbn [for_each flat_map app].
    unfold bind, send_message, sleep, emit, ret.
    rewrite !extend_extend. cbn [app]. by rewrite <- !app_assoc.
  - unfold ret. by rewrite extend_nil.
Qed.

Lemma bind_ret {B C} (x : B) (k : B -> M C) (env : Env) (w : World) :
  bind (ret x) k env w = k x env w.
Proof. reflexivity. Qed.

Lemma after_loop_done (a : PlaybackArgs) (ast : option Q) (env : Env)
    (w : World) :
  exists w' wait fired,
    after_loop a ast env w = Done tt w' /\
    trace w' = trace w ++ stop_trigger (prog_change_channel a - 1)
                 ++ wait ++ fired ++ isolation_cleanup a /\
    completions wait = 0%nat /\
    ((forall j, (flag_reads w <= j)%nat -> stop_is_set env j = true) ->
     wait = [] /\ fired = []) /\
    (on_complete a = false ->
     fired = [] /\ (flag_reads w <= flag_reads w')%nat) /\
    (on_complete a = true ->
     exists g, flag_reads w' = S g /\ (flag_reads w <= g)%nat /\
               fired = if stop_is_set env g then [] else [Complete]).
Proof.
  unfold after_loop.
  rewrite (bind_done _ _ _ _ _ _ (send_ot_stop_run _ _ _)).
  destruct (tail_wait_waits a env
              (extend w (stop_trigger (prog_change_channel a - 1))))
    as (w1 & o1 & Hrun1 & Htr1 & Hc1 & Hf1 & Hskip1).
  rewrite (bind_done _ _ _ _ _ _ Hrun1).
  destruct (stereo_wait_waits a ast env w1)
    as (w2 & o2 & Hrun2 & Htr2 & Hc2 & Hf2 & Hskip2).
  rewrite (bind_done _ _ _ _ _ _ Hrun2).
  rewrite bind_set_playing.
  cbn [extend flag_reads] in Hf1.
  destruct (on_complete a).
  - rewrite bind_done with
      (x := tt)
      (w' := extend (flag_read {| clock_reads := clock_reads w2;
                                  flag_reads := flag_reads w2;
                                  playing := false;
                                  trace := trace w2 |})
                    (if stop_is_set env (flag_reads w2) then []
                     else [Complete])).
    2: { rewrite bind_is_set. cbn [flag_reads].
         destruct (stop_is_set env (flag_reads w2)); cbn.
         - unfold ret. by rewrite extend_nil.
         - reflexivity. }
    rewrite isolation_cleanup_run.
    eexists _, (o1 ++ o2),
      (if stop_is_set env (flag_reads w2) then [] else [Complete]).
    split; [reflexivity|].
    cbn [extend flag_read trace flag_reads clock_reads playing].
    split.
    { rewrite Htr2, Htr1. cbn [extend trace].
      rewrite <- !app_assoc. reflexivity. }
    split; [count_completions|]. split; [|split; [done|]].
    + intros Hset. rewrite Hskip1, Hskip2, Hset; auto; try lia.
      intros j Hj. apply Hset. lia.
    + intros _. exists (flag_reads w2). repeat split; lia.
  - rewrite bind_ret, isolation_cleanup_run.
    eexists _, (o1 ++ o2), []. split; [reflexivity|].
    cbn [extend flag_read trace flag_reads clock_reads playing].
    split.
    { rewrite Htr2, Htr1. cbn [extend trace app].
      rewrite <- !app_assoc. reflexivity. }
    split; [count_completions|]. split; [|split; [|done]].
    + intros Hset. rewrite Hskip1, Hskip2; auto.
      intros j Hj. apply Hset. lia.
    + intros _. split; [done | lia].
Qed.


(** *** Cancellation and completion *)

Lemma completions_stop_trigger (auto_ch : Z) :
  completions (stop_trigger auto_ch) = 0%nat.
Proof. reflexivity. Qed.

Lemma completions_isolation_cleanup (a : PlaybackArgs) :
  completions (isolation_cleanup a) = 0%nat.
Proof. unfold isolation_cleanup. by destruct (isolated_track a). Qed.

(** C9.  Let the replay loop be left in iteration [n], and let every
    poll of the flag from the one that ends the loop on find it set:
    the flag was set while the loop was running.  Then the thread
    finishes, and all it does after leaving the loop is to send the
    device-stop trigger and, in an isolation pass, the closing stop and
    unmute sequence: the tail sleep and the stereo-length sleep are both
    skipped. *)
Theorem cancel_in_loop_still_stops (env : Env) (evs : list MIDIEvent)
    (a : PlaybackArgs) (n budget : nat) :
  pcs_well_formed evs ->
  (forall i, (i < n)%nat -> running_at env evs a i) ->
  (forall j, (n <= j)%nat -> stop_is_set env j = true) ->
  (n < budget)%nat ->
  exists w_loop w_end,
    until_loop_exit budget evs a env world_init
      = Done (audio_start env a) w_loop /\
    playback_loop budget evs a env world_init = Done tt w_end /\
    trace w_end = trace w_loop
                    ++ stop_trigger (prog_change_channel a - 1)
                    ++ isolation_cleanup a.
Proof.
  intros Hwf Hrun Hstop Hb.
  destruct (until_loop_exit_done env evs a n budget Hwf) as (w & Hloop & Hf & _);
    [split; [exact Hrun | left; by apply Hstop] | exact Hb |].
  destruct (after_loop_done a (audio_start env a) env w)
    as (w' & wait & fired & Hafter & Htr & _ & Hskip & _).
  exists w, w'. split; [exact Hloop|]. split.
  - unfold playback_loop. by rewrite (bind_done _ _ _ _ _ _ Hloop).
  - destruct Hskip as [-> ->].
    + intros j Hj. apply Hstop. lia.
    + exact Htr.
Qed.

Lemma example_flag_stays_set (k : option nat) : flag_stays_set (example_env k).
Proof.
  intros i j Hij. destruct k as [k|]; simpl; [|done].
  intros H%Nat.leb_le. apply Nat.leb_le. lia.
Qed.

Lemma example_events_well_formed : pcs_well_formed example_events.
Proof. repeat constructor; simpl; lia. Qed.

Lemma cancel_in_loop_still_stops_witness :
  pcs_well_formed example_events /\
  (forall i, (i < 1)%nat ->
             running_at (example_env (Some 1%nat)) example_events
                        example_args i) /\
  (forall j, (1 <= j)%nat ->
             stop_is_set (example_env (Some 1%nat)) j = true) /\
  exists w_loop w_end,
    until_loop_exit 5 example_events example_args
                    (example_env (Some 1%nat)) world_init
      = Done (audio_start (example_env (Some 1%nat)) example_args) w_loop /\
    playback_loop 5 example_events example_args
                  (example_env (Some 1%nat)) world_init = Done tt w_end /\
    trace w_end = trace w_loop
                    ++ stop_trigger (prog_change_channel example_args - 1)
                    ++ isolation_cleanup example_args.
Proof.
  assert (Hrun : forall i, (i < 1)%nat ->
                   running_at (example_env (Some 1%nat)) example_events
                              example_args i).
  { intros i Hi. assert (i = 0%nat) as -> by lia. split; reflexivity. }
  assert (Hstop : forall j, (1 <= j)%nat ->
                    stop_is_set (example_env (Some 1%nat)) j = true).
  { intros j Hj. destruct j; [lia | reflexivity]. }
  split; [exact example_events_well_formed|]. split; [exact Hrun|].
  split; [exact Hstop|].
  apply (cancel_in_loop_still_stops (example_env (Some 1%nat)) example_events
           example_args 1 5 example_events_well_formed Hrun Hstop).
  lia.
Defined.

(** C10.  The thread invokes the completion callback only when the flag
    is clear: in a pass in which some poll of the flag finds it set, the
    callback is never invoked; in a pass in which no poll finds it set,
    and a callback was passed, it is invoked exactly once.  With an
    output port open, [start_playback] starts this thread and does not
    itself invoke the callback. *)
Theorem completion_only_when_not_cancelled (env : Env)
    (evs : list MIDIEvent) (a : PlaybackArgs) (n budget : nat) :
  pcs_well_formed evs ->
  exits_at env evs a n ->
  flag_stays_set env ->
  (n < budget)%nat ->
  (exists w_end,
      playback_loop budget evs a env world_init = Done tt w_end /\
      (cancelled env w_end -> completions (trace w_end) = 0%nat) /\
      (~ cancelled env w_end -> on_complete a = true ->
       completions (trace w_end) = 1%nat)) /\
  (forall h port,
      midi_out h = Some port ->
      playback_thread (fst (start_playback a h)) = Some a /\
      snd (start_playback a h) = []).
Proof.
  intros Hwf Hexit Hstay Hb. split.
  - destruct (until_loop_exit_done env evs a n budget Hwf Hexit Hb)
      as (w & Hloop & Hf & Hc).
    destruct (after_loop_done a (audio_start env a) env w)
      as (w' & wait & fired & Hafter & Htr & Hcw & _ & Hnone & Hsome).
    exists w'. split.
    { unfold playback_loop. by rewrite (bind_done _ _ _ _ _ _ Hloop). }
    assert (Hcount : completions (trace w') = completions fired).
    { rewrite Htr, !completions_app, Hc, Hcw, completions_stop_trigger,
        completions_isolation_cleanup. lia. }
    rewrite Hcount. destruct (on_complete a).
    + destruct (Hsome eq_refl) as (g & Hg & Hle & ->). split.
      * intros (k & Hk & Hset).
        rewrite (Hstay k g) by (try lia; exact Hset). reflexivity.
      * intros Hnot _. destruct (stop_is_set env g) eqn:Hset; [|reflexivity].
        exfalso. apply Hnot. exists g. split; [lia | exact Hset].
    + destruct (Hnone eq_refl) as [-> _]. split; [done|]. discriminate.
  - intros h port Hport. unfold start_playback. by rewrite Hport.
Qed.

Lemma example_exits_by_time :
  exits_at (example_env None) example_events example_args 2.
Proof.
  split.
  - intros [|[|i]] Hi; [split; reflexivity | split; reflexivity | lia].
  - right. apply Qle_bool_iff. reflexivity.
Qed.

Lemma completion_only_when_not_cancelled_witness :
  pcs_well_formed example_events /\
  exits_at (example_env None) example_events example_args 2 /\
  flag_stays_set (example_env None) /\
  exists w_end,
    playback_loop 5 example_events example_args (example_env None)
                  world_init = Done tt w_end /\
    completions (trace w_end) = 1%nat.
Proof.
  split; [exact example_events_well_formed|].
  split; [exact example_exits_by_time|].
  split; [apply example_flag_stays_set|].
  destruct (completion_only_when_not_cancelled (example_env None)
              example_events example_args 2 5 example_events_well_formed
              example_exits_by_time (example_flag_stays_set _))
    as [(w_end & Hrun & _ & Honce) _]; [lia|].
  exists w_end. split; [exact Hrun|]. apply Honce; [|reflexivity].
  intros (k & _ & Hset). discriminate Hset.
Defined.

(** * Further properties *)

(** ** The recorder *)

Lemma record_stream_idle (stream : list (list Z * Q)) (h : Recorder) :
  recording h = false -> record_stream stream h = Some h.
Proof.
  intros Hrec. induction stream as [|[msg now] rest IH]; simpl; [done|].
  unfold midi_callback. rewrite Hrec. simpl. exact IH.
Qed.

Lemma stored_events_fields (t0 : Q) (stream : list (list Z * Q))
    (evs : list MIDIEvent) :
  Forall2 (fun arrival e => stored_event t0 arrival = Some e) stream evs ->
  map message evs = map fst stream /\
  map timestamp evs = map (fun arrival => (snd arrival - t0)%Q) stream.
Proof.
  induction 1 as [|[msg now] e stream evs Hst _ [IHm IHt]]; [done|].
  unfold stored_event, byte_at in Hst. simpl in Hst.
  destruct msg as [|status data]; [discriminate|]. injection Hst as <-.
  simpl. by rewrite IHm, IHt.
Qed.

Lemma shifted_times_sorted (t0 : Q) (stream : list (list Z * Q)) :
  StronglySorted Qle (map snd stream) ->
  StronglySorted Qle (map (fun arrival => (snd arrival - t0)%Q) stream).
Proof.
  induction stream as [|[msg now] rest IH]; simpl; intros Hs; [constructor|].
  inversion Hs as [|? ? Hrest Hall]; subst. constructor; [by apply IH|].
  rewrite List.Forall_forall in *. intros x Hx.
  apply in_map_iff in Hx as ([m' now'] & <- & Hin). simpl.
  assert (now <= now')%Q.
  { apply Hall. apply in_map_iff. by exists (m', now'). }
  lra.
Qed.

(** X1.  A recording started at [t0] stores the arriving messages
    unchanged and in arrival order, each with the time since [t0]; when
    the arrival times do not decrease, neither do the timestamps of the
    timeline.  Messages that arrive while the recorder is not recording
    change nothing. *)
Theorem recorded_timeline (t0 : Q) (h0 : Recorder)
    (stream : list (list Z * Q)) :
  (Forall (fun arrival => fst arrival <> []) stream ->
   exists h,
     record_stream stream (start_recording t0 h0) = Some h /\
     map message (events h) = map fst stream /\
     map timestamp (events h)
       = map (fun arrival => (snd arrival - t0)%Q) stream /\
     (StronglySorted Qle (map snd stream) ->
      StronglySorted Qle (map timestamp (events h)))) /\
  (recording h0 = false -> record_stream stream h0 = Some h0).
Proof.
  split; [|apply record_stream_idle].
  intros Hok.
  destruct (record_stream_events t0 stream (start_recording t0 h0))
    as (h & evs & Hrun & Hev & Hall); [by split | exact Hok |].
  simpl in Hev. exists h. split; [exact Hrun|]. rewrite Hev.
  destruct (stored_events_fields t0 stream evs Hall) as [Hm Ht].
  split; [exact Hm|]. split; [exact Ht|].
  rewrite Ht. apply shifted_times_sorted.
Qed.

Lemma recorded_timeline_witness :
  let stream := [([0xFA], 101%Q); ([0x90; 60; 100], 102%Q);
                 ([0xB1; 49; 127], 102%Q)] in
  Forall (fun arrival => fst arrival <> []) stream /\
  StronglySorted Qle (map snd stream) /\
  recording (stop_recording recorder_init) = false /\
  (exists h,
     record_stream stream (start_recording 100 recorder_init) = Some h /\
     map message (events h) = map fst stream /\
     StronglySorted Qle (map timestamp (events h))) /\
  record_stream stream (stop_recording recorder_init)
    = Some (stop_recording recorder_init).
Proof.
  intros stream.
  assert (Hne : Forall (fun arrival => fst arrival <> []) stream)
    by (repeat constructor; discriminate).
  assert (Hs : StronglySorted Qle (map snd stream))
    by (repeat constructor; discriminate).
  destruct (recorded_timeline 100 recorder_init stream) as [Hrec _].
  destruct (recorded_timeline 100 (stop_recording recorder_init) stream)
    as [_ Hidle].
  split; [exact Hne|]. split; [exact Hs|]. split; [reflexivity|]. split.
  - destruct (Hrec Hne) as (h & Hrun & Hm & _ & Hsorted).
    exists h. split; [exact Hrun|]. split; [exact Hm | exact (Hsorted Hs)].
  - exact (Hidle eq_refl).
Defined.

(** ** Program-change lead times, continued *)

Lemma pc_events_from_indices (evs : list MIDIEvent) :
  forall i j,
    In j (map fst (pc_events_from i evs)) <->
    (i <= j)%nat /\ is_program_change evs (j - i).
Proof.
  induction evs as [|e evs IH]; intros i j; cbn [pc_events_from].
  - split; [intros [] | intros [_ (e & st & Hn & _)]].
    by destruct (j - i)%nat.
  - assert (Hrest : In j (map fst (pc_events_from (S i) evs)) <->
                    (S i <= j)%nat /\ is_program_change (e :: evs) (j - i)).
    { rewrite IH. split; intros [Hle (e' & st & Hn & Hb & Hpc)];
        (split; [lia|]); exists e', st; (split; [|done]).
      - replace (j - i)%nat with (S (j - S i)) by lia. exact Hn.
      - replace (j - i)%nat with (S (j - S i)) in Hn by lia. exact Hn. }
    destruct (byte_at (message e) 0) as [status|] eqn:Hb.
    + destruct (Z.land status 240 =? 192) eqn:Hpc.
      * simpl. rewrite Hrest. split.
        -- intros [<-|[Hle Hp]]; [|split; [lia | done]].
           split; [lia|]. rewrite Nat.sub_diag. exists e, status.
           split; [done|]. split; [done|]. by apply Z.eqb_eq.
        -- intros [Hle Hp]. destruct (decide (i = j)) as [->|Hne];
             [by left | right]. split; [lia | done].
      * rewrite Hrest. split; [intros [Hle Hp]; split; [lia | done]|].
        intros [Hle Hp]. destruct (decide (i = j)) as [->|Hne];
          [|split; [lia | done]].
        rewrite Nat.sub_diag in Hp. destruct Hp as (e' & st & Hn & Hb' & Hpc').
        injection Hn as <-. rewrite Hb in Hb'. injection Hb' as <-.
        apply Z.eqb_neq in Hpc. done.
    + rewrite Hrest. split; [intros [Hle Hp]; split; [lia | done]|].
      intros [Hle Hp]. destruct (decide (i = j)) as [->|Hne];
        [|split; [lia | done]].
      rewrite Nat.sub_diag in Hp. destruct Hp as (e' & st & Hn & Hb' & _).
      injection Hn as <-. rewrite Hb in Hb'. discriminate.
Qed.

Lemma pc_events_from_increasing (evs : list MIDIEvent) :
  forall i, StronglySorted lt (map fst (pc_events_from i evs)).
Proof.
  induction evs as [|e evs IH]; intros i; cbn [pc_events_from];
    [constructor|].
  assert (Hcons : StronglySorted lt (i :: map fst (pc_events_from (S i) evs))).
  { constructor; [apply IH|]. apply List.Forall_forall. intros j Hj.
    apply pc_events_from_indices in Hj. lia. }
  destruct (byte_at (message e) 0) as [status|]; [|apply IH].
  destruct (Z.land status 240 =? 192); [exact Hcons | apply IH].
Qed.

Lemma pc_lead_time_indices (evs : list MIDIEvent) (lead_fraction : Q) :
  StronglySorted lt (map fst (calculate_pc_lead_times evs lead_fraction)) /\
  NoDup (map fst (calculate_pc_lead_times evs lead_fraction)) /\
  (forall i, In i (map fst (calculate_pc_lead_times evs lead_fraction))
             <-> is_program_change evs i).
Proof.
  unfold calculate_pc_lead_times. rewrite adjust_pcs_indices.
  pose proof (pc_events_from_increasing evs 0) as Hs.
  split; [exact Hs|]. split.
  - clear -Hs. induction Hs as [|x l Hs IH Hall]; constructor; [|exact IH].
    rewrite List.Forall_forall in Hall. intros Hin%list_elem_of_In.
    specialize (Hall x Hin). lia.
  - intros i. rewrite pc_events_from_indices, Nat.sub_0_r.
    split; [by intros [_ ?] | intros ?; split; [lia | done]].
Qed.

(** X2.  [_calculate_pc_lead_times] returns one entry for every program
    change of the timeline and for nothing else: its keys are exactly
    the indices of the events whose status byte has high nibble 0xC0,
    each once, in increasing order. *)
Theorem lead_time_keys (evs : list MIDIEvent) (lead_fraction : Q) :
  StronglySorted lt (map fst (calculate_pc_lead_times evs lead_fraction)) /\
  NoDup (map fst (calculate_pc_lead_times evs lead_fraction)) /\
  (forall i, In i (map fst (calculate_pc_lead_times evs lead_fraction))
             <-> is_program_change evs i).
Proof. exact (pc_lead_time_indices evs lead_fraction). Qed.

Lemma insert_by_time_Permutation (x : Q * nat) (l : list (Q * nat)) :
  Permutation (insert_by_time x l) (x :: l).
Proof.
  induction l as [|y l IH]; simpl; [done|].
  case_match; [done|]. rewrite IH. apply perm_swap.
Qed.

Lemma sort_by_time_Permutation (l : list (Q * nat)) :
  Permutation (sort_by_time l) l.
Proof.
  unfold sort_by_time.
  assert (H : forall acc,
             Permutation (fold_left (fun acc x => insert_by_time x acc) l acc)
                         (acc ++ l)).
  { induction l as [|x l IH]; intros acc; simpl.
    - by rewrite app_nil_r.
    - rewrite IH, insert_by_time_Permutation.
      by rewrite <- Permutation_middle. }
  by rewrite H.
Qed.

Lemma insert_by_time_ordered (x : Q * nat) (l : list (Q * nat)) :
  StronglySorted by_time_then_index l ->
  Forall (fun y => (snd y < snd x)%nat) l ->
  StronglySorted by_time_then_index (insert_by_time x l).
Proof.
  induction 1 as [|y l Hs IH Hall]; intros Hidx; simpl.
  - by repeat constructor.
  - inversion Hidx as [|? ? Hy Hrest]; subst.
    destruct (Qgtb (fst y) (fst x)) eqn:Hgt.
    + apply Qgtb_true in Hgt. constructor; [by constructor|].
      constructor; [by left|].
      eapply Forall_impl; [exact Hall|].
      intros z [Hlt|[Heq _]]; left; lra.
    + apply Qgtb_false in Hgt. constructor; [by apply IH|].
      apply insert_by_time_Forall; [|exact Hall].
      destruct (Qlt_le_dec (fst y) (fst x)) as [Hlt|Hle]; [by left|].
      right. split; [lra | lia].
Qed.

Lemma sort_by_time_ordered (l : list (Q * nat)) :
  StronglySorted lt (map snd l) ->
  StronglySorted by_time_then_index (sort_by_time l).
Proof.
  unfold sort_by_time.
  assert (H : forall acc,
             StronglySorted by_time_then_index acc ->
             StronglySorted lt (map snd l) ->
             (forall y x, In y acc -> In x l -> (snd y < snd x)%nat) ->
             StronglySorted by_time_then_index
               (fold_left (fun acc x => insert_by_time x acc) l acc)).
  { induction l as [|x l IH]; intros acc Hacc Hl Hlt; simpl; [done|].
    simpl in Hl. inversion Hl as [|? ? Hl' Hx]; subst.
    apply IH; [|exact Hl'|].
    - apply insert_by_time_ordered; [exact Hacc|].
      apply List.Forall_forall. intros y Hy. apply Hlt; [done | by left].
    - intros y z Hy Hz.
      apply (Permutation_in _ (insert_by_time_Permutation x acc)) in Hy.
      destruct Hy as [<-|Hy].
      + rewrite List.Forall_forall in Hx. apply Hx.
        apply in_map_iff. by exists z.
      + apply Hlt; [done | by right]. }
  intros Hl. apply H; [constructor | exact Hl | intros y x []].
Qed.

Lemma early_pc_events_sorted (evs : list MIDIEvent) :
  Permutation (early_pc_events_of evs)
              (map early_entry (calculate_pc_lead_times evs 0.2)) /\
  StronglySorted by_time_then_index (early_pc_events_of evs).
Proof.
  unfold early_pc_events_of.
  assert (Hmap : map (fun '(evt_idx, adj_time) => (adj_time, evt_idx))
                     (calculate_pc_lead_times evs 0.2)
                 = map early_entry (calculate_pc_lead_times evs 0.2)).
  { apply map_ext. by intros [i a]. }
  rewrite Hmap. split; [apply sort_by_time_Permutation|].
  apply sort_by_time_ordered. rewrite map_map. simpl.
  apply (pc_lead_time_indices evs 0.2).
Qed.

(** X3.  The list of early program changes built before the replay loop
    holds exactly the lead-time entries, ordered by adjusted time;
    entries with equal adjusted times keep the order of their events. *)
Theorem early_events_ordered (evs : list MIDIEvent) :
  Permutation (early_pc_events_of evs)
              (map early_entry (calculate_pc_lead_times evs 0.2)) /\
  StronglySorted by_time_then_index (early_pc_events_of evs).
Proof. exact (early_pc_events_sorted evs). Qed.

(** ** Isolation mutes *)

Lemma for_each_run {B} (l : list B) (body : B -> M unit)
    (out : B -> list Action) (env : Env) (w : World) :
  (forall x env w, body x env w = Done tt (extend w (out x))) ->
  for_each l body env w = Done tt (extend w (flat_map out l)).
Proof.
  intros Hbody. revert w. induction l as [|x l IH]; intros w; simpl.
  - unfold ret. by rewrite extend_nil.
  - rewrite (bind_done _ _ _ _ _ _ (Hbody x env w)), IH.
    by rewrite extend_extend.
Qed.

Lemma isolation_mute_filtered (solo track value : Z) (ts : Q) (ch : Z) :
  In track tracks_1_to_8 ->
  should_filter_event
    {| timestamp := ts; channel := ch;
       message := [Z.lor 0xB0 (track - 1); 49; value] |} solo
  = negb (track =? solo).
Proof.
  intros Hin.
  assert (Z.land (Z.lor 0xB0 (track - 1)) 0xF0 = 0xB0 /\
          Z.land (Z.lor 0xB0 (track - 1)) 0x0F + 1 = track) as [H1 H2].
  { unfold tracks_1_to_8 in Hin. simpl in Hin.
    destruct Hin as [<-|[<-|[<-|[<-|[<-|[<-|[<-|[<-|[]]]]]]]]];
      split; reflexivity. }
  unfold should_filter_event, byte_at.
  cbn [message length nth_error]. rewrite H1, H2.
  change ((3 <? 3)%nat) with false. change (0xB0 =? 0xB0) with true.
  change (49 =? 49) with true. cbn [negb].
  by destruct (track =? solo).
Qed.

(** X4.  [_send_isolation_mutes] sends one mute control change per
    track, in track order: value 0 (unmute) to the solo track and 127
    (mute) to the others.  The replay filter matches it: a recorded
    mute control change on the channel of track 1-8 is suppressed
    exactly when the setup muted that track. *)
Theorem isolation_mutes_match_filter (solo : Z) :
  (forall env w,
      send_isolation_mutes solo env w
        = Done tt (extend w (isolation_mutes solo))) /\
  (forall track value ts ch,
      In track tracks_1_to_8 ->
      should_filter_event
        {| timestamp := ts; channel := ch;
           message := [Z.lor 0xB0 (track - 1); 49; value] |} solo
      = negb (track =? solo)).
Proof.
  split.
  - intros env w. unfold send_isolation_mutes, isolation_mutes.
    apply for_each_run. intros track env' w'.
    unfold bind, send_message, sleep, emit. by rewrite extend_extend.
  - intros. by apply isolation_mute_filtered.
Qed.

Lemma isolation_mutes_match_filter_witness :
  In 5 tracks_1_to_8 /\
  should_filter_event
    {| timestamp := 1; channel := 4; message := [Z.lor 0xB0 (5 - 1); 49; 0] |}
    3 = true /\
  should_filter_event
    {| timestamp := 1; channel := 4; message := [Z.lor 0xB0 (5 - 1); 49; 0] |}
    5 = false.
Proof.
  assert (Hin : In 5 tracks_1_to_8) by (unfold tracks_1_to_8; simpl; tauto).
  split; [exact Hin|]. split.
  - exact (proj2 (isolation_mutes_match_filter 3) 5 0 1%Q 4 Hin).
  - exact (proj2 (isolation_mutes_match_filter 5) 5 0 1%Q 4 Hin).
Defined.

(** ** What the playback thread never does *)

Lemma only_does_ret {B} (ok : Action -> Prop) (x : B) : only_does ok (ret x).
Proof. intros env w. exists []. by rewrite app_nil_r. Qed.

Lemma only_does_emit (ok : Action -> Prop) (act : Action) :
  ok act -> only_does ok (emit act).
Proof. intros H env w. exists [act]. split; [done | by constructor]. Qed.

Lemma only_does_send (ok : Action -> Prop) (msg : list Z) :
  ok (Send msg) -> only_does ok (send_message msg).
Proof. apply only_does_emit. Qed.

Lemma only_does_sleep (ok : Action -> Prop) (d : Q) :
  ok (Sleep d) -> only_does ok (sleep d).
Proof. apply only_does_emit. Qed.

Lemma only_does_time_now (ok : Action -> Prop) : only_does ok time_now.
Proof. intros env w. exists []. by rewrite app_nil_r. Qed.

Lemma only_does_is_set (ok : Action -> Prop) : only_does ok is_set.
Proof. intros env w. exists []. by rewrite app_nil_r. Qed.

Lemma only_does_set_playing (ok : Action -> Prop) (b : bool) :
  only_does ok (set_playing b).
Proof. intros env w. exists []. by rewrite app_nil_r. Qed.

Lemma only_does_raise {B} (ok : Action -> Prop) : only_does ok (@raise B).
Proof. intros env w. exists []. by rewrite app_nil_r. Qed.

Lemma only_does_out_of_budget {B} (ok : Action -> Prop) :
  only_does ok (@out_of_budget B).
Proof. intros env w. exists []. by rewrite app_nil_r. Qed.

Lemma only_does_bind {B C} (ok : Action -> Prop) (p : M B) (k : B -> M C) :
  only_does ok p -> (forall x, only_does ok (k x)) -> only_does ok (bind p k).
Proof.
  intros Hp Hk env w. unfold bind.
  destruct (Hp env w) as (o1 & Htr1 & Hok1).
  destruct (p env w) as [x w'|w'|w']; simpl in Htr1.
  - destruct (Hk x env w') as (o2 & Htr2 & Hok2).
    exists (o1 ++ o2). split.
    + by rewrite Htr2, Htr1, <- app_assoc.
    + by apply Forall_app.
  - by exists o1.
  - by exists o1.
Qed.

Lemma only_does_for_each {B} (ok : Action -> Prop) (l : list B)
    (body : B -> M unit) :
  (forall x, only_does ok (body x)) -> only_does ok (for_each l body).
Proof.
  intros Hb. induction l as [|x l IH]; simpl.
  - apply only_does_ret.
  - apply only_does_bind; [apply Hb | intros _; exact IH].
Qed.

Lemma only_does_guarded_sleep (d : Q) :
  only_does sleeps_positive (if Qgtb d 0 then sleep d else ret tt).
Proof.
  destruct (Qgtb d 0) eqn:Hd.
  - apply only_does_sleep. by apply Qgtb_true.
  - apply only_does_ret.
Qed.

Create HintDb only.
#[local] Hint Resolve only_does_ret only_does_time_now only_does_is_set
  only_does_set_playing only_does_raise only_does_out_of_budget
  only_does_guarded_sleep : only.
#[local] Hint Extern 1 (only_does sleeps_positive (send_message _)) =>
  apply only_does_send; exact I : only.
#[local] Hint Extern 1 (only_does sleeps_positive (emit _)) =>
  apply only_does_emit; exact I : only.
#[local] Hint Extern 1 (only_does sleeps_positive (sleep _)) =>
  apply only_does_sleep; reflexivity : only.

Ltac only_steps :=
  repeat first
    [ solve [auto with only]
    | apply only_does_bind; [|intros ?]
    | apply only_does_for_each; intros ?
    | match goal with
      | |- only_does _ (match ?x with _ => _ end) => destruct x eqn:?
      end ].

Lemma positive_send_early_pcs (evs : list MIDIEvent) (now : Q)
    (early : list (Q * nat)) :
  forall sent,
    only_does sleeps_positive (send_early_pcs evs now early sent).
Proof.
  induction early as [|[adj idx] early IH]; intros sent; simpl.
  - only_steps.
  - only_steps; apply IH.
Qed.

Lemma positive_dispatch_due (isolated : option Z) (sent : gset nat) (now : Q)
    (rest : list MIDIEvent) :
  forall idx,
    only_does sleeps_positive (dispatch_due isolated sent now rest idx).
Proof.
  induction rest as [|e rest IH]; intros idx; simpl.
  - only_steps.
  - only_steps; apply IH.
Qed.

Lemma positive_replay_loop (budget : nat) (evs : list MIDIEvent)
    (isolated : option Z) (start dur : Q) (early : list (Q * nat)) :
  forall idx sent,
    only_does sleeps_positive
      (replay_loop budget evs isolated start dur early idx sent).
Proof.
  induction budget as [|budget IH]; intros idx sent; simpl.
  - only_steps.
  - only_steps;
      first [apply positive_send_early_pcs | apply positive_dispatch_due
            | apply IH].
Qed.

Lemma positive_before_loop (a : PlaybackArgs) :
  only_does sleeps_positive (before_loop a).
Proof.
  unfold before_loop, send_ot_stop, send_ot_start, mute_all_tracks,
    send_isolation_mutes.
  only_steps.
Qed.

Lemma positive_after_loop (a : PlaybackArgs) (ast : option Q) :
  only_does sleeps_positive (after_loop a ast).
Proof.
  unfold after_loop, send_ot_stop, unmute_all_tracks.
  only_steps.
  apply only_does_sleep. by apply Qgtb_true.
Qed.

(** X5.  The playback thread never asks for a sleep of zero or negative
    length, whatever its arguments, the recorded events, the clock and
    the flag, and whether the thread finishes, dies on an exception or
    is still looping: the pre-roll, tail and stereo-length sleeps are
    each guarded by their length being positive. *)
Theorem playback_sleeps_positive (budget : nat) (evs : list MIDIEvent)
    (a : PlaybackArgs) (env : Env) :
  Forall sleeps_positive
         (trace (final_world (playback_loop budget evs a env world_init))).
Proof.
  assert (H : only_does sleeps_positive (playback_loop budget evs a)).
  { unfold playback_loop, until_loop_exit.
    only_steps;
      first [ apply positive_replay_loop
            | apply only_does_sleep; by apply Qgtb_true ]. }
  destruct (H env world_init) as (out & -> & Hout). exact Hout.
Qed.

Lemma program_change_not_filtered (isolated : option Z) (e : MIDIEvent)
    (status : Z) :
  byte_at (message e) 0 = Some status ->
  Z.land status 0xF0 = 0xC0 ->
  filtered isolated e = false.
Proof.
  intros Hb Hpc. destruct isolated as [s|]; [|done]. simpl.
  destruct (should_filter_event e s) eqn:Hf; [|done].
  apply should_filter_event_spec in Hf as [[_ (st & Hst & Hcc & _)] _].
  rewrite Hb in Hst. injection Hst as <-. rewrite Hpc in Hcc. discriminate.
Qed.

Lemma early_entries_are_pcs (evs : list MIDIEvent) :
  Forall (fun entry => is_program_change evs (snd entry))
         (early_pc_events_of evs).
Proof.
  apply List.Forall_forall. intros entry Hin.
  destruct (early_pc_events_sorted evs) as [Hperm _].
  apply (Permutation_in _ Hperm) in Hin.
  apply in_map_iff in Hin as ([i a] & <- & Hin). simpl.
  apply (pc_lead_time_indices evs 0.2). apply in_map_iff. by exists (i, a).
Qed.

Lemma replays_send_early_pcs (evs : list MIDIEvent) (isolated : option Z)
    (now : Q) (early : list (Q * nat)) :
  Forall (fun entry => is_program_change evs (snd entry)) early ->
  forall sent,
    only_does (replays evs isolated) (send_early_pcs evs now early sent).
Proof.
  induction 1 as [|[adj idx] early Hpc _ IH]; intros sent;
    cbn [send_early_pcs].
  - apply only_does_ret.
  - destruct Hpc as (e & status & Hnth & Hb & Hpc). simpl in Hnth.
    case_match; [|apply IH]. rewrite Hnth, Hb.
    destruct (byte_at (message e) 1); [|apply only_does_raise].
    apply only_does_bind; [|intros _; apply IH].
    apply only_does_send. exists e. split; [|split; [done|]].
    + by apply nth_error_In in Hnth.
    + by apply (program_change_not_filtered isolated e status).
Qed.

Lemma passed_over_In (sent : gset nat) (now : Q) (rest : list MIDIEvent) :
  forall idx i e, In (i, e) (passed_over sent now rest idx) -> In e rest.
Proof.
  induction rest as [|e' rest IH]; intros idx i e; simpl; [done|].
  case_match; [|done]. intros [[= _ <-]|Hin]; [by left|].
  right. by apply (IH (S idx) i).
Qed.

Lemma replays_dispatch_due (evs : list MIDIEvent) (isolated : option Z)
    (sent : gset nat) (now : Q) (idx : nat) :
  only_does (replays evs isolated)
            (dispatch_due isolated sent now (skipn idx evs) idx).
Proof.
  intros env w. rewrite dispatch_due_spec. simpl. eexists. split; [done|].
  apply List.Forall_forall. intros act Hact.
  apply in_map_iff in Hact as ([i e] & <- & Hin).
  apply filter_In in Hin as [Hin Hkeep]. simpl in *.
  apply andb_true_iff in Hkeep as [_ Hf%negb_true_iff].
  exists e. split; [|done].
  apply passed_over_In in Hin. revert Hin. clear.
  revert evs. induction idx as [|idx IH]; intros evs; [done|].
  destruct evs as [|e' evs]; simpl; [done|]. intros Hin. right. by apply IH.
Qed.

Lemma replays_replay_loop (budget : nat) (evs : list MIDIEvent)
    (isolated : option Z) (start dur : Q) :
  forall idx sent,
    only_does (replays evs isolated)
      (replay_loop budget evs isolated start dur (early_pc_events_of evs)
                   idx sent).
Proof.
  induction budget as [|budget IH]; intros idx sent; simpl.
  - apply only_does_out_of_budget.
  - apply only_does_bind; [apply only_does_is_set | intros stopped].
    destruct stopped; [apply only_does_ret|].
    apply only_does_bind; [apply only_does_time_now | intros now].
    case_match; [apply only_does_ret|].
    apply only_does_bind; [|intros sent'].
    { apply replays_send_early_pcs, early_entries_are_pcs. }
    apply only_does_bind; [apply replays_dispatch_due | intros idx'].
    apply only_does_bind; [|intros _; apply IH].
    by apply only_does_sleep.
Qed.

(** X6.  Whatever the clock and the flag do, and however the loop ends,
    everything the replay loop sends is the unchanged message of a
    recorded event, and in a pass isolating track [s] none of these
    events is a mute control change for another track; the only sleep of
    the loop is its 1 ms tick, and it calls no callback. *)
Theorem replay_loop_sends_only_unfiltered (budget : nat)
    (evs : list MIDIEvent) (s : Z) (start dur : Q) (idx : nat)
    (sent : gset nat) (env : Env) (w : World) :
  exists out,
    trace (final_world
             (replay_loop budget evs (Some s) start dur
                          (early_pc_events_of evs) idx sent env w))
      = trace w ++ out /\
    Forall (fun act =>
              match act with
              | Send msg => exists e, In e evs /\ message e = msg /\
                                      ~ mute_cc_for_other_track e s
              | Sleep seconds => seconds = 0.001%Q
              | _ => False
              end) out.
Proof.
  destruct (replays_replay_loop budget evs (Some s) start dur idx sent env w)
    as (out & Htr & Hout).
  exists out. split; [exact Htr|].
  eapply Forall_impl; [exact Hout|].
  intros [msg|d| |]; simpl; try done.
  intros (e & Hin & Hmsg & Hf). exists e. split; [done|]. split; [done|].
  intros Hm%should_filter_event_spec. congruence.
Qed.

(** ** Termination *)

Lemma exit_or_running (env : Env) (evs : list MIDIEvent) (a : PlaybackArgs)
    (i : nat) :
  running_at env evs a i \/
  (stop_is_set env i = true \/
   (playback_duration evs a <= current_time_at env a i)%Q).
Proof.
  unfold running_at. destruct (stop_is_set env i); [right; by left|].
  destruct (Qlt_le_dec (current_time_at env a i) (playback_duration evs a));
    [by left | right; by right].
Qed.

Lemma first_exit (env : Env) (evs : list MIDIEvent) (a : PlaybackArgs) :
  forall n,
    (stop_is_set env n = true \/
     (playback_duration evs a <= current_time_at env a n)%Q) ->
    exists m, (m <= n)%nat /\ exits_at env evs a m.
Proof.
  induction n as [n IH] using lt_wf_ind. intros Hexit.
  assert (Hscan : forall k, (k <= n)%nat ->
            (forall i, (i < k)%nat -> running_at env evs a i) \/
            exists i, (i < k)%nat /\
              (stop_is_set env i = true \/
               (playback_duration evs a <= current_time_at env a i)%Q)).
  { induction k as [|k IHk]; intros Hk; [left; intros; lia|].
    destruct IHk as [Hall|(i & Hi & Hc)]; [lia| |right; exists i; split; [lia|done]].
    destruct (exit_or_running env evs a k) as [Hr|Hc].
    - left. intros i Hi. destruct (decide (i = k)) as [->|]; [done|].
      apply Hall. lia.
    - right. exists k. split; [lia | done]. }
  destruct (Hscan n (Nat.le_refl n)) as [Hall|(i & Hi & Hc)].
  - exists n. split; [lia|]. by split.
  - destruct (IH i Hi Hc) as (m & Hm & Hex). exists m. split; [lia | done].
Qed.

(** X7.  If the clock reading of some iteration [n] of the replay loop
    lies at or past the playback duration, the thread finishes within
    [n + 1] iterations, whatever the flag does; right after the loop it
    has sent the device-stop trigger. *)
Theorem playback_finishes (env : Env) (evs : list MIDIEvent)
    (a : PlaybackArgs) (n budget : nat) :
  pcs_well_formed evs ->
  (playback_duration evs a <= current_time_at env a n)%Q ->
  (n < budget)%nat ->
  exists w_loop w_end rest,
    until_loop_exit budget evs a env world_init
      = Done (audio_start env a) w_loop /\
    playback_loop budget evs a env world_init = Done tt w_end /\
    trace w_end = trace w_loop ++ stop_trigger (prog_change_channel a - 1)
                    ++ rest.
Proof.
  intros Hwf Htime Hb.
  destruct (first_exit env evs a n (or_intror Htime)) as (m & Hm & Hex).
  destruct (until_loop_exit_done env evs a m budget Hwf Hex)
    as (w & Hloop & _); [lia|].
  destruct (after_loop_done a (audio_start env a) env w)
    as (w' & wait & fired & Hafter & Htr & _).
  exists w, w', (wait ++ fired ++ isolation_cleanup a).
  split; [exact Hloop|]. split; [|exact Htr].
  unfold playback_loop. by rewrite (bind_done _ _ _ _ _ _ Hloop).
Qed.

Lemma playback_finishes_witness :
  pcs_well_formed example_events /\
  (playback_duration example_events example_args
     <= current_time_at (example_env None) example_args 4)%Q /\
  exists w_loop w_end rest,
    until_loop_exit 5 example_events example_args (example_env None)
                    world_init
      = Done (audio_start (example_env None) example_args) w_loop /\
    playback_loop 5 example_events example_args (example_env None)
                  world_init = Done tt w_end /\
    trace w_end = trace w_loop
                    ++ stop_trigger (prog_change_channel example_args - 1)
                    ++ rest.
Proof.
  assert (Htime : (playback_duration example_events example_args
                     <= current_time_at (example_env None) example_args 4)%Q)
    by (apply Qle_bool_iff; reflexivity).
  split; [exact example_events_well_formed|]. split; [exact Htime|].
  apply (playback_finishes (example_env None) example_events example_args
           4 5 example_events_well_formed Htime).
  lia.
Defined.

(** ** A pass cancelled before it starts *)


Lemma emits_emit (act : Action) : emits (emit act) [act].
Proof. by intros env w. Qed.


















(** ** Stereo pair extraction, continued *)

Section ExtractMore.
Context {A : Type} (zero : A).
Import AudioHandler.

Lemma column_length (audio : ndarray A) (ch : Z) (c : list A) :
  column zero audio ch = Some c -> length c = nframes audio.
Proof.
  unfold column. destruct (normalize_index _ _); [|discriminate].
  intros [= <-]. by rewrite length_map.
Qed.

Lemma column_stack_shape (c1 c2 : list A) :
  length c1 = length c2 ->
  nframes (column_stack c1 c2) = length c1 /\
  ncols (column_stack c1 c2) = 2%nat /\
  well_shaped (column_stack c1 c2).
Proof.
  intros Hlen. unfold column_stack, nframes, well_shaped. simpl.
  split; [|split; [done|]].
  - revert c2 Hlen. induction c1 as [|x c1 IH]; intros [|y c2] Hlen;
      simpl in *; try done. f_equal. apply IH. lia.
  - clear Hlen. revert c2. induction c1 as [|x c1 IH]; intros [|y c2];
      simpl; constructor; auto.
Qed.

Lemma normalize_index_negative (n : nat) (i : Z) :
  - Z.of_nat n <= i < 0 ->
  normalize_index n i = Some (Z.to_nat (i + Z.of_nat n)).
Proof.
  intros [Hlo Hhi]. unfold normalize_index.
  assert ((0 <=? i) = false) as -> by (apply Z.leb_gt; lia).
  assert ((- Z.of_nat n <=? i) = true) as -> by (apply Z.leb_le; lia).
  assert ((i <? 0) = true) as -> by (apply Z.ltb_lt; lia).
  done.
Qed.

Lemma normalize_index_below (n : nat) (i : Z) :
  i < - Z.of_nat n -> normalize_index n i = None.
Proof.
  intros Hlo. unfold normalize_index.
  assert ((0 <=? i) = false) as -> by (apply Z.leb_gt; lia).
  assert ((- Z.of_nat n <=? i) = false) as -> by (apply Z.leb_gt; lia).
  done.
Qed.

Lemma extract_stereo_result_shape (audio : ndarray A) (o : Z)
    (out : ndarray A) :
  extract_stereo zero audio o = Some out ->
  ncols out = 2%nat /\ nframes out = nframes audio /\ well_shaped out.
Proof.
  unfold extract_stereo, take_columns.
  destruct (o + 1 <? Z.of_nat (ncols audio)).
  - destruct (column zero audio o) as [c1|] eqn:H1; [|discriminate].
    destruct (column zero audio (o + 1)) as [c2|] eqn:H2; [|discriminate].
    intros [= <-]. apply column_length in H1, H2.
    destruct (column_stack_shape c1 c2) as (Hf & Hc & Hw); [congruence|].
    split; [done|]. split; [congruence | done].
  - destruct (o <? Z.of_nat (ncols audio)).
    + destruct (column zero audio o) as [c|] eqn:H1; [|discriminate].
      intros [= <-]. apply column_length in H1.
      destruct (column_stack_shape c c eq_refl) as (Hf & Hc & Hw).
      split; [done|]. split; [congruence | done].
    + intros [= <-]. unfold zeros, nframes, well_shaped. simpl.
      split; [done|]. split; [by rewrite length_replicate|].
      apply List.Forall_forall. intros r Hr%list_elem_of_In.
      by apply elem_of_replicate in Hr as [-> _].
Qed.

Lemma extract_stereo_returns (audio : ndarray A) (o : Z) :
  0 <= o -> is_Some (extract_stereo zero audio o).
Proof.
  intros Ho. unfold extract_stereo, take_columns.
  destruct (o + 1 <? Z.of_nat (ncols audio)) eqn:H2.
  - apply Z.ltb_lt in H2. rewrite !(column_in_range zero) by lia.
    by eexists.
  - destruct (o <? Z.of_nat (ncols audio)) eqn:H1; [|by eexists].
    apply Z.ltb_lt in H1. rewrite (column_in_range zero) by lia.
    by eexists.
Qed.

(** X9.  Whenever [_extract_stereo] returns, for any offset at all, the
    result has 2 channels and as many frames as the input.  A negative
    offset does not degrade to silence: down to minus the channel count
    it wraps around (numpy counts negative indices from the end), and
    below that the call raises. *)
Theorem extract_stereo_any_offset (audio : ndarray A) (o : Z) :
  (forall out, extract_stereo zero audio o = Some out ->
               ncols out = 2%nat /\ nframes out = nframes audio /\
               well_shaped out) /\
  (o < - Z.of_nat (ncols audio) -> extract_stereo zero audio o = None) /\
  (- Z.of_nat (ncols audio) <= o < -1 ->
   extract_stereo zero audio o =
     Some {| rows := map (fun r =>
                            [nth (Z.to_nat (o + Z.of_nat (ncols audio))) r zero;
                             nth (Z.to_nat (o + 1 + Z.of_nat (ncols audio)))
                                 r zero])
                         (rows audio);
             ncols := 2 |}) /\
  (o = -1 -> (0 < ncols audio)%nat ->
   extract_stereo zero audio o =
     Some {| rows := map (fun r => [nth (ncols audio - 1) r zero;
                                    nth 0 r zero])
                         (rows audio);
             ncols := 2 |}).
Proof.
  split; [|split; [|split]].
  - intros out. apply extract_stereo_result_shape.
  - intros Hlo. unfold extract_stereo, take_columns, column.
    destruct (o + 1 <? Z.of_nat (ncols audio)).
    + by rewrite normalize_index_below.
    + assert ((o <? Z.of_nat (ncols audio)) = true) as ->
        by (apply Z.ltb_lt; lia).
      by rewrite normalize_index_below.
  - intros [Hlo Hhi]. unfold extract_stereo, take_columns, column.
    assert ((o + 1 <? Z.of_nat (ncols audio)) = true) as ->
      by (apply Z.ltb_lt; lia).
    rewrite !normalize_index_negative by lia.
    unfold column_stack. by rewrite zip_with_map_same.
  - intros -> Hc. unfold extract_stereo, take_columns, column.
    assert ((-1 + 1 <? Z.of_nat (ncols audio)) = true) as ->
      by (apply Z.ltb_lt; lia).
    rewrite normalize_index_negative, normalize_index_in_range by lia.
    unfold column_stack. rewrite zip_with_map_same.
    replace (Z.to_nat (-1 + Z.of_nat (ncols audio))) with (ncols audio - 1)%nat
      by lia.
    done.
Qed.
End ExtractMore.

Lemma extract_stereo_any_offset_witness :
  let audio := {| AudioHandler.rows := [[1%Q; 2%Q; 3%Q]; [4%Q; 5%Q; 6%Q]];
                  AudioHandler.ncols := 3 |} in
  -4 < - Z.of_nat (AudioHandler.ncols audio) /\
  - Z.of_nat (AudioHandler.ncols audio) <= -3 < -1 /\
  AudioHandler.extract_stereo 0%Q audio (-4) = None /\
  AudioHandler.extract_stereo 0%Q audio (-3)
    = Some {| AudioHandler.rows := [[1%Q; 2%Q]; [4%Q; 5%Q]];
              AudioHandler.ncols := 2 |} /\
  AudioHandler.extract_stereo 0%Q audio (-1)
    = Some {| AudioHandler.rows := [[3%Q; 1%Q]; [6%Q; 4%Q]];
              AudioHandler.ncols := 2 |}.
Proof.
  intros audio.
  assert (H1 : -4 < - Z.of_nat (AudioHandler.ncols audio)) by (simpl; lia).
  assert (H2 : - Z.of_nat (AudioHandler.ncols audio) <= -3 < -1)
    by (simpl; lia).
  split; [exact H1|]. split; [exact H2|].
  split; [|split].
  - exact (proj1 (proj2 (extract_stereo_any_offset 0%Q audio (-4))) H1).
  - exact (proj1 (proj2 (proj2 (extract_stereo_any_offset 0%Q audio (-3))))
             H2).
  - apply (proj2 (proj2 (proj2 (extract_stereo_any_offset 0%Q audio (-1))))
             eq_refl).
    simpl. lia.
Defined.

(** ** The capture buffer *)

Lemma total_frames_app {A} (l1 l2 : list (AudioHandler.ndarray A)) :
  total_frames (l1 ++ l2) = (total_frames l1 + total_frames l2)%nat.
Proof.
  unfold total_frames. induction l1 as [|b l1 IH]; simpl; [done|].
  rewrite IH. lia.
Qed.

Lemma get_duration_frames (h : AudioHandler.t) :
  AudioHandler.sample_rate h <> 0 ->
  exists d, AudioHandler.get_duration h = Some d /\
            (d == inject_Z (Z.of_nat (total_frames (AudioHandler.audio_data h)))
                 / inject_Z (AudioHandler.sample_rate h))%Q.
Proof.
  intros Hrate. unfold AudioHandler.get_duration.
  destruct (AudioHandler.audio_data h) as [|b l] eqn:Hdata.
  - exists 0%Q. split; [done|]. unfold total_frames. simpl.
    unfold Qdiv. by rewrite Qmult_0_l.
  - apply Z.eqb_neq in Hrate. rewrite Hrate. eexists. split; [done|].
    reflexivity.
Qed.

Lemma get_duration_stored (h : AudioHandler.t)
    (block : AudioHandler.ndarray Q) :
  AudioHandler.sample_rate h <> 0 ->
  AudioHandler.get_duration (AudioHandler.audio_callback block h)
    = Some (inject_Z (Z.of_nat (total_frames (AudioHandler.audio_data h)
                                + AudioHandler.nframes block))
            / inject_Z (AudioHandler.sample_rate h))%Q.
Proof.
  intros Hrate. unfold AudioHandler.get_duration.
  cbn [AudioHandler.audio_callback AudioHandler.audio_data
       AudioHandler.sample_rate].
  destruct (AudioHandler.audio_data h ++ [block]) as [|b l] eqn:Hd;
    [by destruct (AudioHandler.audio_data h)|].
  rewrite <- Hd. apply Z.eqb_neq in Hrate. rewrite Hrate.
  change (fold_right Nat.add 0%nat
            (map AudioHandler.nframes (AudioHandler.audio_data h ++ [block])))
    with (total_frames (AudioHandler.audio_data h ++ [block])).
  rewrite total_frames_app. unfold total_frames at 2.
  cbn [map fold_right]. by rewrite Nat.add_0_r.
Qed.

(** X10.  The duration of the capture buffer is its number of frames
    divided by the sample rate: it is 0 after [clear]; once the callback
    has stored a block it is the quotient of the frames held before plus
    the frames of the block by the sample rate, and with a positive
    sample rate it is not less than before; with a sample rate of 0 and
    a block stored the query raises. *)
Theorem capture_duration (h : AudioHandler.t) (block : AudioHandler.ndarray Q) :
  AudioHandler.get_duration (AudioHandler.clear h) = Some 0%Q /\
  (AudioHandler.sample_rate h <> 0 ->
   AudioHandler.get_duration (AudioHandler.audio_callback block h)
     = Some (inject_Z (Z.of_nat (total_frames (AudioHandler.audio_data h)
                                 + AudioHandler.nframes block))
             / inject_Z (AudioHandler.sample_rate h))%Q) /\
  (0 < AudioHandler.sample_rate h ->
   exists d d',
     AudioHandler.get_duration h = Some d /\
     AudioHandler.get_duration (AudioHandler.audio_callback block h)
       = Some d' /\
     (0 <= d <= d')%Q) /\
  (AudioHandler.sample_rate h = 0 ->
   AudioHandler.get_duration (AudioHandler.audio_callback block h) = None).
Proof.
  split; [done|]. split; [apply get_duration_stored|]. split.
  - intros Hrate.
    destruct (get_duration_frames h ltac:(lia)) as (d & Hd & Heq).
    eexists d, _. split; [exact Hd|].
    split; [apply get_duration_stored; lia|].
    assert (Hinv : (0 <= / inject_Z (AudioHandler.sample_rate h))%Q).
    { apply Qinv_le_0_compat. change 0%Q with (inject_Z 0).
      rewrite <- Zle_Qle. lia. }
    rewrite Heq. unfold Qdiv. split.
    + apply Qmult_le_0_compat; [|exact Hinv].
      change 0%Q with (inject_Z 0). rewrite <- Zle_Qle. lia.
    + apply Qmult_le_compat_r; [|exact Hinv]. rewrite <- Zle_Qle. lia.
  - intros Hrate. unfold AudioHandler.get_duration. simpl.
    rewrite Hrate. simpl.
    by destruct (AudioHandler.audio_data h).
Qed.

Lemma capture_duration_witness :
  let block :=
    {| AudioHandler.rows := [[0%Q; 0%Q]]; AudioHandler.ncols := 2 |} in
  AudioHandler.sample_rate example_audio <> 0 /\
  0 < AudioHandler.sample_rate example_audio /\
  AudioHandler.get_duration (AudioHandler.audio_callback block example_audio)
    = Some (inject_Z (Z.of_nat (4 + 1)) / inject_Z 4)%Q /\
  exists d d',
    AudioHandler.get_duration example_audio = Some d /\
    AudioHandler.get_duration (AudioHandler.audio_callback block example_audio)
      = Some d' /\
    (0 <= d <= d')%Q.
Proof.
  intros block.
  assert (Hrate : AudioHandler.sample_rate example_audio <> 0)
    by discriminate.
  assert (Hpos : 0 < AudioHandler.sample_rate example_audio)
    by reflexivity.
  split; [exact Hrate|]. split; [exact Hpos|].
  destruct (capture_duration example_audio block) as (_ & Hq & Hmono & _).
  split; [exact (Hq Hrate) | exact (Hmono Hpos)].
Defined.

(** ** Writing the files *)

Lemma concatenate_frames {A} (blocks : list (AudioHandler.ndarray A))
    (audio : AudioHandler.ndarray A) :
  AudioHandler.concatenate blocks = Some audio ->
  AudioHandler.nframes audio = total_frames blocks.
Proof.
  unfold AudioHandler.concatenate. destruct blocks as [|b rest]; [done|].
  case_match; [|done]. intros [= <-].
  unfold AudioHandler.nframes, total_frames. simpl.
  rewrite length_app. f_equal.
  clear. induction rest as [|b rest IH]; simpl; [done|].
  rewrite length_app. unfold AudioHandler.nframes at 1. by rewrite IH.
Qed.

Lemma max_abs_rows (rows : list (list Q)) :
  Forall (fun r => length r = 2%nat) rows ->
  (is_Some (AudioHandler.max_abs rows) <-> (0 < length rows)%nat).
Proof.
  intros Hw. unfold AudioHandler.max_abs.
  destruct rows as [|r rows]; simpl.
  - split; [intros [? [=]] | lia].
  - inversion Hw as [|? ? Hr _]; subst.
    destruct r as [|x r]; [done|]. simpl. split; [lia | by eexists].
Qed.

Lemma save_main_mix_result (name : AudioHandler.FileName)
    (write_ok : bool) (h : AudioHandler.t) (files : AudioHandler.Files) :
  let result := AudioHandler.save_main_mix name write_ok h files in
  (fst result = true ->
   exists stereo,
     snd result = files ++ [(name, stereo, AudioHandler.sample_rate h)] /\
     AudioHandler.ncols stereo = 2%nat /\
     AudioHandler.nframes stereo = total_frames (AudioHandler.audio_data h)) /\
  (fst result = false -> snd result = files) /\
  (0 <= AudioHandler.main_offset h ->
   (fst result = true <->
    write_ok = true /\
    is_Some (AudioHandler.concatenate (AudioHandler.audio_data h)) /\
    (0 < total_frames (AudioHandler.audio_data h))%nat)).
Proof.
  unfold AudioHandler.save_main_mix.
  destruct (AudioHandler.audio_data h) as [|b rest] eqn:Hdata.
  { simpl. split; [discriminate|]. split; [done|]. intros _.
    split; [discriminate | intros (_ & [? [=]] & _)]. }
  rewrite <- Hdata.
  destruct (AudioHandler.concatenate (AudioHandler.audio_data h))
    as [audio|] eqn:Hcat; simpl.
  2: { split; [discriminate|]. split; [done|]. intros _.
       split; [discriminate | intros (_ & [? [=]] & _)]. }
  pose proof (concatenate_frames _ _ Hcat) as Hframes.
  destruct (AudioHandler.extract_stereo 0%Q audio (AudioHandler.main_offset h))
    as [stereo|] eqn:Hex; simpl.
  2: { split; [discriminate|]. split; [done|]. intros Hoff.
       destruct (extract_stereo_returns 0%Q audio _ Hoff) as [out Hout].
       congruence. }
  destruct (extract_stereo_result_shape 0%Q audio _ stereo Hex)
    as (Hc & Hf & Hw).
  unfold AudioHandler.well_shaped in Hw. rewrite Hc in Hw.
  pose proof (max_abs_rows _ Hw) as Hmax.
  destruct (AudioHandler.max_abs (AudioHandler.rows stereo)) as [m|]; simpl.
  - assert (Hpos : (0 < total_frames (AudioHandler.audio_data h))%nat).
    { rewrite <- Hframes, <- Hf. apply Hmax. by eexists. }
    destruct write_ok; simpl.
    + split; [|split; [discriminate|]].
      * intros _. exists stereo. split; [done|]. split; [done | congruence].
      * intros _. split; [intros _ | done].
        split; [done|]. split; [by eexists | done].
    + split; [discriminate|]. split; [done|]. intros _.
      split; [discriminate | intros [[=] _]].
  - split; [discriminate|]. split; [done|]. intros _.
    split; [discriminate|]. intros (_ & _ & Hpos).
    rewrite <- Hframes, <- Hf in Hpos.
    apply Hmax in Hpos as [? [=]].
Qed.

(** X11.  [save_main_mix] either writes exactly one file and returns
    True, or returns False and writes nothing.  A written file has 2
    channels and as many frames as the capture buffer holds, at the
    handler's sample rate.  With a non-negative main offset it succeeds
    exactly when the buffer is not empty, its blocks have one width, it
    holds at least one frame, and the write itself succeeds. *)
Theorem save_main_mix_outcome (name : AudioHandler.FileName)
    (write_ok : bool) (h : AudioHandler.t) (files : AudioHandler.Files) :
  let result := AudioHandler.save_main_mix name write_ok h files in
  (fst result = true ->
   exists stereo,
     snd result = files ++ [(name, stereo, AudioHandler.sample_rate h)] /\
     AudioHandler.ncols stereo = 2%nat /\
     AudioHandler.nframes stereo = total_frames (AudioHandler.audio_data h)) /\
  (fst result = false -> snd result = files) /\
  (0 <= AudioHandler.main_offset h ->
   (fst result = true <->
    write_ok = true /\
    is_Some (AudioHandler.concatenate (AudioHandler.audio_data h)) /\
    (0 < total_frames (AudioHandler.audio_data h))%nat)).
Proof. exact (save_main_mix_result name write_ok h files). Qed.

Lemma save_main_mix_outcome_witness :
  0 <= AudioHandler.main_offset example_audio /\
  fst (AudioHandler.save_main_mix AudioHandler.StereoMix true
                                  example_audio []) = true /\
  exists stereo,
    snd (AudioHandler.save_main_mix AudioHandler.StereoMix true
                                    example_audio [])
      = [(AudioHandler.StereoMix, stereo, 4)] /\
    AudioHandler.nframes stereo = 4%nat.
Proof.
  assert (Hoff : 0 <= AudioHandler.main_offset example_audio) by (simpl; lia).
  destruct (save_main_mix_outcome AudioHandler.StereoMix true example_audio [])
    as (Hyes & _ & Hiff).
  assert (Hok : fst (AudioHandler.save_main_mix AudioHandler.StereoMix true
                                                example_audio []) = true).
  { apply (Hiff Hoff). split; [reflexivity|]. split; [by eexists|].
    unfold total_frames. simpl. lia. }
  split; [exact Hoff|]. split; [exact Hok|].
  destruct (Hyes Hok) as (stereo & Hfiles & _ & Hf).
  exists stereo. split; [exact Hfiles | exact Hf].
Defined.

(** ** Onset detection *)

Section Onset.
Import AudioHandler.

Lemma fold_max_upper (t : Q) (l : list Q) :
  forall init, (init <= t)%Q -> Forall (fun x => (x <= t)%Q) l ->
               (fold_left Qmax l init <= t)%Q.
Proof.
  induction l as [|x l IH]; intros init Hinit Hall; simpl; [done|].
  inversion Hall; subst. apply IH; [|done]. by apply Q.max_lub.
Qed.

Lemma fold_max_init (l : list Q) :
  forall init, (init <= fold_left Qmax l init)%Q.
Proof.
  induction l as [|x l IH]; intros init; simpl; [lra|].
  eapply Qle_trans; [apply (Q.le_max_l init x) | apply IH].
Qed.

Lemma fold_max_lower (l : list Q) :
  forall init x, In x l -> (x <= fold_left Qmax l init)%Q.
Proof.
  induction l as [|y l IH]; intros init x; simpl; [done|].
  intros [<-|Hin]; [|by apply IH].
  eapply Qle_trans; [apply (Q.le_max_r init y) | apply fold_max_init].
Qed.

Lemma max_abs_quiet (t : Q) (rows : list (list Q)) :
  rows_quiet t rows -> rows <> [] ->
  exists m, max_abs rows = Some m /\ (m <= t)%Q.
Proof.
  intros Hq Hne. unfold max_abs.
  assert (Hall : Forall (fun x => (x <= t)%Q) (map Qabs (concat rows))).
  { apply List.Forall_forall. intros y Hy.
    apply in_map_iff in Hy as (x & <- & Hx).
    apply in_concat in Hx as (r & Hr & Hx).
    unfold rows_quiet in Hq. rewrite List.Forall_forall in Hq.
    destruct (Hq r Hr) as [_ Hrow]. rewrite List.Forall_forall in Hrow.
    by apply Hrow. }
  destruct rows as [|r rows]; [done|].
  inversion Hq as [|? ? [Hr _] _]; subst.
  destruct r as [|x r]; [done|]. simpl in *.
  inversion Hall; subst. eexists. split; [done|].
  by apply fold_max_upper.
Qed.

Lemma max_abs_loud (t : Q) (rows : list (list Q)) (r : list Q) (x : Q) :
  In r rows -> In x r -> (t < Qabs x)%Q ->
  exists m, max_abs rows = Some m /\ (t < m)%Q.
Proof.
  intros Hr Hx Hlt. unfold max_abs.
  assert (Hin : In (Qabs x) (map Qabs (concat rows))).
  { apply in_map. apply in_concat. by exists r. }
  destruct (map Qabs (concat rows)) as [|y l]; [done|].
  eexists. split; [done|]. eapply Qlt_le_trans; [exact Hlt|].
  destruct Hin as [<-|Hin]; [apply fold_max_init | by apply fold_max_lower].
Qed.

Lemma firstn_subset {B} (x : B) (l : list B) (n : nat) :
  In x (firstn n l) -> In x l.
Proof.
  revert l. induction n as [|n IH]; intros [|y l]; simpl; try done.
  intros [->|H]; [by left | right; by apply IH].
Qed.

Lemma skipn_subset {B} (x : B) (l : list B) (n : nat) :
  In x (skipn n l) -> In x l.
Proof.
  revert l. induction n as [|n IH]; intros [|y l]; simpl; try done.
  intros H. right. by apply IH.
Qed.
Lemma rows_quiet_firstn (t : Q) (n : nat) (rows : list (list Q)) :
  rows_quiet t rows -> rows_quiet t (firstn n rows).
Proof.
  unfold rows_quiet. rewrite !List.Forall_forall.
  intros H r Hr. apply H. by apply (firstn_subset _ _ n).
Qed.

Lemma rows_quiet_skipn (t : Q) (n : nat) (rows : list (list Q)) :
  rows_quiet t rows -> rows_quiet t (skipn n rows).
Proof.
  unfold rows_quiet. rewrite !List.Forall_forall.
  intros H r Hr. apply H. by apply (skipn_subset _ _ n).
Qed.


Lemma scan_chunk_quiet (t : Q) (budget : nat) :
  forall rows i, rows_quiet t rows -> scan_chunk budget t rows i = Silent.
Proof.
  induction budget as [|budget IH]; intros rows i Hq; simpl; [done|].
  destruct rows as [|r rows]; [done|].
  destruct (max_abs_quiet t (firstn 1024 (r :: rows))) as (m & -> & Hm).
  { by apply rows_quiet_firstn. }
  { done. }
  apply Qgtb_false in Hm. rewrite Hm. apply IH. by apply rows_quiet_skipn.
Qed.

Lemma scan_chunk_loud (t : Q) (loud : list Q) (x : Q) (post : list (list Q)) :
  In x loud -> (t < Qabs x)%Q ->
  forall k pre budget i,
    rows_quiet t pre ->
    (1024 * k <= length pre < 1024 * k + 1024)%nat ->
    (k < budget)%nat ->
    scan_chunk budget t (pre ++ loud :: post) i = Onset (i + 1024 * k).
Proof.
  intros Hx Hlt. induction k as [|k IH]; intros pre budget i Hq Hlen Hb;
    (destruct budget as [|budget]; [lia|]); cbn [scan_chunk].
  - destruct (pre ++ loud :: post) eqn:Hrows; [by destruct pre|].
    rewrite <- Hrows.
    destruct (max_abs_loud t (firstn 1024 (pre ++ loud :: post)) loud x)
      as (m & -> & Hm); [|done|done|].
    { rewrite firstn_app. apply in_or_app. right.
      replace (1024 - length pre)%nat with (S (1023 - length pre)) by lia.
      by left. }
    apply Qgtb_true in Hm. rewrite Hm. f_equal. lia.
  - destruct (pre ++ loud :: post) eqn:Hrows; [by destruct pre|].
    rewrite <- Hrows.
    assert (Hfirst : firstn 1024 (pre ++ loud :: post) = firstn 1024 pre).
    { rewrite firstn_app.
      replace (1024 - length pre)%nat with 0%nat by lia.
      simpl. by rewrite app_nil_r. }
    rewrite Hfirst.
    destruct (max_abs_quiet t (firstn 1024 pre)) as (m & -> & Hm).
    { by apply rows_quiet_firstn. }
    { destruct pre as [|r pre']; [cbn [length] in Hlen; lia | discriminate]. }
    apply Qgtb_false in Hm. rewrite Hm.
    assert (Hskip : skipn 1024 (pre ++ loud :: post)
                    = skipn 1024 pre ++ loud :: post).
    { rewrite skipn_app.
      replace (1024 - length pre)%nat with 0%nat by lia. done. }
    rewrite Hskip, (IH (skipn 1024 pre) budget (i + 1024)%nat).
    + f_equal. lia.
    + by apply rows_quiet_skipn.
    + rewrite length_skipn. lia.
    + lia.
Qed.

Lemma scan_blocks_quiet (t : Q) (rate : Z) (quiet rest : list (ndarray Q)) :
  Forall (fun b => rows_quiet t (rows b)) quiet ->
  forall checked,
    scan_blocks t rate (quiet ++ rest) checked
      = scan_blocks t rate rest (checked + total_frames quiet).
Proof.
  induction 1 as [|b quiet Hb _ IH]; intros checked; simpl.
  - by rewrite Nat.add_0_r.
  - rewrite (scan_chunk_quiet t _ _ _ Hb), IH. f_equal.
    unfold total_frames. simpl. lia.
Qed.

(** X12.  Onset detection answers 0 for a buffer in which no sample
    exceeds the threshold, and for the empty buffer. *)
Theorem onset_of_silence (t : Q) (h : AudioHandler.t) :
  Forall (fun b => rows_quiet t (rows b)) (audio_data h) ->
  detect_audio_onset t h = Some 0%Q.
Proof.
  intros Hq. unfold detect_audio_onset.
  destruct (audio_data h) as [|b l] eqn:Hdata; [done|].
  rewrite <- Hdata in *. rewrite <- (app_nil_r (audio_data h)).
  by rewrite (scan_blocks_quiet t _ _ [] Hq).
Qed.

(** X13.  When the first sample above the threshold lies in row [n] of a
    block, after blocks that are quiet, onset detection answers the
    start of the 1024-frame sub-chunk of that block which holds the row:
    the frames of the blocks before it plus [n] rounded down to a
    multiple of 1024, divided by the sample rate. *)
Theorem onset_position (t : Q) (h : AudioHandler.t)
    (quiet later : list (ndarray Q)) (pre post : list (list Q))
    (loud : list Q) (x : Q) (c : nat) :
  audio_data h = quiet ++ {| rows := pre ++ loud :: post; ncols := c |}
                   :: later ->
  Forall (fun b => rows_quiet t (rows b)) quiet ->
  rows_quiet t pre ->
  In x loud -> (t < Qabs x)%Q ->
  sample_rate h <> 0 ->
  detect_audio_onset t h
    = Some (inject_Z (Z.of_nat (total_frames quiet
                                + 1024 * (length pre / 1024)))
            / inject_Z (sample_rate h))%Q.
Proof.
  intros Hdata Hq Hpre Hx Hlt Hrate. unfold detect_audio_onset.
  destruct (audio_data h) as [|b l] eqn:Hd; [by destruct quiet|].
  rewrite Hdata, (scan_blocks_quiet t _ _ _ Hq). cbn [scan_blocks rows].
  rewrite (scan_chunk_loud t loud x post Hx Hlt (length pre / 1024) pre).
  - apply Z.eqb_neq in Hrate. by rewrite Hrate.
  - exact Hpre.
  - pose proof (Nat.div_mod_eq (length pre) 1024).
    pose proof (Nat.mod_upper_bound (length pre) 1024 ltac:(lia)). lia.
  - unfold nframes. cbn [rows]. rewrite length_app. cbn [length].
    pose proof (Nat.div_mod_eq (length pre) 1024). lia.
Qed.
End Onset.

Lemma onset_of_silence_witness :
  let h := AudioHandler.clear example_audio in
  let h' := AudioHandler.audio_callback
              {| AudioHandler.rows := [[0%Q; 0%Q]; [0.005%Q; (-0.01)%Q]];
                 AudioHandler.ncols := 2 |} h in
  Forall (fun b => rows_quiet 0.01 (AudioHandler.rows b))
         (AudioHandler.audio_data h') /\
  AudioHandler.detect_audio_onset AudioHandler.threshold_linear_40 h'
    = Some 0%Q.
Proof.
  intros h h'.
  assert (Hq : Forall (fun b => rows_quiet 0.01 (AudioHandler.rows b))
                      (AudioHandler.audio_data h')).
  { repeat constructor; try discriminate; apply Qle_bool_iff; reflexivity. }
  split; [exact Hq|].
  exact (onset_of_silence AudioHandler.threshold_linear_40 h' Hq).
Defined.

Lemma onset_position_witness :
  let quiet := [ {| AudioHandler.rows := [[0%Q; 0%Q]; [0%Q; 0%Q]];
                    AudioHandler.ncols := 2 |} ] in
  AudioHandler.audio_data example_audio
    = quiet ++ {| AudioHandler.rows := [] ++ [0.5%Q; 0%Q] :: [[0%Q; 0%Q]];
                  AudioHandler.ncols := 2 |} :: [] /\
  Forall (fun b => rows_quiet 0.01 (AudioHandler.rows b)) quiet /\
  rows_quiet 0.01 [] /\
  In 0.5%Q [0.5%Q; 0%Q] /\
  (0.01 < Qabs 0.5)%Q /\
  AudioHandler.sample_rate example_audio <> 0 /\
  AudioHandler.detect_audio_onset 0.01 example_audio
    = Some (inject_Z (Z.of_nat (total_frames quiet
                                + 1024 * (@length (list Q) [] / 1024)))
            / inject_Z 4)%Q.
Proof.
  intros quiet.
  assert (H1 : AudioHandler.audio_data example_audio
    = quiet ++ {| AudioHandler.rows := [] ++ [0.5%Q; 0%Q] :: [[0%Q; 0%Q]];
                  AudioHandler.ncols := 2 |} :: []) by reflexivity.
  assert (H2 : Forall (fun b => rows_quiet 0.01 (AudioHandler.rows b)) quiet).
  { repeat constructor; try discriminate; apply Qle_bool_iff; reflexivity. }
  assert (H3 : rows_quiet 0.01 []) by constructor.
  assert (H4 : In 0.5%Q [0.5%Q; 0%Q]) by (by left).
  assert (H5 : (0.01 < Qabs 0.5)%Q) by reflexivity.
  assert (H6 : AudioHandler.sample_rate example_audio <> 0) by discriminate.
  split; [exact H1|]. split; [exact H2|]. split; [exact H3|].
  split; [exact H4|]. split; [exact H5|]. split; [exact H6|].
  exact (onset_position 0.01 example_audio quiet [] [] [[0%Q; 0%Q]]
           [0.5%Q; 0%Q] 0.5 2 H1 H2 H3 H4 H5 H6).
Defined.
(** ** The stems to capture *)

Lemma active_tracks_spec (evs : list MIDIEvent) (N : Z) :
  N ∈ Session.active_tracks (get_track_activity evs) <->
  exists e, In e evs /\ channel e < 8 /\ channel e + 1 = N.
Proof.
  unfold Session.active_tracks, get_track_activity.
  rewrite elem_of_dom. split.
  - intros [v Hv]. apply map_lookup_filter_Some in Hv as [Hv Ht].
    simpl in Ht. subst v.
    apply mark_activity_inv in Hv as [Hinit | [_ He]]; [|exact He].
    rewrite activity_init_lookup in Hinit. by case_decide.
  - intros He. exists true. apply map_lookup_filter_Some. split; [|done].
    by apply mark_activity_hit.
Qed.

Lemma sorted_without_duplicates (l : list Z) :
  StronglySorted Z.le l -> NoDup l -> StronglySorted Z.lt l.
Proof.
  induction 1 as [|x l Hs IH Hall]; intros Hnd; [constructor|].
  apply NoDup_cons in Hnd as [Hx Hnd]. constructor; [by apply IH|].
  rewrite List.Forall_forall in *. intros y Hy.
  assert (x <> y) by (intros ->; by apply Hx, list_elem_of_In).
  specialize (Hall y Hy). lia.
Qed.

Lemma stop_jam_recording_activity (main_write_ok cue_write_ok : bool)
    (s s' : Session.t) (d : Q) :
  Session.stop_jam_recording main_write_ok cue_write_ok s = Some (d, s') ->
  Session.tracks_with_activity s'
    = Session.active_tracks
        (get_track_activity (events (recorder (Session.midi_handler s)))).
Proof.
  unfold Session.stop_jam_recording.
  destruct (AudioHandler.get_duration _) as [duration|]; [|done]. simpl.
  destruct (if Qgtb _ 0 then _ else _) as [start_offset|]; [|done]. simpl.
  destruct (AudioHandler.save_main_mix _ _ _ _) as [ok files1].
  by intros [= _ <-].
Qed.

(** X14.  After the jam pass is stopped and the tracks to skip are set,
    the stems to capture are listed in strictly increasing order, so no
    track twice, and they are exactly the tracks N that are not skipped
    and for which the recording holds an event stored with a channel
    below 8 equal to N - 1. *)
Theorem stems_to_capture (main_write_ok cue_write_ok : bool)
    (s s' : Session.t) (d : Q) (skip : gset Z) :
  Session.stop_jam_recording main_write_ok cue_write_ok s = Some (d, s') ->
  let stems :=
    Session.get_stems_to_capture (Session.set_skipped_tracks skip s') in
  StronglySorted Z.lt stems /\
  forall N,
    In N stems <->
    (N ∉ skip) /\
    exists e, In e (events (recorder (Session.midi_handler s))) /\
              channel e < 8 /\ channel e + 1 = N.
Proof.
  intros Hstop stems. subst stems.
  unfold Session.get_stems_to_capture. simpl.
  rewrite (stop_jam_recording_activity _ _ _ _ _ Hstop).
  split.
  - apply sorted_without_duplicates.
    + apply (StronglySorted_merge_sort Z.le).
    + rewrite merge_sort_Permutation. apply NoDup_elements.
  - intros N. rewrite <- list_elem_of_In, merge_sort_Permutation.
    rewrite elem_of_elements, elem_of_difference, active_tracks_spec.
    tauto.
Qed.

Lemma stems_to_capture_witness :
  exists s',
    Session.stop_jam_recording true true (example_session (Some 0%nat))
      = Some ((4 # 4)%Q, s') /\
    StronglySorted Z.lt
      (Session.get_stems_to_capture (Session.set_skipped_tracks {[1]} s')) /\
    In 3 (Session.get_stems_to_capture
            (Session.set_skipped_tracks {[1]} s')).
Proof.
  eexists. split; [reflexivity|].
  destruct (stems_to_capture true true (example_session (Some 0%nat)) _
              (4 # 4) {[1]} eq_refl) as [Hs Hin].
  split; [exact Hs|]. apply Hin. split; [by intros ?%elem_of_singleton|].
  eexists. split; [by left|]. simpl. lia.
Defined.
(** ** The level meter *)

Section Meter.
Import LevelMeter.
Local Open Scope R_scope.

Lemma meter_set_level_keeps (db : R) (m : Meter) :
  peak m <= 0 ->
  let m' := meter_set_level db m in
  -60 <= level m' <= peak m' /\ peak m' <= 0.
Proof.
  intros Hp. pose proof (set_level_bounds db) as [Hlo Hhi].
  unfold meter_set_level. cbn [level peak].
  destruct (Rlt_dec (peak m) (set_level db)); lra.
Qed.

Lemma decay_peak_keeps (amount : R) (m : Meter) :
  0 <= amount ->
  -60 <= level m <= peak m /\ peak m <= 0 ->
  let m' := decay_peak amount m in
  level m' = level m /\ level m' <= peak m' <= peak m.
Proof.
  intros Ha [Hl Hp]. unfold decay_peak. simpl.
  split; [done|]. split; [apply Rmax_l|]. apply Rmax_lub; lra.
Qed.

Lemma meter_invariant (ops : list MeterOp) :
  Forall decays_down ops ->
  forall m,
    -60 <= level m <= peak m /\ peak m <= 0 ->
    let m' := fold_left meter_step ops m in
    -60 <= level m' <= peak m' /\ peak m' <= 0.
Proof.
  induction 1 as [|op ops Hop _ IH]; intros m Hm; [exact Hm|].
  simpl. apply IH. destruct op as [db|amount]; simpl.
  - apply meter_set_level_keeps. lra.
  - destruct (decay_peak_keeps amount m Hop Hm) as (He & H1 & H2).
    unfold decay_peak in *. simpl in *. lra.
Qed.

(** X15.  Whatever levels arrive and however often the peak decays (by
    amounts that are not negative), a meter keeps
    -60 <= level <= peak <= 0; so for a widget of width [w] the bar ends
    inside the widget and the peak mark is never left of the bar's
    end. *)
Theorem meter_stays_in_range (ops : list MeterOp) (w : R) :
  Forall decays_down ops ->
  0 <= w ->
  let m := meter_run ops in
  (-60 <= level m <= peak m /\ peak m <= 0) /\
  0 <= db_to_x (level m) w <= db_to_x (peak m) w /\
  db_to_x (peak m) w <= w.
Proof.
  intros Hops Hw m.
  assert (Hinv : -60 <= level m <= peak m /\ peak m <= 0).
  { apply (meter_invariant ops Hops meter_init). simpl. lra. }
  split; [exact Hinv|]. unfold db_to_x.
  destruct Hinv as [[H1 H2] H3].
  assert (0 <= (level m + 60) / 60) by lra.
  assert ((level m + 60) / 60 <= (peak m + 60) / 60) by lra.
  assert ((peak m + 60) / 60 <= 1) by lra.
  split; [split|]; nra.
Qed.

End Meter.

Lemma meter_stays_in_range_witness :
  let ops := [SetLevel (-12); DecayPeak (1 / 2); SetLevel (-30);
              DecayPeak (1 / 2); SetLevel 3]%R in
  Forall decays_down ops /\
  (0 <= 150)%R /\
  (0 <= LevelMeter.db_to_x (LevelMeter.level (meter_run ops)) 150
     <= LevelMeter.db_to_x (LevelMeter.peak (meter_run ops)) 150)%R /\
  (LevelMeter.db_to_x (LevelMeter.peak (meter_run ops)) 150 <= 150)%R.
Proof.
  intros ops.
  assert (Hops : Forall decays_down ops)
    by (repeat constructor; simpl; lra).
  assert (Hw : (0 <= 150)%R) by lra.
  split; [exact Hops|]. split; [exact Hw|].
  exact (proj2 (meter_stays_in_range ops 150 Hops Hw)).
Defined.
(** ** Metering the configured channels *)

Section Levels.
Import AudioHandler.
Local Open Scope R_scope.

Lemma calc_db_bounds (data : list R) :
  data <> [] -> Forall (fun x => -1 <= x <= 1) data ->
  -200 <= calc_db data <= 0.
Proof.
  intros Hne Hall. destruct (rms_bounds data Hne Hall) as [H0 H1].
  unfold calc_db. split.
  - rewrite <- db_of_rms_silence. by apply db_of_rms_monotone.
  - rewrite <- db_of_rms_full. by apply db_of_rms_monotone.
Qed.

Lemma level_of_bounds (indata : ndarray R) (ch : Z) :
  (0 <= ch)%Z ->
  rows indata <> [] ->
  Forall (Forall (fun x => -1 <= x <= 1)) (rows indata) ->
  exists l,
    level_of indata ch = Some l /\ -200 <= l <= 0 /\
    ((Z.of_nat (ncols indata) <= ch)%Z -> l = -60).
Proof.
  intros Hch Hne Hall. unfold level_of.
  destruct (ch <? Z.of_nat (ncols indata))%Z eqn:Hlt.
  - apply Z.ltb_lt in Hlt. rewrite (column_in_range 0) by lia.
    eexists. split; [reflexivity|]. split; [|lia].
    apply calc_db_bounds.
    + by destruct (rows indata).
    + apply List.Forall_forall. intros x Hx.
      apply in_map_iff in Hx as (r & <- & Hr).
      rewrite List.Forall_forall in Hall. specialize (Hall r Hr).
      rewrite List.Forall_forall in Hall.
      destruct (Nat.lt_ge_cases (Z.to_nat ch) (length r)) as [Hin|Hout].
      * apply Hall. by apply nth_In.
      * rewrite nth_overflow by done. lra.
  - exists (-60). split; [done|]. split; [lra | done].
Qed.

(** X16.  For a block that is not empty, with samples in [-1, 1], and
    channel offsets that are not negative, [_update_levels] raises
    nothing and yields four levels, each in [-200, 0] dB.  A main channel
    the block does not have reads -60 dB, and without a cue pair both cue
    levels read -60 dB. *)
Theorem update_levels_four (h : t) (indata : ndarray R) :
  (0 <= main_offset h)%Z ->
  (forall c, cue_offset h = Some c -> (0 <= c)%Z) ->
  rows indata <> [] ->
  Forall (Forall (fun x => -1 <= x <= 1)) (rows indata) ->
  exists l1 l2 l3 l4,
    update_levels h indata = Some [l1; l2; l3; l4] /\
    Forall (fun l => -200 <= l <= 0) [l1; l2; l3; l4] /\
    ((Z.of_nat (ncols indata) <= main_offset h)%Z -> l1 = -60 /\ l2 = -60) /\
    ((Z.of_nat (ncols indata) <= main_offset h + 1)%Z -> l2 = -60) /\
    (cue_offset h = None -> l3 = -60 /\ l4 = -60).
Proof.
  intros Hmain Hcue Hne Hall. unfold update_levels.
  destruct (level_of_bounds indata (main_offset h) Hmain Hne Hall)
    as (l1 & -> & Hb1 & Hs1).
  destruct (level_of_bounds indata (main_offset h + 1) ltac:(lia) Hne Hall)
    as (l2 & -> & Hb2 & Hs2).
  simpl. destruct (cue_offset h) as [c|] eqn:Hc.
  - specialize (Hcue c eq_refl).
    destruct (level_of_bounds indata c Hcue Hne Hall) as (l3 & -> & Hb3 & _).
    destruct (level_of_bounds indata (c + 1) ltac:(lia) Hne Hall)
      as (l4 & -> & Hb4 & _).
    simpl. exists l1, l2, l3, l4. split; [done|].
    split; [repeat (apply List.Forall_cons; [done|]); apply List.Forall_nil|].
    split; [intros; split; [apply Hs1 | apply Hs2]; lia|].
    split; [exact Hs2 | done].
  - exists l1, l2, (-60), (-60). split; [done|].
    split; [repeat (apply List.Forall_cons; [lra|]); apply List.Forall_nil|].
    split; [intros; split; [apply Hs1 | apply Hs2]; lia|].
    split; [exact Hs2 | done].
Qed.

End Levels.

Lemma update_levels_four_witness :
  let h := AudioHandler.set_channel_config 0 None example_audio in
  let indata :=
    {| AudioHandler.rows := [[1 / 2]; [-1]]; AudioHandler.ncols := 1 |}%R in
  (0 <= AudioHandler.main_offset h) /\
  (forall c, AudioHandler.cue_offset h = Some c -> 0 <= c) /\
  AudioHandler.rows indata <> [] /\
  Forall (Forall (fun x => -1 <= x <= 1)%R) (AudioHandler.rows indata) /\
  exists l1,
    AudioHandler.update_levels h indata = Some [l1; -60; -60; -60]%R /\
    (-200 <= l1 <= 0)%R.
Proof.
  intros h indata.
  assert (H1 : 0 <= AudioHandler.main_offset h) by (simpl; lia).
  assert (H2 : forall c, AudioHandler.cue_offset h = Some c -> 0 <= c)
    by discriminate.
  assert (H3 : AudioHandler.rows indata <> []) by discriminate.
  assert (H4 : Forall (Forall (fun x => -1 <= x <= 1)%R)
                      (AudioHandler.rows indata))
    by (repeat constructor; lra).
  split; [exact H1|]. split; [exact H2|]. split; [exact H3|].
  split; [exact H4|].
  destruct (update_levels_four h indata H1 H2 H3 H4)
    as (l1 & l2 & l3 & l4 & Hrun & Hb & _ & Hr & Hcue).
  destruct (Hcue eq_refl) as [-> ->].
  rewrite (Hr ltac:(simpl; lia)) in Hrun.
  exists l1. split; [exact Hrun|].
  by inversion Hb.
Defined.
(** ** The configured channel pairs *)

(** X17.  After [set_channel_config] the stream is opened with at most
    the device's channels; for a block of that width and a configured
    pair at offset [o] (the main pair, or the cue pair), [_extract_stereo]
    returns the pair's own two channels when the device has them, and
    silence when the device has no channel at [o]. *)
Theorem configured_pair_extracted (main : Z) (cue : option Z)
    (h : AudioHandler.t) (audio : AudioHandler.ndarray Q) (o : Z) :
  let h' := AudioHandler.set_channel_config main cue h in
  Z.of_nat (AudioHandler.ncols audio) = AudioHandler.recording_channels h' ->
  o = main \/ cue = Some o ->
  0 <= o ->
  AudioHandler.recording_channels h' <= AudioHandler.device_max_channels h /\
  (o + 2 <= AudioHandler.device_max_channels h ->
   AudioHandler.extract_stereo 0%Q audio o
     = Some {| AudioHandler.rows :=
                 map (fun r => [nth (Z.to_nat o) r 0%Q;
                                nth (S (Z.to_nat o)) r 0%Q])
                     (AudioHandler.rows audio);
               AudioHandler.ncols := 2 |}) /\
  (AudioHandler.device_max_channels h <= o ->
   AudioHandler.extract_stereo 0%Q audio o
     = Some (AudioHandler.zeros 0%Q (AudioHandler.nframes audio))).
Proof.
  intros h' Hwidth Hpair Ho. subst h'.
  unfold AudioHandler.set_channel_config in *.
  cbn [AudioHandler.recording_channels] in *.
  assert (Hcue : forall c, cue = Some c -> o = main \/ o = c).
  { intros c Hc. destruct Hpair as [->|Ho']; [by left | right; congruence]. }
  assert (Hnone : cue = None -> o = main).
  { intros Hc. destruct Hpair as [->|Ho']; [done | congruence]. }
  clear Hpair.
  split; [lia|]. split.
  - intros Hdev.
    assert (Hin : o + 1 < Z.of_nat (AudioHandler.ncols audio)).
    { rewrite Hwidth. destruct cue as [c|].
      - destruct (Hcue c eq_refl); lia.
      - specialize (Hnone eq_refl). lia. }
    unfold AudioHandler.extract_stereo, AudioHandler.take_columns.
    apply Z.ltb_lt in Hin as Hlt. rewrite Hlt.
    rewrite !(column_in_range 0%Q) by lia. simpl.
    unfold AudioHandler.column_stack. rewrite zip_with_map_same.
    by replace (Z.to_nat (o + 1)) with (S (Z.to_nat o)) by lia.
  - intros Hdev.
    assert (Hout : Z.of_nat (AudioHandler.ncols audio) <= o).
    { rewrite Hwidth. lia. }
    unfold AudioHandler.extract_stereo.
    assert (H2 : (o + 1 <? Z.of_nat (AudioHandler.ncols audio)) = false)
      by (apply Z.ltb_ge; lia).
    assert (H1 : (o <? Z.of_nat (AudioHandler.ncols audio)) = false)
      by (apply Z.ltb_ge; lia).
    by rewrite H2, H1.
Qed.

Lemma configured_pair_extracted_witness :
  let h := AudioHandler.set_channel_config 0 (Some 2) example_audio in
  let audio :=
    {| AudioHandler.rows := [[0.5%Q; 0.25%Q]; [0%Q; 1%Q]];
       AudioHandler.ncols := 2 |} in
  Z.of_nat (AudioHandler.ncols audio) = AudioHandler.recording_channels h /\
  AudioHandler.extract_stereo 0%Q audio 0 = Some audio /\
  AudioHandler.extract_stereo 0%Q audio 2
    = Some (AudioHandler.zeros 0%Q 2).
Proof.
  intros h audio.
  assert (Hw : Z.of_nat (AudioHandler.ncols audio)
               = AudioHandler.recording_channels h) by reflexivity.
  split; [exact Hw|]. split.
  - exact (proj1 (proj2 (configured_pair_extracted 0 (Some 2) example_audio
                           audio 0 Hw (or_introl eq_refl) ltac:(lia)))
             ltac:(simpl; lia)).
  - exact (proj2 (proj2 (configured_pair_extracted 0 (Some 2) example_audio
                           audio 2 Hw (or_intror eq_refl) ltac:(lia)))
             ltac:(simpl; lia)).
Defined.
(** ** Capturing a stem *)

Lemma stored_blocks (blocks : list (AudioHandler.ndarray Q)) :
  forall h,
    let h' :=
      fold_left (fun h block => AudioHandler.audio_callback block h)
                blocks h in
    AudioHandler.audio_data h' = AudioHandler.audio_data h ++ blocks /\
    AudioHandler.sample_rate h' = AudioHandler.sample_rate h /\
    AudioHandler.main_offset h' = AudioHandler.main_offset h.
Proof.
  induction blocks as [|b blocks IH]; intros h; simpl.
  - by rewrite app_nil_r.
  - destruct (IH (AudioHandler.audio_callback b h)) as (Hd & Hr & Ho).
    rewrite Hd, Hr, Ho. simpl. by rewrite <- app_assoc.
Qed.

(** X18.  [capture_stem] either writes exactly one file, named after the
    track, and adds the track to the captured stems, or writes nothing
    and leaves the captured stems as they were.  A written stem holds
    only what was recorded during this pass: it has 2 channels and as
    many frames as the blocks delivered during the pass, whatever the
    buffer held before.  With a non-negative main offset the pass
    succeeds exactly when a port is open, the audio stream starts, the
    delivered blocks have one width and hold at least one frame, and the
    write succeeds. *)
Theorem capture_stem_outcome (track_num : Z) (env : Session.CaptureEnv)
    (s : Session.t) :
  let result := Session.capture_stem track_num env s in
  let s' := snd result in
  (fst result = true ->
   exists stereo,
     Session.files s'
       = Session.files s ++
         [(AudioHandler.Stem track_num, stereo,
           AudioHandler.sample_rate (Session.audio_handler s))] /\
     AudioHandler.ncols stereo = 2%nat /\
     AudioHandler.nframes stereo = total_frames (Session.captured env) /\
     SessionMetadata.captured_stems (Session.metadata s')
       = SessionMetadata.captured_stems (Session.metadata s) ++ [track_num]) /\
  (fst result = false ->
   Session.files s' = Session.files s /\
   SessionMetadata.captured_stems (Session.metadata s')
     = SessionMetadata.captured_stems (Session.metadata s)) /\
  (0 <= AudioHandler.main_offset (Session.audio_handler s) ->
   (fst result = true <->
    midi_out (Session.midi_handler s) <> None /\
    Session.stream_opens env = true /\
    Session.write_ok env = true /\
    is_Some (AudioHandler.concatenate (Session.captured env)) /\
    (0 < total_frames (Session.captured env))%nat)).
Proof.
  unfold Session.capture_stem.
  destruct (midi_out (Session.midi_handler s)) as [port|] eqn:Hport.
  2: { simpl. split; [discriminate|]. split; [done|]. intros _.
       split; [discriminate | by intros [? _]]. }
  unfold AudioHandler.start_recording.
  destruct (Session.stream_opens env) eqn:Hopens; simpl.
  2: { split; [discriminate|]. split; [done|]. intros _.
       split; [discriminate | by intros (_ & ? & _)]. }
  unfold start_playback. rewrite Hport.
  set (h0 := {| AudioHandler.recording := true;
                AudioHandler.audio_data := [] |}).
  set (h1 := AudioHandler.stop_recording _).
  destruct (stored_blocks (Session.captured env) h0) as (Hd & Hr & Ho).
  assert (Hdata : AudioHandler.audio_data h1 = Session.captured env)
    by exact Hd.
  assert (Hrate : AudioHandler.sample_rate h1
                  = AudioHandler.sample_rate (Session.audio_handler s))
    by exact Hr.
  assert (Hoff : AudioHandler.main_offset h1
                 = AudioHandler.main_offset (Session.audio_handler s))
    by exact Ho.
  pose proof (save_main_mix_result (AudioHandler.Stem track_num)
                (Session.write_ok env) h1 (Session.files s))
    as (Hyes & Hno & Hiff).
  rewrite Hdata, Hrate in Hyes. rewrite Hdata, Hoff in Hiff.
  destruct (AudioHandler.save_main_mix _ _ h1 _) as [ok files'].
  simpl in *. split; [|split].
  - intros ->. destruct (Hyes eq_refl) as (stereo & Hf & Hc & Hn).
    exists stereo. by rewrite Hf.
  - intros ->. by rewrite (Hno eq_refl).
  - intros Hmain. rewrite (Hiff Hmain). split.
    + intros (? & ? & ?). by repeat split.
    + intros (_ & _ & ? & ? & ?). by repeat split.
Qed.

Lemma capture_stem_outcome_witness :
  let env :=
    {| Session.stream_opens := true;
       Session.captured :=
         [ {| AudioHandler.rows := [[0.25%Q; 0%Q]]; AudioHandler.ncols := 2 |} ];
       Session.write_ok := true |} in
  let s := example_session (Some 0%nat) in
  fst (Session.capture_stem 3 env s) = true /\
  exists stereo,
    Session.files (snd (Session.capture_stem 3 env s))
      = [(AudioHandler.Stem 3, stereo, 4)] /\
    AudioHandler.nframes stereo = 1%nat.
Proof.
  intros env s.
  assert (Hok : fst (Session.capture_stem 3 env s) = true) by reflexivity.
  split; [exact Hok|].
  destruct (proj1 (capture_stem_outcome 3 env s) Hok)
    as (stereo & Hf & _ & Hn & _).
  exists stereo. split; [exact Hf | exact Hn].
Defined.
(** ** Starting and stopping the jam pass *)

(** X19.  [start_jam_recording] returns whether the audio stream
    started and empties the audio buffer.  When the stream started, the
    MIDI recorder is recording from [now] with an empty timeline; when it
    did not, the recorder is stopped again, so messages that arrive
    afterwards are not stored. *)
Theorem jam_start (now : Q) (stream_opens : bool) (s : Session.t)
    (stream : list (list Z * Q)) :
  let result := Session.start_jam_recording now stream_opens s in
  let rec := recorder (Session.midi_handler (snd result)) in
  fst result = stream_opens /\
  AudioHandler.audio_data (Session.audio_handler (snd result)) = [] /\
  events rec = [] /\
  (stream_opens = true -> live now rec) /\
  (stream_opens = false ->
   exists h, record_stream stream rec = Some h /\ events h = []).
Proof.
  unfold Session.start_jam_recording, AudioHandler.start_recording.
  destruct stream_opens; simpl.
  - split; [done|]. split; [done|]. split; [done|].
    split; [done | discriminate].
  - split; [done|]. split; [done|]. split; [done|].
    split; [discriminate|]. intros _. eexists.
    split; [by apply record_stream_idle | done].
Qed.

Lemma jam_start_witness :
  let stream := [([0x90; 60; 100], 101%Q)] in
  let s := example_session (Some 0%nat) in
  live 100 (recorder (Session.midi_handler
                        (snd (Session.start_jam_recording 100 true s)))) /\
  exists h,
    record_stream stream
      (recorder (Session.midi_handler
                   (snd (Session.start_jam_recording 100 false s))))
      = Some h /\
    events h = [].
Proof.
  intros stream s. split.
  - exact (proj1 (proj2 (proj2 (proj2 (jam_start 100 true s stream))))
             eq_refl).
  - exact (proj2 (proj2 (proj2 (proj2 (jam_start 100 false s stream))))
             eq_refl).
Defined.

Lemma save_cue_mix_result (name : AudioHandler.FileName) (write_ok : bool)
    (h : AudioHandler.t) (files : AudioHandler.Files) :
  let result := AudioHandler.save_cue_mix name write_ok h files in
  (fst result = true ->
   AudioHandler.cue_offset h <> None /\
   exists stereo,
     snd result = files ++ [(name, stereo, AudioHandler.sample_rate h)] /\
     AudioHandler.ncols stereo = 2%nat /\
     AudioHandler.nframes stereo = total_frames (AudioHandler.audio_data h)) /\
  (fst result = false -> snd result = files).
Proof.
  unfold AudioHandler.save_cue_mix.
  destruct (AudioHandler.audio_data h) as [|b rest] eqn:Hdata; [done|].
  destruct (AudioHandler.cue_offset h) as [cue|]; [|done].
  rewrite <- Hdata.
  destruct (AudioHandler.concatenate (AudioHandler.audio_data h))
    as [audio|] eqn:Hcat; simpl; [|done].
  pose proof (concatenate_frames _ _ Hcat) as Hframes.
  destruct (AudioHandler.extract_stereo 0%Q audio cue) as [stereo|] eqn:Hex;
    [|done].
  destruct (extract_stereo_result_shape 0%Q audio _ stereo Hex)
    as (Hc & Hf & _).
  destruct write_ok; simpl; [|done].
  split; [|discriminate]. intros _. split; [done|].
  exists stereo. split; [done|]. split; [done | congruence].
Qed.

(** X20.  Stopping the jam pass writes at most two files, behind those
    already there: the main mix first and then, only in dual-stereo mode,
    the cue mix; never a stem.  Each has 2 channels, as many frames as the
    capture buffer, and the handler's sample rate.  The metadata record
    dual stereo exactly when a cue pair is configured. *)
Theorem jam_files (main_write_ok cue_write_ok : bool)
    (s s' : Session.t) (d : Q) :
  Session.stop_jam_recording main_write_ok cue_write_ok s = Some (d, s') ->
  let audio := Session.audio_handler s in
  exists new,
    Session.files s' = Session.files s ++ new /\
    sublist (map (fun f => f.1.1) new)
            [AudioHandler.StereoMix; AudioHandler.CueMix] /\
    Forall (fun f =>
              AudioHandler.ncols f.1.2 = 2%nat /\
              AudioHandler.nframes f.1.2
                = total_frames (AudioHandler.audio_data audio) /\
              f.2 = AudioHandler.sample_rate audio) new /\
    (In AudioHandler.CueMix (map (fun f => f.1.1) new) ->
     AudioHandler.cue_offset audio <> None) /\
    (SessionMetadata.dual_stereo (Session.metadata s') = true <->
     AudioHandler.cue_offset audio <> None).
Proof.
  unfold Session.stop_jam_recording.
  destruct (AudioHandler.get_duration _) as [duration|]; [|done]. simpl.
  destruct (if Qgtb _ 0 then _ else _) as [start_offset|]; [|done]. simpl.
  set (audio := AudioHandler.stop_recording (Session.audio_handler s)).
  pose proof (save_main_mix_result AudioHandler.StereoMix main_write_ok
                audio (Session.files s)) as (Hyes & Hno & _).
  destruct (AudioHandler.save_main_mix _ _ _ _) as [ok files1].
  simpl in Hyes, Hno.
  pose proof (save_cue_mix_result AudioHandler.CueMix cue_write_ok
                audio files1) as (Hcyes & Hcno).
  intros [= _ <-]. simpl.
  assert (Hdual : (4 <=? AudioHandler.channels audio) = true <->
                  AudioHandler.cue_offset (Session.audio_handler s) <> None).
  { unfold AudioHandler.channels. simpl.
    by destruct (AudioHandler.cue_offset (Session.audio_handler s)). }
  assert (Hmain : exists new1,
             files1 = Session.files s ++ new1 /\
             sublist (map (fun f => f.1.1) new1) [AudioHandler.StereoMix] /\
             Forall (fun f =>
                       AudioHandler.ncols f.1.2 = 2%nat /\
                       AudioHandler.nframes f.1.2
                         = total_frames (AudioHandler.audio_data
                                           (Session.audio_handler s)) /\
                       f.2 = AudioHandler.sample_rate
                               (Session.audio_handler s)) new1).
  { destruct ok.
    - destruct (Hyes eq_refl) as (stereo & -> & Hc & Hn).
      eexists. split; [done|]. split; [done|].
      by repeat constructor.
    - rewrite (Hno eq_refl). exists []. rewrite app_nil_r.
      split; [done|]. split; [apply sublist_nil_l | constructor]. }
  destruct Hmain as (new1 & -> & Hsub & Hall).
  destruct (4 <=? AudioHandler.channels audio) eqn:Hch.
  - destruct (AudioHandler.save_cue_mix _ _ _ _) as [cok files2].
    simpl in *. destruct cok.
    + destruct (Hcyes eq_refl) as (Hcue & stereo & -> & Hc & Hn).
      exists (new1 ++ [(AudioHandler.CueMix, stereo,
                        AudioHandler.sample_rate (Session.audio_handler s))]).
      split; [by rewrite <- app_assoc|]. split.
      { rewrite map_app.
        change [AudioHandler.StereoMix; AudioHandler.CueMix]
          with ([AudioHandler.StereoMix] ++ [AudioHandler.CueMix]).
        by apply sublist_app. }
      split; [|done]. apply Forall_app. split; [done|].
      by repeat constructor.
    + rewrite (Hcno eq_refl). exists new1. split; [done|].
      split; [|split; [done|]].
      * change [AudioHandler.StereoMix; AudioHandler.CueMix]
          with ([AudioHandler.StereoMix] ++ [AudioHandler.CueMix]).
        by apply sublist_inserts_r.
      * split; [|done]. intros _. by apply Hdual.
  - exists new1. split; [done|]. split; [|split; [done|]].
    + change [AudioHandler.StereoMix; AudioHandler.CueMix]
        with ([AudioHandler.StereoMix] ++ [AudioHandler.CueMix]).
      by apply sublist_inserts_r.
    + split; [|by rewrite <- Hdual].
      intros Hin. exfalso.
      assert (Hin' : AudioHandler.CueMix ∈ [AudioHandler.StereoMix]).
      { eapply sublist_subseteq; [exact Hsub|]. by apply list_elem_of_In. }
      by apply list_elem_of_singleton in Hin'.
Qed.

Lemma jam_files_witness :
  exists s',
    Session.stop_jam_recording true true (example_session (Some 0%nat))
      = Some ((4 # 4)%Q, s') /\
    exists new,
      Session.files s' = [] ++ new /\
      sublist (map (fun f => f.1.1) new)
              [AudioHandler.StereoMix; AudioHandler.CueMix] /\
      Forall (fun f => AudioHandler.nframes f.1.2 = 4%nat) new.
Proof.
  eexists. split; [reflexivity|].
  destruct (jam_files true true (example_session (Some 0%nat)) _ (4 # 4)
              eq_refl) as (new & Hf & Hsub & Hall & _).
  exists new. split; [exact Hf|]. split; [exact Hsub|].
  eapply Forall_impl; [exact Hall|]. by intros f (_ & Hn & _).
Defined.
(** ** The length of the recorded timeline *)

Lemma get_duration_last (mh : MIDIHandler) :
  get_duration mh
    = default 0%Q (last (map timestamp (events (recorder mh)))).
Proof.
  unfold get_duration.
  change (map timestamp (events (recorder mh)))
    with (timestamp <$> events (recorder mh)).
  rewrite fmap_last. by destruct (last (events (recorder mh))).
Qed.

Lemma sorted_last_greatest (l : list Q) :
  StronglySorted Qle l ->
  Forall (fun x => (x <= default 0 (last l))%Q) l.
Proof.
  induction 1 as [|x l Hs IH Hall]; [constructor|].
  destruct l as [|y l].
  - constructor; [simpl; lra | constructor].
  - change (last (x :: y :: l)) with (last (y :: l)).
    constructor; [|exact IH].
    inversion IH as [|? ? Hy _]; subst.
    inversion Hall as [|? ? Hxy _]; subst. lra.
Qed.

(** X21.  For a recording started at [t0] whose messages arrive at
    times that do not decrease, [get_duration] is the time from [t0] to
    the last arrival (0 when nothing arrived), and no event of the
    timeline has a later timestamp. *)
Theorem recording_duration (t0 : Q) (h0 : Recorder)
    (stream : list (list Z * Q)) :
  Forall (fun arrival => fst arrival <> []) stream ->
  StronglySorted Qle (map snd stream) ->
  exists h,
    record_stream stream (start_recording t0 h0) = Some h /\
    forall mh,
      recorder mh = h ->
      get_duration mh
        = default 0%Q ((fun arrival => (snd arrival - t0)%Q) <$> last stream) /\
      Forall (fun e => (timestamp e <= get_duration mh)%Q) (events h).
Proof.
  intros Hok Hs.
  destruct (record_stream_events t0 stream (start_recording t0 h0))
    as (h & evs & Hrun & Hev & Hall); [by split | exact Hok |].
  simpl in Hev. exists h. split; [exact Hrun|]. intros mh Hmh.
  destruct (stored_events_fields t0 stream evs Hall) as [_ Ht].
  rewrite get_duration_last, Hmh, Hev, Ht.
  split.
  - change (map (fun arrival => (snd arrival - t0)%Q) stream)
      with ((fun arrival : list Z * Q => (snd arrival - t0)%Q) <$> stream).
    by rewrite fmap_last.
  - pose proof (sorted_last_greatest _ (shifted_times_sorted t0 stream Hs))
      as Hmax.
    rewrite <- Ht in Hmax |- *.
    rewrite List.Forall_forall in *. intros e He.
    apply Hmax. by apply in_map.
Qed.

Lemma recording_duration_witness :
  let stream := [([0xFA], 101%Q); ([0x90; 60; 100], 102%Q);
                 ([0xB1; 49; 127], 103.5%Q)] in
  Forall (fun arrival => fst arrival <> []) stream /\
  StronglySorted Qle (map snd stream) /\
  exists h,
    record_stream stream (start_recording 100 recorder_init) = Some h /\
    get_duration {| midi_out := None; recorder := h; is_playing := false;
                    playback_thread := None; stop_requested := false |}
      = (103.5 - 100)%Q.
Proof.
  intros stream.
  assert (Hne : Forall (fun arrival => fst arrival <> []) stream)
    by (repeat constructor; discriminate).
  assert (Hs : StronglySorted Qle (map snd stream))
    by (repeat constructor; discriminate).
  split; [exact Hne|]. split; [exact Hs|].
  destruct (recording_duration 100 recorder_init stream Hne Hs)
    as (h & Hrun & Hdur).
  exists h. split; [exact Hrun|].
  exact (proj1 (Hdur {| midi_out := None; recorder := h;
                         is_playing := false; playback_thread := None;
                         stop_requested := false |} eq_refl)).
Defined.
